(** * EPUB and SRT translator: fragment model, mismatch detector, retry controller

    A shallow embedding of the translation core of the repository
    (src/translation_worker.py, src/main.py, src/epub_creator.py): the
    properties its specification states about it, and properties the code
    shows beyond them, of the subtitle files it reads and writes, of the
    worker and the controller, of the detector and of the templates.

    Python strings are sequences of code points: a character is a code point
    in [N], a string is a [list N].  Python's [re] is embedded as a small
    backtracking matcher over the constructs the program's patterns use, in
    the priority order of the original (greedy before lazy, left alternative
    first), so that the groups a match reports are the ones Python reports. *)

From Stdlib Require Import String Ascii NArith Lia.
From stdpp Require Import gmap list.

Local Open Scope nat_scope.

(** ** Characters and the Unicode tables *)

Abbreviation char := N (only parsing).
Abbreviation str := (list N) (only parsing).

(** An ASCII literal of the source as a Python string, and one character. *)
Definition py (s : string) : str := List.map N_of_ascii (list_ascii_of_string s).
Definition ch (a : ascii) : char := N_of_ascii a.
Arguments py s%_string.
Arguments ch a%_char.

(** The newline, the double quote: characters a literal here cannot hold. *)
Definition nl : str := [10%N].
Definition dquote : char := 34%N.

(** The Unicode character database is not part of the program: its tables
    beyond ASCII are a parameter.  Below 128 every class is spelled out. *)
Record UnicodeData := {
  uni_space   : N -> bool;
  uni_decimal : N -> bool;
  uni_digit   : N -> bool;
  uni_numeric : N -> bool;
  uni_alpha   : N -> bool;
  uni_upper   : N -> bool
}.

(** The tables that know no character beyond ASCII. *)
Definition ascii_only : UnicodeData :=
  {| uni_space := fun _ => false; uni_decimal := fun _ => false;
     uni_digit := fun _ => false; uni_numeric := fun _ => false;
     uni_alpha := fun _ => false; uni_upper := fun _ => false |}.

Definition in_range (lo hi c : N) : bool := ((lo <=? c) && (c <=? hi))%N.

Definition ascii_space (c : N) : bool :=
  in_range 9 13 c || in_range 28 32 c.
Definition ascii_digit (c : N) : bool := in_range 48 57 c.
Definition ascii_upper (c : N) : bool := in_range 65 90 c.
Definition ascii_lower (c : N) : bool := in_range 97 122 c.
Definition ascii_alpha (c : N) : bool := ascii_upper c || ascii_lower c.

Section Program.

Set Default Proof Using "Type".

Context (U : UnicodeData).

(** [str.isspace] on one character, also the class of [\s] and of [strip]. *)
Definition isspace (c : N) : bool :=
  if (c <? 128)%N then ascii_space c else uni_space U c.
(** The class of [\d]: decimal digits. *)
Definition isdecimal (c : N) : bool :=
  if (c <? 128)%N then ascii_digit c else uni_decimal U c.
(** [str.isdigit] on one character. *)
Definition isdigit (c : N) : bool :=
  if (c <? 128)%N then ascii_digit c else uni_digit U c.
Definition isnumeric (c : N) : bool :=
  if (c <? 128)%N then ascii_digit c else uni_numeric U c.
(** [str.isalpha] on one character. *)
Definition isalpha (c : N) : bool :=
  if (c <? 128)%N then ascii_alpha c else uni_alpha U c.
(** [str.isupper] on one character. *)
Definition isupper (c : N) : bool :=
  if (c <? 128)%N then ascii_upper c else uni_upper U c.
(** The class of [\w]: alphanumeric or underscore. *)
Definition isword (c : N) : bool :=
  isalpha c || isdecimal c || isdigit c || isnumeric c || (c =? 95)%N.

(** ** The string methods the program calls *)

Definition str_eqb (a b : str) : bool := bool_decide (a = b).

(** [s.lstrip()], [s.rstrip()] and [s.strip()] with no argument. *)
Fixpoint lstrip (s : str) : str :=
  match s with
  | x :: s' => if isspace x then lstrip s' else s
  | [] => []
  end.
Definition rstrip (s : str) : str := rev (lstrip (rev s)).
Definition strip (s : str) : str := rstrip (lstrip s).

Fixpoint is_prefix (p s : str) : bool :=
  match p, s with
  | [], _ => true
  | x :: p', y :: s' => (x =? y)%N && is_prefix p' s'
  | _ :: _, [] => false
  end.

(** [s.split(sep)] for a non-empty separator: the pieces between the
    occurrences of [sep] found from left to right, none overlapping.  [skip]
    counts the characters of a separator still to pass over, [cur] is the
    piece being read, reversed. *)
Fixpoint split_go (sep s : str) (skip : nat) (cur : str) : list str :=
  match s with
  | [] => [rev cur]
  | x :: s' =>
      match skip with
      | S k => split_go sep s' k cur
      | O => if is_prefix sep s
             then rev cur :: split_go sep s' (length sep - 1) []
             else split_go sep s' 0 (x :: cur)
      end
  end.
Definition str_split (sep s : str) : list str := split_go sep s 0 [].

(** [sep.join(pieces)]. *)
Fixpoint str_join (sep : str) (pieces : list str) : str :=
  match pieces with
  | [] => []
  | [p] => p
  | p :: ps => p ++ sep ++ str_join sep ps
  end.

(** [s.count(sub)] for a non-empty [sub]: occurrences from left to right,
    none overlapping. *)
Fixpoint count_go (sub s : str) (skip : nat) : nat :=
  match s with
  | [] => 0
  | _ :: s' =>
      match skip with
      | S k => count_go sub s' k
      | O => if is_prefix sub s then S (count_go sub s' (length sub - 1))
             else count_go sub s' 0
      end
  end.
Definition str_count (sub s : str) : nat := count_go sub s 0.

(** [s[a:b]] for [0 <= a], [0 <= b]. *)
Definition slice (s : str) (a b : nat) : str := firstn (b - a) (skipn a s).

(** ** Regular expressions *)

(** What stands inside a bracket class, and the escapes that are classes. *)
Inductive citem :=
| CChar (c : N)
| CRange (lo hi : N)
| CSpace
| CDigit
| CWord.

Definition citem_match (i : citem) (c : N) : bool :=
  match i with
  | CChar x => (c =? x)%N
  | CRange lo hi => in_range lo hi c
  | CSpace => isspace c
  | CDigit => isdecimal c
  | CWord => isword c
  end.

Definition class_match (neg : bool) (items : list citem) (c : N) : bool :=
  xorb neg (existsb (fun i => citem_match i c) items).

Inductive regex :=
| Eps
| Lit (c : N)
| Dot
| Class (neg : bool) (items : list citem)
| Seq (r1 r2 : regex)
| Alt (r1 r2 : regex)
| Star (greedy : bool) (r : regex)
| Group (i : nat) (r : regex)
| Bol
| Eol
| Ahead (r : regex)
| Behind (neg : bool) (items : list citem).

(** [r+], [r?] and their lazy forms; a literal string. *)
Definition Plus (greedy : bool) (r : regex) : regex := Seq r (Star greedy r).
Definition Opt (greedy : bool) (r : regex) : regex :=
  if greedy then Alt r Eps else Alt Eps r.
Fixpoint Lits (s : str) : regex :=
  match s with
  | [] => Eps
  | [c] => Lit c
  | c :: s' => Seq (Lit c) (Lits s')
  end.

(** The subject string at a position: what was read, last character first,
    and what is left. *)
Record subject := Subject { before : str; rest : str }.

Definition pos (s : subject) : nat := length (before s).
Definition whole (s : subject) : str := rev (before s) ++ rest s.

(** The spans of the groups matched so far. *)
Abbreviation caps := (gmap nat (nat * nat)) (only parsing).
Abbreviation result := (option (subject * gmap nat (nat * nat))) (only parsing).
Abbreviation cont :=
  (subject -> gmap nat (nat * nat) -> option (subject * gmap nat (nat * nat)))
  (only parsing).

Definition accept : cont := fun s c => Some (s, c).

Definition step_char (p : N -> bool) (s : subject) (c : caps) (k : cont) : result :=
  match rest s with
  | x :: xs => if p x then k (Subject (x :: before s) xs) c else None
  | [] => None
  end.

(** [$] outside MULTILINE: at the end, or before a newline that ends the
    string. *)
Definition at_eol (s : subject) : bool :=
  match rest s with
  | [] => true
  | [c] => (c =? 10)%N
  | _ => false
  end.

(** A repetition: every round must consume a character, so the rounds are at
    most the characters left, which is what [fuel] starts from. *)
Fixpoint star_loop (m : subject -> caps -> cont -> result) (greedy : bool)
    (fuel : nat) (s : subject) (c : caps) (k : cont) : result :=
  match fuel with
  | O => k s c
  | S fuel' =>
      let again := fun s' c' =>
        if length (rest s') <? length (rest s)
        then star_loop m greedy fuel' s' c' k else None in
      if greedy then
        match m s c again with
        | Some r => Some r
        | None => k s c
        end
      else
        match k s c with
        | Some r => Some r
        | None => m s c again
        end
  end.

(** The backtracking matcher, in continuation-passing style: [rmatch r s c k]
    is the first way, in Python's order of preference, to match [r] at [s]
    such that [k] accepts what follows. *)
Fixpoint rmatch (r : regex) (s : subject) (c : caps) (k : cont) : result :=
  match r with
  | Eps => k s c
  | Lit x => step_char (N.eqb x) s c k
  | Dot => step_char (fun y => negb (y =? 10)%N) s c k
  | Class neg items => step_char (class_match neg items) s c k
  | Seq r1 r2 => rmatch r1 s c (fun s' c' => rmatch r2 s' c' k)
  | Alt r1 r2 =>
      match rmatch r1 s c k with
      | Some x => Some x
      | None => rmatch r2 s c k
      end
  | Star greedy r1 => star_loop (rmatch r1) greedy (length (rest s)) s c k
  | Group i r1 => rmatch r1 s c (fun s' c' => k s' (<[i := (pos s, pos s')]> c'))
  | Bol => match before s with [] => k s c | _ :: _ => None end
  | Eol => if at_eol s then k s c else None
  | Ahead r1 =>
      match rmatch r1 s c accept with
      | Some (_, c') => k s c'
      | None => None
      end
  | Behind neg items =>
      match before s with
      | x :: _ => if class_match neg items x then k s c else None
      | [] => None
      end
  end.

(** A match object: where the match starts, where it ends, the groups. *)
Record match_obj := Match { m_text : str; m_start : nat; m_end : nat; m_caps : gmap nat (nat * nat) }.

(** [m.group(i)] of a group that took part in the match, [None] otherwise. *)
Definition group (m : match_obj) (i : nat) : option str :=
  match m_caps m !! i with
  | Some (a, b) => Some (slice (m_text m) a b)
  | None => None
  end.
(** [m.group(0)]. *)
Definition group0 (m : match_obj) : str := slice (m_text m) (m_start m) (m_end m).

Definition match_at (r : regex) (s : subject) : option match_obj :=
  match rmatch r s ∅ accept with
  | Some (e, c) => Some (Match (whole s) (pos s) (pos e) c)
  | None => None
  end.

(** [re.match(r, text)]. *)
Definition re_match (r : regex) (text : str) : option match_obj :=
  match_at r (Subject [] text).

(** The leftmost match at or after a position. *)
Fixpoint search_go (r : regex) (bef rst : str) : option match_obj :=
  match match_at r (Subject bef rst) with
  | Some m => Some m
  | None =>
      match rst with
      | [] => None
      | x :: xs => search_go r (x :: bef) xs
      end
  end.

(** [re.search(r, text)]. *)
Definition re_search (r : regex) (text : str) : option match_obj :=
  search_go r [] text.

(** The successive matches of [re.finditer]: after a match the search goes
    on from its end, one character further when the match was empty.  None
    of the program's patterns matches the empty string. *)
Fixpoint finditer_go (r : regex) (fuel : nat) (bef rst : str) : list match_obj :=
  match fuel with
  | O => []
  | S fuel' =>
      match search_go r bef rst with
      | None => []
      | Some m =>
          let consumed := m_end m - length bef in
          let bef' := rev (firstn consumed rst) ++ bef in
          let rst' := skipn consumed rst in
          m :: (if m_start m <? m_end m then finditer_go r fuel' bef' rst'
                else match rst' with
                     | [] => []
                     | x :: xs => finditer_go r fuel' (x :: bef') xs
                     end)
      end
  end.
Definition finditer (r : regex) (text : str) : list match_obj :=
  finditer_go r (S (length text)) [] text.

(** [re.findall(r, text)] for a pattern without groups. *)
Definition findall (r : regex) (text : str) : list str :=
  List.map group0 (finditer r text).

(** The pieces of the text between successive matches. *)
Fixpoint between (text : str) (cur : nat) (ms : list match_obj) : list str :=
  match ms with
  | [] => [skipn cur text]
  | m :: ms' => slice text cur (m_start m) :: between text (m_end m) ms'
  end.

(** [re.split(r, text)] for a pattern without groups. *)
Definition re_split (r : regex) (text : str) : list str :=
  between text 0 (finditer r text).

(** [re.sub(r, repl, text)] for a replacement without back-references. *)
Definition re_sub (r : regex) (repl text : str) : str :=
  str_join repl (between text 0 (finditer r text)).


(** ** The fragment model *)

(** One entry of [self.paragraphs]: the dictionary of a fragment.  EPUB
    fragments carry [original_html], subtitle fragments carry [timestamp]. *)
Record para := Para {
  para_id : str;
  original_text : str;
  translated_text : str;
  is_translated : bool;
  item_href : str;
  element_type : str;
  original_html : option str;
  timestamp : option str
}.

(** [p['translated_text'] = t; p['is_translated'] = b]. *)
Definition set_translation (t : str) (b : bool) (p : para) : para :=
  Para (para_id p) (original_text p) t b (item_href p) (element_type p)
       (original_html p) (timestamp p).

(** Truth value of a string in a condition. *)
Definition truthy (s : str) : bool :=
  match s with [] => false | _ :: _ => true end.

(** ** translation_worker.py: TranslationWorker *)

(** The pattern of [split_prefix_suffix]: start of text; group 1, the
    enumeration: spaces, digits, a dot or a closing parenthesis, spaces;
    group 2, lazy, any characters but newlines; group 3, at most one of
    [.?!]; group 4, spaces; end of text. *)
Definition enumeration_pattern : regex :=
  Seq (Star true (Class false [CSpace]))
 (Seq (Plus true (Class false [CDigit]))
 (Seq (Class false [CChar (ch "."); CChar (ch ")")])
      (Star true (Class false [CSpace])))).

Definition split_pattern : regex :=
  Seq Bol
 (Seq (Group 1 enumeration_pattern)
 (Seq (Group 2 (Star false Dot))
 (Seq (Group 3 (Opt true (Class false [CChar (ch "."); CChar (ch "?"); CChar (ch "!")])))
 (Seq (Group 4 (Star true (Class false [CSpace])))
      Eol)))).

(** [m.groups()] of a match of [split_pattern]; the four groups take part in
    every match (lemma [split_groups_take_part]). *)
Definition groups4 (m : match_obj) : str * str * str * str :=
  (default [] (group m 1), default [] (group m 2),
   default [] (group m 3), default [] (group m 4)).

Definition split_prefix_suffix (text : str) : str * str * str :=
  match re_match split_pattern text with
  | Some m =>
      let '(prefix, core, punct, trail) := groups4 m in
      (prefix, core, punct ++ trail)
  | None => ([], text, [])
  end.

(** What a call can end in: a value, or an exception with its message. *)
Inductive outcome :=
| Returned (text : str)
| Raised (msg : str).

(** The three calls to a backend, with the prompts they send. *)
Inductive request :=
| call_ollama_api (prompt : str)
| call_openrouter_api (system_prompt user_prompt : str)
| call_lm_studio_api (system_prompt user_prompt : str).

(** The backends are outside the program: a call is answered by the world
    [W], which the answer may change.  [str.format] on a template of the
    user's is Python's: it returns the filled template or raises. *)
Context {W : Type}.
Context (backend : request -> W -> outcome * W).
Context (str_format : str -> list (str * str) -> outcome).

Inductive llm := Ollama | Openrouter | LM_Studio.

(** The fields of a worker that [run] reads.  The temperature, the model
    name and the API key only travel to the backend. *)
Record TranslationWorker := {
  llm_instruction : str;
  context_size : nat;
  llm_choice : llm;
  custom_ollama_prompt : option str;
  custom_system_prompt : option str;
  custom_user_prompt : option str
}.

Definition given (o : option str) : option str :=
  match o with
  | Some (c :: s) => Some (c :: s)
  | _ => None
  end.

(** The text of the [context_size] fragments before [idx]. *)
Definition context_paragraphs (all_paragraphs : list para) (idx size : nat) : list str :=
  List.map (fun para => if is_translated para then translated_text para
                        else original_text para)
           (firstn (idx - (idx - size)) (skipn (idx - size) all_paragraphs)).

Definition context_header : str :=
  py "Context (ONLY for understanding, DO NOT translate):" ++ nl.

(** The system and user prompts of the two chat backends. *)
Definition chat_prompts (w : TranslationWorker) (context core_text : str)
  : (str * str) + str :=
  match given (custom_system_prompt w), given (custom_user_prompt w) with
  | Some sys, Some usr =>
      match str_format sys [(py "context", context)] with
      | Raised msg => inr msg
      | Returned system_prompt =>
          match str_format usr [(py "core_text", core_text)] with
          | Raised msg => inr msg
          | Returned user_prompt => inl (system_prompt, user_prompt)
          end
      end
  | _, _ =>
      inl (strip (llm_instruction w) ++ nl ++ nl ++ context_header
             ++ context ++ nl ++ py "---",
           py "Translate ONLY this:" ++ nl ++ core_text)
  end.

(** The request [run] builds for one fragment, or the message of the
    exception raised while building it.  The last literal of the default
    Ollama prompt is not an f-string: it ends in the text [{core_text}]. *)
Definition build_request (w : TranslationWorker) (context core_text : str)
  : request + str :=
  match llm_choice w with
  | Ollama =>
      match given (custom_ollama_prompt w) with
      | Some tpl =>
          match str_format tpl [(py "context", context); (py "core_text", core_text)] with
          | Raised msg => inr msg
          | Returned full_prompt => inl (call_ollama_api full_prompt)
          end
      | None =>
          inl (call_ollama_api
                 (strip (llm_instruction w) ++ nl ++ nl ++ context_header
                    ++ context ++ nl ++ py "---" ++ nl
                    ++ py "Translate ONLY this (do not write anything else):" ++ nl
                    ++ py "{core_text}"))
      end
  | Openrouter =>
      match chat_prompts w context core_text with
      | inl (s, u) => inl (call_openrouter_api s u)
      | inr msg => inr msg
      end
  | LM_Studio =>
      match chat_prompts w context core_text with
      | inl (s, u) => inl (call_lm_studio_api s u)
      | inr msg => inr msg
      end
  end.

(** [progress.emit(idx, text, is_error)]. *)
Record progress := Progress { p_idx : nat; p_text : str; p_is_error : bool }.

(** What the body of the [try] yields: the translated core, or the message
    of the exception that left it. *)
Definition translate_core (w : TranslationWorker) (all_paragraphs : list para)
    (idx : nat) (core_text : str) (world : W) : outcome * W :=
  let context := str_join nl (context_paragraphs all_paragraphs idx (context_size w)) in
  match build_request w context core_text with
  | inr msg => (Raised msg, world)
  | inl req =>
      match backend req world with
      | (Returned translated_core, world') =>
          if truthy translated_core then (Returned translated_core, world')
          else (Raised (py "Empty translation received"), world')
      | (Raised msg, world') => (Raised msg, world')
      end
  end.

(** One round of the loop of [run].  An index outside the list raises an
    IndexError in the handler too, which ends the thread: [None]. *)
Definition run_one (w : TranslationWorker) (all_paragraphs : list para) (world : W)
    (idx : nat) (original_text : str) : option (list para * W * progress) :=
  match all_paragraphs !! idx with
  | None => None
  | Some p =>
      let '(prefix, core_text, suffix) := split_prefix_suffix original_text in
      match translate_core w all_paragraphs idx core_text world with
      | (Returned translated_core, world') =>
          let full_translation := prefix ++ translated_core ++ suffix in
          Some (<[idx := set_translation full_translation true p]> all_paragraphs,
                world', Progress idx full_translation false)
      | (Raised e, world') =>
          let error_msg := py "ERROR: " ++ e in
          Some (<[idx := set_translation error_msg false p]> all_paragraphs,
                world', Progress idx error_msg true)
      end
  end.

(** [run]: the fragments one after the other, each seeing what the ones
    before it stored; the progress signals in the order they are emitted. *)
Fixpoint run (w : TranslationWorker) (paragraphs_to_translate : list (nat * str))
    (all_paragraphs : list para) (world : W)
  : option (list para * W * list progress) :=
  match paragraphs_to_translate with
  | [] => Some (all_paragraphs, world, [])
  | (idx, original_text) :: more =>
      match run_one w all_paragraphs world idx original_text with
      | None => None
      | Some (all_paragraphs', world', ev) =>
          match run w more all_paragraphs' world' with
          | None => None
          | Some (ps, wd, evs) => Some (ps, wd, ev :: evs)
          end
      end
  end.

(** ** main.py: the mismatch detector *)

Definition not_space : regex := Class true [CSpace].
Definition spaces : regex := Star true (Class false [CSpace]).

(** [count_paragraphs]. *)
Definition count_paragraphs (text : str) : nat :=
  let parts := List.filter (fun p => truthy (strip p)) (str_split (nl ++ nl) text) in
  if 1 <? length parts then length parts
  else length (List.filter (fun p => truthy (strip p)) (str_split nl text)).

(** [first_char_type]: the class of the first character that is no space.
    The match consumed a character, so its start is an index of the text. *)
Definition first_char_type (text : str) : str :=
  match re_search not_space text with
  | None => py "none"
  | Some m =>
      match text !! m_start m with
      | Some c => if isdigit c then py "digit"
                  else if isalpha c then py "alpha" else py "other"
      | None => py "none"
      end
  end.

(** [last_char_type]: the pattern is a character that is no space, followed
    by spaces up to the end of the text. *)
Definition last_char_pattern : regex := Seq not_space (Ahead (Seq spaces Eol)).

Definition elem_of_str (c : N) (s : str) : bool := existsb (N.eqb c) s.

Definition last_char_type (text : str) : str :=
  match re_search last_char_pattern text with
  | None => py "none"
  | Some m =>
      match text !! m_start m with
      | Some c =>
          if elem_of_str c (py ".!?") then py "sentence_end"
          else if elem_of_str c (py ",;:") then py "punctuation"
          else if isdigit c then py "digit"
          else if isalpha c then py "alpha"
          else py "other"
      | None => py "none"
      end
  end.

Definition lazy_any : regex := Star false Dot.
Definition enclosed (opening closing : str) : regex :=
  Seq (Lits opening) (Seq lazy_any (Lits closing)).

(** [extract_placeholders]: a brace pair with the shortest content, or one
    of the two printf markers. *)
Definition placeholder_pattern : regex :=
  Alt (enclosed (py "{") (py "}")) (Alt (Lits (py "%s")) (Lits (py "%d"))).
Definition extract_placeholders (text : str) : gset (list N) :=
  list_to_set (findall placeholder_pattern text).

(** [extract_numbers]. *)
Definition number_pattern : regex := Plus true (Class false [CDigit]).
Definition extract_numbers (text : str) : gset (list N) :=
  list_to_set (findall number_pattern text).

(** [extract_formatting]: bold, italic, code, underline. *)
Definition extract_formatting (text : str) : gset (list N) :=
  list_to_set (findall (enclosed (py "**") (py "**")) text)
  ∪ list_to_set (findall (enclosed (py "*") (py "*")) text)
  ∪ list_to_set (findall (enclosed (py "`") (py "`")) text)
  ∪ list_to_set (findall (enclosed (py "_") (py "_")) text).

(** [extract_urls]: the scheme, then one or more of: a letter, a digit, one
    of the listed signs (the first class holds the range from the dollar to
    the underscore), or a percent sign and two hexadecimal digits. *)
Definition hex_digit : regex :=
  Class false [CRange (ch "0") (ch "9"); CRange (ch "a") (ch "f"); CRange (ch "A") (ch "F")].
Definition url_pattern : regex :=
  Seq (Lits (py "http"))
 (Seq (Opt true (Class false [CChar (ch "s")]))
 (Seq (Lits (py "://"))
      (Plus true
         (Alt (Class false [CRange (ch "a") (ch "z"); CRange (ch "A") (ch "Z")])
         (Alt (Class false [CRange (ch "0") (ch "9")])
         (Alt (Class false [CRange (ch "$") (ch "_"); CChar (ch "@"); CChar (ch ".");
                            CChar (ch "&"); CChar (ch "+")])
         (Alt (Class false [CChar (ch "!"); CChar (ch "*"); CChar (ch "\"); CChar (ch "(");
                            CChar (ch "\"); CChar (ch ")"); CChar (ch ",")])
              (Seq (Lit (ch "%")) (Seq hex_digit hex_digit))))))))).
Definition markdown_link_pattern : regex :=
  Seq (Lit (ch "[")) (Seq lazy_any (Seq (Lits (py "](")) (Seq lazy_any (Lit (ch ")"))))).
Definition extract_urls (text : str) : gset (list N) :=
  let markdown_links := findall markdown_link_pattern text in
  let urls := findall url_pattern text in
  list_to_set (urls ++ markdown_links).

(** [count_brackets_quotes] of the detector: apostrophes between two word
    characters are dropped before counting. *)
Definition inner_apostrophe : regex :=
  Seq (Behind false [CWord]) (Seq (Lit (ch "'")) (Ahead (Class false [CWord]))).

Record bracket_counts := Counts {
  quotes : nat;
  parentheses : nat;
  square_brackets : nat;
  curly_brackets : nat
}.

#[local] Instance bracket_counts_eq_dec : EqDecision bracket_counts.
Proof. solve_decision. Defined.

Definition count_brackets_quotes (text : str) : bracket_counts :=
  let filtered := re_sub inner_apostrophe [] text in
  {| quotes := str_count [dquote] filtered + str_count (py "'") filtered;
     parentheses := str_count (py "(") filtered + str_count (py ")") filtered;
     square_brackets := str_count (py "[") filtered + str_count (py "]") filtered;
     curly_brackets := str_count (py "{") filtered + str_count (py "}") filtered |}.

(** [count_sentence_starts]: the sentences are what stands between runs of
    terminators followed by spaces. *)
Definition sentence_break : regex :=
  Seq (Plus true (Class false [CChar (ch "."); CChar (ch "!"); CChar (ch "?")]))
      (Plus true (Class false [CSpace])).
Definition starts_upper (sentence : str) : bool :=
  match strip sentence with
  | c :: _ => isupper c
  | [] => false
  end.
Definition count_sentence_starts (text : str) : nat :=
  length (List.filter starts_upper (re_split sentence_break text)).

(** [extract_special_chars].  The two bracket classes are the ones the
    file holds, code point by code point. *)
Definition special_pattern : regex :=
  Alt (Class false
         [CChar 0xf8ff; CChar 0xfc; CChar 0xf2; CRange 0xc4 0xf8ff; CChar 0xfc;
          CChar 0xf4; CChar 0xe8; CChar 0xf8ff; CChar 0xfc; CChar 0xe5;
          CRange 0xc4 0xf8ff; CChar 0xfc; CChar 0xf3; CChar 0xf8; CChar 0xf8ff;
          CChar 0xfc; CChar 0xed; CRange 0xc4 0xf8ff; CChar 0xfc; CChar 0xfc;
          CChar 0xf8])
 (Alt (Lits (py ":)"))
 (Alt (Lits (py ":("))
 (Alt (Lits (py ":D"))
 (Alt (Seq (Lit (ch ";")) (Seq (Opt true (Lit (ch "-"))) (Lit (ch ")"))))
 (Alt (Seq (Lit (ch ":")) (Seq (Opt true (Lit (ch "-"))) (Lit (ch "("))))
      (Seq (Lit (ch ":")) (Seq (Opt true (Lit (ch "-"))) (Lit (ch "D"))))))))).
Definition other_symbols_pattern : regex :=
  Class false (List.map CChar
    [0xac; 0xa9; 0xac; 0xc6; 0x201a; 0xd1; 0xa2; 0xac; 0xdf; 0xac; 0x2202;
     0x201a; 0xc4; 0x2020; 0x201a; 0xc4; 0xb0; 0x201a; 0xc4; 0xa2; 0x201a;
     0xc4; 0xb6; 0x201a; 0xc4; 0x221e; 0x201a; 0xc4; 0x2264; 0x201a; 0xc4;
     0x2265; 0x201a; 0xc4; 0x3c0; 0x201a; 0xc4; 0x222b; 0xac; 0xb4; 0xac;
     0xaa; 0xac; 0xb0; 0xac; 0xf8]%N).
Definition extract_special_chars (text : str) : gset (list N) :=
  let symbols : gset (list N) := list_to_set (findall special_pattern text) in
  let other_symbols : gset (list N) := list_to_set (findall other_symbols_pattern text) in
  symbols ∪ other_symbols.

(** [has_list_structure]: some marker pattern opens two lines or more. *)
Definition letter_class : list citem := [CRange (ch "a") (ch "z"); CRange (ch "A") (ch "Z")].
Definition list_patterns : list regex :=
  [ Seq Bol (Seq spaces (Seq number_pattern (Lit (ch "."))));
    Seq Bol (Seq spaces (Seq (Class false letter_class) (Lit (ch "."))));
    Seq Bol (Seq spaces (Class false [CChar (ch "-"); CChar (ch "*"); CChar 0x201a;
                                      CChar 0xc4; CChar 0xa2]));
    Seq Bol (Seq spaces (Seq (Lit (ch "("))
      (Seq (Plus true (Class false (letter_class ++ [CRange (ch "0") (ch "9")])))
           (Lit (ch ")"))))) ].
Definition has_list_structure (text : str) : bool :=
  let lines := str_split nl text in
  existsb (fun pattern =>
             2 <=? length (List.filter (fun line => bool_decide (is_Some (re_match pattern line))) lines))
          list_patterns.

(** The distance of two counts and the length test, which compares with
    half of the longer length: twice the distance against that length. *)
Definition distance (a b : nat) : nat := (a - b) + (b - a).
Definition length_mismatch (orig trans : str) : bool :=
  truthy orig && truthy trans
  && (Nat.max (length orig) (length trans) <? 2 * distance (length orig) (length trans)).

Definition sets_differ (a b : gset (list N)) : bool := negb (bool_decide (a = b)).

(** The twelve checks of [_has_mismatch], in the order of its final list. *)
Definition mismatch_checks (orig trans : str) : list bool :=
  [ negb (count_paragraphs orig =? count_paragraphs trans);
    negb (str_eqb (first_char_type orig) (first_char_type trans));
    negb (str_eqb (last_char_type orig) (last_char_type trans));
    sets_differ (extract_placeholders orig) (extract_placeholders trans);
    length_mismatch orig trans;
    sets_differ (extract_numbers orig) (extract_numbers trans);
    sets_differ (extract_formatting orig) (extract_formatting trans);
    sets_differ (extract_urls orig) (extract_urls trans);
    negb (bool_decide (count_brackets_quotes orig = count_brackets_quotes trans));
    1 <? distance (count_sentence_starts orig) (count_sentence_starts trans);
    sets_differ (extract_special_chars orig) (extract_special_chars trans);
    negb (Bool.eqb (has_list_structure orig) (has_list_structure trans)) ].

(** The body of [_has_mismatch] after the look-up of the fragment. *)
Definition para_has_mismatch (para : para) : bool :=
  if negb (is_translated para) then false
  else existsb (fun b => b) (mismatch_checks (original_text para) (translated_text para)).

(** [_has_mismatch(idx)]; [None] is the IndexError of an index outside the
    list. *)
Definition _has_mismatch (paragraphs : list para) (idx : nat) : option bool :=
  para_has_mismatch <$> paragraphs !! idx.

(** ** main.py: the reasons shown by update_item_visuals *)

(** The helpers of [update_item_visuals] repeat those of the detector, but
    for [count_brackets_quotes]: this one counts in the text as it is, and
    counts the double quote three times. *)
Definition count_brackets_quotes_shown (text : str) : bracket_counts :=
  {| quotes := str_count [dquote] text + str_count (py "'") text
               + str_count [dquote] text + str_count [dquote] text;
     parentheses := str_count (py "(") text + str_count (py ")") text;
     square_brackets := str_count (py "[") text + str_count (py "]") text;
     curly_brackets := str_count (py "{") text + str_count (py "}") text |}.

Definition reason_texts : list str :=
  [ py "Mismatched number of paragraphs";
    py "Different first character type";
    py "Different last character type";
    py "Mismatched placeholders";
    py "Significant length difference";
    py "Mismatched numbers";
    py "Mismatched formatting (bold/italic/code)";
    py "Mismatched URLs or links";
    py "Mismatched brackets or quotes";
    py "Different sentence capitalization pattern";
    py "Mismatched special characters or emojis";
    py "Mismatched list structure" ].

(** The checks as [update_item_visuals] runs them for the tooltip. *)
Definition shown_checks (orig trans : str) : list bool :=
  [ negb (count_paragraphs orig =? count_paragraphs trans);
    negb (str_eqb (first_char_type orig) (first_char_type trans));
    negb (str_eqb (last_char_type orig) (last_char_type trans));
    sets_differ (extract_placeholders orig) (extract_placeholders trans);
    length_mismatch orig trans;
    sets_differ (extract_numbers orig) (extract_numbers trans);
    sets_differ (extract_formatting orig) (extract_formatting trans);
    sets_differ (extract_urls orig) (extract_urls trans);
    negb (bool_decide (count_brackets_quotes_shown orig = count_brackets_quotes_shown trans));
    1 <? distance (count_sentence_starts orig) (count_sentence_starts trans);
    sets_differ (extract_special_chars orig) (extract_special_chars trans);
    negb (Bool.eqb (has_list_structure orig) (has_list_structure trans)) ].

(** [parts]: the reasons of the tooltip, computed when the detector flags
    the fragment; no tooltip otherwise. *)
Definition tooltip_parts (para : para) : list str :=
  let orig := original_text para in
  let trans := if is_translated para then translated_text para else [] in
  if para_has_mismatch para then
    List.map snd (List.filter fst (combine (shown_checks orig trans) reason_texts))
  else [].

(** ** main.py: load_srt *)

(** The fragments of a subtitle file whose text is [content].  A block has
    at least three lines exactly when its list of lines starts with three. *)
Definition load_srt (path content : str) : list para :=
  let blocks := List.map strip
                  (List.filter (fun block => truthy (strip block))
                               (str_split (nl ++ nl) content)) in
  flat_map (fun block =>
    match str_split nl block with
    | line0 :: line1 :: line2 :: more =>
        let number := strip line0 in
        let stamp := strip line1 in
        let text := strip (str_join nl (line2 :: more)) in
        [ {| para_id := number; original_text := text; translated_text := [];
             is_translated := false; item_href := path;
             element_type := py "subtitle"; original_html := None;
             timestamp := Some stamp |} ]
    | _ => []
    end) blocks.

(** ** The markup tree of BeautifulSoup *)

(** The classes of strings in a tree: plain text and CDATA are text of the
    document, comments and the other subclasses of NavigableString are not. *)
Inductive strkind := PlainText | CData | Comment | OtherString.

#[warnings="-register-all"]
Inductive node :=
| NavigableString (kind : strkind) (s : str)
| Tag (name : str) (attrs : list (str * str)) (contents : list node).

(** [n.descendants]: the nodes below [n] in document order. *)
Fixpoint descendants (n : node) : list node :=
  match n with
  | NavigableString _ _ => []
  | Tag _ _ contents => flat_map (fun c => c :: descendants c) contents
  end.

Definition is_tag_named (tag_name : str) (n : node) : bool :=
  match n with
  | Tag name _ _ => str_eqb name tag_name
  | NavigableString _ _ => false
  end.

(** [soup.find_all(tag_name)]. *)
Definition find_all (tag_name : str) (soup : node) : list node :=
  List.filter (is_tag_named tag_name) (descendants soup).

(** The strings [get_text] reads, stripped, the empty ones left out. *)
Definition text_piece (n : node) : list str :=
  match n with
  | NavigableString (PlainText | CData) s =>
      if truthy (strip s) then [strip s] else []
  | _ => []
  end.

(** [elem.get_text(separator=' ', strip=True)]. *)
Definition get_text (elem : node) : str :=
  str_join (py " ") (flat_map text_piece (descendants elem)).

Fixpoint attr_get (key : str) (attrs : list (str * str)) : option str :=
  match attrs with
  | [] => None
  | (k, v) :: more => if str_eqb k key then Some v else attr_get key more
  end.

(** ** main.py: load_epub *)

Definition TAGS_TO_EXTRACT : list str :=
  [ py "h1"; py "h2"; py "h3"; py "h4"; py "h5"; py "h6";
    py "p"; py "li"; py "td"; py "th"; py "blockquote"; py "pre" ].

(** The parser, the serializer and the generator of identifiers belong to
    libraries: [BeautifulSoup] parses a document into its root, [to_html] is
    [str] of a node, [uuid4] numbers the identifiers drawn so far. *)
Context (BeautifulSoup : str -> node).
Context (to_html : node -> str).
Context (uuid4 : nat -> str).

(** What the loops of [load_epub] carry: the fragments, the set [seen], the
    number of identifiers drawn. *)
Record extraction := Extraction {
  x_paragraphs : list para;
  x_seen : gset (list N * list N);
  x_drawn : nat
}.

(** The body of the inner loop for the element [Tag name attrs contents] of
    the item [href]: the attributes it leaves on the element, and the state. *)
Definition visit (href tag_name : str) (attrs : list (str * str)) (contents : list node)
    (st : extraction) : list (str * str) * extraction :=
  let clean_text := get_text (Tag tag_name attrs contents) in
  if negb (truthy clean_text) then (attrs, st)
  else if bool_decide ((href, clean_text) ∈ x_seen st) then (attrs, st)
  else
    let '(attrs', drawn) :=
      match attr_get (py "id") attrs with
      | Some _ => (attrs, x_drawn st)
      | None => (attrs ++ [(py "id", py "trans_" ++ uuid4 (x_drawn st))], S (x_drawn st))
      end in
    let original_html := to_html (Tag tag_name attrs' contents) in
    (attrs',
     {| x_paragraphs := x_paragraphs st ++
          [ {| para_id := default [] (attr_get (py "id") attrs');
               original_text := clean_text; translated_text := [];
               is_translated := false; item_href := href;
               element_type := tag_name; original_html := Some original_html;
               timestamp := None |} ];
        x_seen := {[ (href, clean_text) ]} ∪ x_seen st;
        x_drawn := drawn |}).

(** The loop over [soup.find_all(tag_name)].  The elements are visited in
    document order and an element is changed only when it is visited, so the
    loop is a walk of the tree that visits an element before its contents:
    the element it sees carries the identifiers of the walks before, and
    its own. *)
Fixpoint extract_node (href tag_name : str) (n : node) (st : extraction)
  : node * extraction :=
  match n with
  | NavigableString _ _ => (n, st)
  | Tag name attrs contents =>
      let '(attrs', st1) :=
        if str_eqb name tag_name then visit href tag_name attrs contents st
        else (attrs, st) in
      let '(contents', st2) :=
        (fix extract_list (l : list node) (st : extraction) : list node * extraction :=
           match l with
           | [] => ([], st)
           | c :: l' =>
               let '(c', sa) := extract_node href tag_name c st in
               let '(l'', sb) := extract_list l' sa in
               (c' :: l'', sb)
           end) contents st1 in
      (Tag name attrs' contents', st2)
  end.

Definition extract_list (href tag_name : str) : list node -> extraction -> list node * extraction :=
  fix extract_list (l : list node) (st : extraction) : list node * extraction :=
    match l with
    | [] => ([], st)
    | c :: l' =>
        let '(c', sa) := extract_node href tag_name c st in
        let '(l'', sb) := extract_list l' sa in
        (c' :: l'', sb)
    end.

(** The walk for one tag over the soup: its root is no element of the
    search. *)
Definition extract_tag (href : str) (soup_st : node * extraction) (tag_name : str)
  : node * extraction :=
  match fst soup_st with
  | NavigableString _ _ => soup_st
  | Tag name attrs contents =>
      let '(contents', st') := extract_list href tag_name contents (snd soup_st) in
      (Tag name attrs contents', st')
  end.

(** An item of the book: its name and its content. *)
Record item := Item { item_name : str; item_content : str }.

(** One round of the loop over the items: an empty item is passed over, the
    content of another is replaced by the tree with its identifiers. *)
Definition load_item (it : item) (st : extraction) : item * extraction :=
  if negb (truthy (item_content it)) then (it, st)
  else
    let soup := BeautifulSoup (item_content it) in
    let '(soup', st') := fold_left (extract_tag (item_name it)) TAGS_TO_EXTRACT (soup, st) in
    (Item (item_name it) (to_html soup'), st').

Fixpoint load_items (book : list item) (st : extraction) : list item * extraction :=
  match book with
  | [] => ([], st)
  | it :: more =>
      let '(it', st1) := load_item it st in
      let '(more', st2) := load_items more st1 in
      (it' :: more', st2)
  end.

(** [load_epub]: the book with its identifiers, and [self.paragraphs]. *)
Definition load_epub (book : list item) : list item * list para :=
  let '(book', st) := load_items book (Extraction [] ∅ 0) in
  (book', x_paragraphs st).

(** ** epub_creator.py: filling the template of a fragment *)

(** The tokens of a [class] attribute. *)
Definition class_tokens (value : str) : list str := findall (Plus true not_space) value.

Definition is_span_of_class (cls : str) (n : node) : bool :=
  match n with
  | Tag name attrs _ =>
      str_eqb name (py "span")
      && match attr_get (py "class") attrs with
         | Some value => existsb (str_eqb cls) (class_tokens value) || str_eqb value cls
         | None => false
         end
  | NavigableString _ _ => false
  end.

(** [elem.find('span', class_=cls)]. *)
Definition find_span (cls : str) (elem : node) : option node :=
  List.find (is_span_of_class cls) (descendants elem).

(** [span.string = new_text] on the first element below the root that [p]
    holds of: its contents become the one string. *)
Fixpoint set_string_first (p : node -> bool) (new_text : str) (n : node) (found : bool)
  : node * bool :=
  match n with
  | NavigableString _ _ => (n, found)
  | Tag name attrs contents =>
      if negb found && p n then (Tag name attrs [NavigableString PlainText new_text], true)
      else
        let '(contents', found') :=
          (fix go (l : list node) (found : bool) : list node * bool :=
             match l with
             | [] => ([], found)
             | c :: l' =>
                 let '(c', fa) := set_string_first p new_text c found in
                 let '(l'', fb) := go l' fa in
                 (c' :: l'', fb)
             end) contents found in
        (Tag name attrs contents', found')
  end.

Definition set_string_below (p : node -> bool) (new_text : str) (elem : node) : node :=
  match elem with
  | NavigableString _ _ => elem
  | Tag name attrs contents =>
      Tag name attrs
        (fst ((fix go (l : list node) (found : bool) : list node * bool :=
                 match l with
                 | [] => ([], found)
                 | c :: l' =>
                     let '(c', fa) := set_string_first p new_text c found in
                     let '(l'', fb) := go l' fa in
                     (c' :: l'', fb)
                 end) contents false))
  end.

(** A string of the tree that is more than spaces: a member of
    [text_nodes]. *)
Definition is_text_node (n : node) : bool :=
  match n with
  | NavigableString _ s => truthy (strip s)
  | Tag _ _ _ => false
  end.

Definition node_len (n : node) : nat :=
  match n with
  | NavigableString _ s => length s
  | Tag _ _ _ => 0
  end.

(** [max(text_nodes, key=len)] as an index: the scan keeps the first node
    that no later one exceeds. *)
Fixpoint max_scan (l : list node) (i best best_len : nat) : nat :=
  match l with
  | [] => best
  | n :: l' =>
      if best_len <? node_len n then max_scan l' (S i) i (node_len n)
      else max_scan l' (S i) best best_len
  end.
Definition index_of_max (l : list node) : nat :=
  match l with
  | [] => 0
  | n :: l' => max_scan l' 1 0 (node_len n)
  end.

(** [node.replace_with(f i)] on the [i]-th member of [text_nodes], for every
    [i] where [f] gives a string; [i] counts the members met so far. *)
Fixpoint replace_text_nodes (f : nat -> option str) (n : node) (i : nat) : node * nat :=
  match n with
  | NavigableString _ s =>
      if truthy (strip s)
      then (match f i with
            | Some s' => NavigableString PlainText s'
            | None => n
            end, S i)
      else (n, i)
  | Tag name attrs contents =>
      let '(contents', i') :=
        (fix go (l : list node) (i : nat) : list node * nat :=
           match l with
           | [] => ([], i)
           | c :: l' =>
               let '(c', ia) := replace_text_nodes f c i in
               let '(l'', ib) := go l' ia in
               (c' :: l'', ib)
           end) contents i in
      (Tag name attrs contents', i')
  end.

(** The leading number that a title repeats when its sibling shows it:
    spaces, digits, a dot, spaces, at the start of the text. *)
Definition numbering_pattern : regex :=
  Seq Bol (Seq spaces (Seq number_pattern (Seq (Lit (ch ".")) spaces))).

(** What [EPUBCreator.run] makes of the template [original_elem] of a
    translated fragment before it puts it in the place of the element. *)
Definition fill_template (original_elem : node) (translated_text : str) : node :=
  match find_span (py "calibre1") original_elem with
  | Some _ =>
      let new_text :=
        match find_span (py "item-number") original_elem with
        | Some _ => re_sub numbering_pattern [] translated_text
        | None => translated_text
        end in
      set_string_below (is_span_of_class (py "calibre1")) new_text original_elem
  | None =>
      let text_nodes := List.filter is_text_node (descendants original_elem) in
      match text_nodes with
      | [] => original_elem
      | [_] =>
          fst (replace_text_nodes
                 (fun i => if i =? 0 then Some translated_text else None) original_elem 0)
      | _ :: _ :: _ =>
          let main := index_of_max text_nodes in
          fst (replace_text_nodes
                 (fun i => Some (if i =? main then translated_text else [])) original_elem 0)
      end
  end.

(** ** main.py: the retranslation controller *)

(** What [show_message] is called with at the end of a run. *)
Inductive message :=
| Completed
| CompletedWithWarnings (remaining : nat).

(** The fields of the window the controller reads and writes.  [dispatched]
    lists the fragments handed to [retry_paragraph], [shown] the messages of
    [finalize_translation], both in order. *)
Record TranslatorApp := {
  paragraphs : list para;
  selected_for_auto_fix : gset nat;
  auto_fix_attempts : gmap nat nat;
  max_auto_fix_attempts : nat;
  auto_fix_checked : bool;
  settings : TranslationWorker;
  world : W;
  dispatched : list nat;
  shown : list message
}.

(** [on_translation_progress] and [on_retry_progress]: the two fields of
    the fragment, as the signal carries them. *)
Definition on_progress (ev : progress) (ps : list para) : list para :=
  match ps !! p_idx ev with
  | Some p => <[p_idx ev := set_translation (p_text ev) (negb (p_is_error ev)) p]> ps
  | None => ps
  end.

(** The fragments of the selection the detector flags; [None] when an index
    is outside the list. *)
Definition remaining_mismatch (ps : list para) (selected : gset nat) : option (list nat) :=
  foldr (fun idx acc =>
           match _has_mismatch ps idx, acc with
           | Some true, Some l => Some (idx :: l)
           | Some false, Some l => Some l
           | _, _ => None
           end) (Some []) (elements selected).

(** [finalize_translation]. *)
Definition finalize_translation (a : TranslatorApp) : option TranslatorApp :=
  match remaining_mismatch (paragraphs a) (selected_for_auto_fix a) with
  | None => None
  | Some remaining =>
      Some {| paragraphs := paragraphs a; selected_for_auto_fix := ∅;
              auto_fix_attempts := ∅;
              max_auto_fix_attempts := max_auto_fix_attempts a;
              auto_fix_checked := auto_fix_checked a; settings := settings a;
              world := world a; dispatched := dispatched a;
              shown := shown a ++ [match remaining with
                                   | [] => Completed
                                   | _ :: _ => CompletedWithWarnings (length remaining)
                                   end] |}
  end.

Definition attempts_of (attempts : gmap nat nat) (idx : nat) : nat :=
  default 0 (attempts !! idx).

(** One round of the first loop of [start_auto_fix_process]. *)
Definition auto_fix_pick (ps : list para) (max_attempts : nat)
    (acc : option (list nat * gset nat * gmap nat nat)) (idx : nat)
  : option (list nat * gset nat * gmap nat nat) :=
  match acc with
  | None => None
  | Some (to_retry, selected, attempts) =>
      match _has_mismatch ps idx with
      | None => None
      | Some true =>
          if attempts_of attempts idx <? max_attempts
          then Some (to_retry ++ [idx], selected, <[idx := attempts_of attempts idx + 1]> attempts)
          else Some (to_retry, selected ∖ {[idx]}, attempts)
      | Some false => Some (to_retry, selected ∖ {[idx]}, attempts)
      end
  end.

(** [retry_paragraph]: a worker of its own for the one fragment, whose
    progress signal [on_retry_progress] receives. *)
Definition retry_paragraph (a : TranslatorApp) (idx : nat) : option TranslatorApp :=
  match paragraphs a !! idx with
  | None => None
  | Some p =>
      match run (settings a) [(idx, original_text p)] (paragraphs a) (world a) with
      | None => None
      | Some (ps, wd, evs) =>
          Some {| paragraphs := fold_left (fun ps ev => on_progress ev ps) evs ps;
                  selected_for_auto_fix := selected_for_auto_fix a;
                  auto_fix_attempts := auto_fix_attempts a;
                  max_auto_fix_attempts := max_auto_fix_attempts a;
                  auto_fix_checked := auto_fix_checked a; settings := settings a;
                  world := wd; dispatched := dispatched a ++ [idx];
                  shown := shown a |}
      end
  end.

Definition retry_all (a : TranslatorApp) (to_retry : list nat) : option TranslatorApp :=
  fold_left (fun acc idx => match acc with
                            | Some a' => retry_paragraph a' idx
                            | None => None
                            end) to_retry (Some a).

(** The outcome of a run of the controller. *)
Inductive ended :=
| Finished (a : TranslatorApp)
| Crashed
| OutOfRounds.

Definition finalize (a : TranslatorApp) : ended :=
  match finalize_translation a with
  | Some a' => Finished a'
  | None => Crashed
  end.

(** [_check_auto_fix_complete] when no retry worker is running any more;
    [restart] is the call of [start_auto_fix_process]. *)
Definition _check_auto_fix_complete (restart : TranslatorApp -> ended)
    (a : TranslatorApp) : ended :=
  if auto_fix_checked a then
    match remaining_mismatch (paragraphs a) (selected_for_auto_fix a) with
    | None => Crashed
    | Some (_ :: _) => restart a
    | Some [] => finalize a
    end
  else finalize a.

(** The first loop of [start_auto_fix_process], over a copy of the
    selection: the fragments to retry, the selection and the counters it
    leaves.  Python does not fix the order in which a set is gone
    through; the order here is that of [elements], which need not be the
    interpreter's: with several fragments to retry, the retries may come
    in another order. *)
Definition pick_retries (a : TranslatorApp)
  : option (list nat * gset nat * gmap nat nat) :=
  fold_left (auto_fix_pick (paragraphs a) (max_auto_fix_attempts a))
            (elements (selected_for_auto_fix a))
            (Some ([], selected_for_auto_fix a, auto_fix_attempts a)).

Definition with_selection (selected : gset nat) (attempts : gmap nat nat)
    (a : TranslatorApp) : TranslatorApp :=
  {| paragraphs := paragraphs a; selected_for_auto_fix := selected;
     auto_fix_attempts := attempts;
     max_auto_fix_attempts := max_auto_fix_attempts a;
     auto_fix_checked := auto_fix_checked a; settings := settings a;
     world := world a; dispatched := dispatched a; shown := shown a |}.

(** [start_auto_fix_process], the retries it starts, and the check that the
    completion of the last of them runs, which may start the next round.
    The retry workers of a round are threads of their own; here they run
    one after the other, in the order of [to_retry], and the check runs
    once, after the last: the schedule in which no worker finishes while
    the completion of another is handled.  [rounds] bounds the calls of
    [start_auto_fix_process]. *)
Fixpoint start_auto_fix_process (rounds : nat) (a : TranslatorApp) : ended :=
  match rounds with
  | O => OutOfRounds
  | S rounds' =>
      match pick_retries a with
      | None => Crashed
      | Some (to_retry, selected, attempts) =>
          let a1 := with_selection selected attempts a in
          match to_retry with
          | [] => finalize a1
          | _ :: _ =>
              match retry_all a1 to_retry with
              | None => Crashed
              | Some a2 => _check_auto_fix_complete (start_auto_fix_process rounds') a2
              end
          end
      end
  end.

(** [on_translation_finished]. *)
Definition on_translation_finished (rounds : nat) (a : TranslatorApp) : ended :=
  if auto_fix_checked a then start_auto_fix_process rounds a
  else finalize a.

(** [start_translation] for the checked fragments [selected_items], with
    the limit of attempts read from its spin box, up to the end of the run:
    the worker translates the batch, [on_translation_progress] stores every
    result, [on_translation_finished] takes over.  An empty selection only
    shows a warning; the checks of the settings of a backend are passed. *)
Definition start_translation (rounds : nat) (selected_items : list nat)
    (max_attempts : nat) (a : TranslatorApp) : ended :=
  match selected_items with
  | [] => Finished a
  | _ :: _ =>
      match mapM (fun idx => (fun p => (idx, original_text p)) <$> paragraphs a !! idx)
                 selected_items with
      | None => Crashed
      | Some jobs =>
          let selected : gset nat := list_to_set selected_items in
          let attempts : gmap nat nat := list_to_map (List.map (fun idx => (idx, 0)) selected_items) in
          match run (settings a) jobs (paragraphs a) (world a) with
          | None => Crashed
          | Some (ps, wd, evs) =>
              on_translation_finished rounds
                {| paragraphs := fold_left (fun ps ev => on_progress ev ps) evs ps;
                   selected_for_auto_fix := selected;
                   auto_fix_attempts := attempts;
                   max_auto_fix_attempts := max_attempts;
                   auto_fix_checked := auto_fix_checked a; settings := settings a;
                   world := wd; dispatched := dispatched a; shown := shown a |}
          end
      end
  end.

(** [update_translation_from_edit] for the fragment [idx] shown in the
    editor, whose text is now [edited_text]. *)
Definition update_translation_from_edit (idx : nat) (edited_text : str)
    (ps : list para) : option (list para) :=
  match ps !! idx with
  | None => None
  | Some p =>
      Some (<[idx := set_translation edited_text
                       (if truthy edited_text && negb (is_translated p) then true
                        else is_translated p) p]> ps)
  end.

(** ** main.py: SRTCreator *)

(** [sub in s]. *)
Fixpoint str_in (sub s : str) : bool :=
  is_prefix sub s
  || match s with
     | [] => false
     | _ :: s' => str_in sub s'
     end.

(** The files are opened in text mode with the encoding UTF-8.  A write
    raises on a surrogate, which the encoding cannot hold, and leaves a
    newline as it is where the line separator is the newline; a read turns
    a carriage return, with the newline that follows it if one does, into
    a newline. *)
Definition encodable (s : str) : bool :=
  forallb (fun c => negb (in_range 0xD800 0xDFFF c)) s.

Fixpoint universal_newlines (s : str) : str :=
  match s with
  | [] => []
  | x :: s' =>
      if (x =? 13)%N
      then 10%N :: match s' with
                   | y :: s'' => if (y =? 10)%N then universal_newlines s''
                                 else universal_newlines s'
                   | [] => []
                   end
      else x :: universal_newlines s'
  end.

(** The loop of [SRTCreator.run] over a file that could be opened: what
    the file holds after the writes that succeeded, and whether an
    exception ended the loop: a fragment without [timestamp], a text that
    cannot be encoded. *)
Fixpoint srt_write (paragraphs : list para) (written : str) : str * bool :=
  match paragraphs with
  | [] => (written, false)
  | para :: more =>
      let text := if is_translated para then translated_text para
                  else original_text para in
      if negb (encodable (para_id para)) then (written, true)
      else
        let written := written ++ para_id para ++ nl in
        match timestamp para with
        | None => (written, true)
        | Some stamp =>
            if negb (encodable stamp) then (written, true)
            else
              let written := written ++ stamp ++ nl in
              if negb (encodable text) then (written, true)
              else srt_write more (written ++ text ++ nl ++ nl)
        end
  end.

(** [SRTCreator.run]: the text of the file, and the flag of the signal
    [finished]. *)
Definition SRTCreator_run (paragraphs : list para) : str * bool :=
  srt_write paragraphs [].

(** ** main.py: update_item_visuals *)

Inductive colour := Red | ForestGreen | White.

(** What [update_item_visuals] sets on the item of a fragment: the three
    marks of its font, its colour and its tooltip. *)
Record visuals := Visuals {
  underline : bool;
  italic : bool;
  strike_out : bool;
  foreground : colour;
  tool_tip : str
}.

(** [update_item_visuals(item, para_data)] for the item of the fragment
    [para_data]: the callers pass the fragment the item stands for, which
    is the one [_has_mismatch] looks up. *)
Definition update_item_visuals (para_data : para) : visuals :=
  let orig := original_text para_data in
  let trans := if is_translated para_data then translated_text para_data else [] in
  let mismatch := para_has_mismatch para_data in
  {| underline := is_translated para_data
                  && negb (count_paragraphs orig =? count_paragraphs trans);
     italic := is_translated para_data
               && negb (str_eqb (first_char_type orig) (first_char_type trans));
     strike_out := is_translated para_data
                   && negb (str_eqb (last_char_type orig) (last_char_type trans));
     foreground := if mismatch then Red
                   else if is_translated para_data then ForestGreen else White;
     tool_tip := if mismatch
                 then py "Translation issues:" ++ nl ++ py "- "
                      ++ str_join (nl ++ py "- ") (tooltip_parts para_data)
                 else [] |}.

(** ** epub_creator.py: the headers of the items *)




(** ** Notions the statements use *)

(** A pattern without groups leaves the groups as they are. *)
Fixpoint no_groups (r : regex) : bool :=
  match r with
  | Seq r1 r2 | Alt r1 r2 => no_groups r1 && no_groups r2
  | Star _ r1 | Ahead r1 => no_groups r1
  | Group _ _ => false
  | _ => true
  end.

(** [s'] is [s] after more of the text was read. *)
Definition extends (s s' : subject) : Prop :=
  exists mid, rest s = mid ++ rest s' /\ before s' = rev mid ++ before s.


(** The key under which [load_epub] remembers a fragment. *)
Definition fragment_key (p : para) : list N * list N := (item_href p, original_text p).

(** A tree without its attributes. *)
Fixpoint strip_attrs (n : node) : node :=
  match n with
  | NavigableString k s => NavigableString k s
  | Tag name _ contents => Tag name [] (List.map strip_attrs contents)
  end.

(** The clean texts of the elements named [tag_name] at or below a node, in
    document order. *)
Definition texts_at (tag_name : str) (n : node) : list str :=
  List.map get_text (List.filter (is_tag_named tag_name) (n :: descendants n)).

(** The state of an extraction is sound when no two fragments share a key
    and [seen] holds the keys of the fragments. *)
Definition sound (st : extraction) : Prop :=
  NoDup (List.map fragment_key (x_paragraphs st))
  /\ forall k, k ∈ x_seen st <-> k ∈ List.map fragment_key (x_paragraphs st).

(** The blocks of a subtitle text, in the words of the specification: the
    text is cut at every pair of newlines, the pieces that are only spaces
    are dropped, every other piece is stripped and cut into its lines. *)
Definition subtitle_blocks (content : str) : list (list str) :=
  List.map (fun block => str_split nl (strip block))
    (List.filter (fun block => truthy (strip block)) (str_split (nl ++ nl) content)).

(** The fragment of a block of three lines or more: the first two lines,
    stripped, are its number and its time; the others, joined by newlines
    and stripped, are its text. *)
Definition subtitle_of (path : str) (lines : list str) : para :=
  {| para_id := strip (nth 0 lines []);
     original_text := strip (str_join nl (skipn 2 lines));
     translated_text := []; is_translated := false; item_href := path;
     element_type := py "subtitle"; original_html := None;
     timestamp := Some (strip (nth 1 lines [])) |}.

(** The strings at or below a node, in document order, each with its
    class. *)
Fixpoint strings_of (n : node) : list (strkind * list N) :=
  match n with
  | NavigableString k s => [(k, s)]
  | Tag _ _ contents => flat_map strings_of contents
  end.

(** The strings below a node. *)
Definition strings (n : node) : list (strkind * list N) :=
  match n with
  | NavigableString _ _ => []
  | Tag _ _ contents => flat_map strings_of contents
  end.

(** A tree with its strings emptied: its elements, and where strings
    stand. *)
Fixpoint skeleton (n : node) : node :=
  match n with
  | NavigableString _ _ => NavigableString PlainText []
  | Tag name attrs contents => Tag name attrs (List.map skeleton contents)
  end.

(** A string that is more than spaces. *)
Definition nonblank (ks : strkind * list N) : bool := truthy (strip (snd ks)).

(** A list of strings in which the [j]-th, [j+1]-th, ... of those that are
    more than spaces are replaced by what [f] gives, as plain text. *)
Fixpoint replace_nonblank (f : nat -> option (list N)) (l : list (strkind * list N)) (j : nat)
  : list (strkind * list N) :=
  match l with
  | [] => []
  | ks :: l' =>
      if nonblank ks
      then match f j with
           | Some s' => (PlainText, s')
           | None => ks
           end :: replace_nonblank f l' (S j)
      else ks :: replace_nonblank f l' j
  end.

(** [m] is the place of the first of the longest: nothing is longer, and
    everything before it is shorter. *)
Definition first_longest (lens : list nat) (m : nat) : Prop :=
  m < length lens
  /\ (forall j, j < length lens -> nth j lens 0 <= nth m lens 0)
  /\ (forall j, j < m -> nth j lens 0 < nth m lens 0).

(** The string a node is, if it is one. *)
Definition as_string (n : node) : list (strkind * list N) :=
  match n with
  | NavigableString k s => [(k, s)]
  | Tag _ _ _ => []
  end.

(** [replace_text_nodes] along the contents of an element. *)
Definition replace_list (f : nat -> option (list N)) : list node -> nat -> list node * nat :=
  fix go (l : list node) (i : nat) : list node * nat :=
    match l with
    | [] => ([], i)
    | c :: l' =>
        let '(c', ia) := replace_text_nodes f c i in
        let '(l'', ib) := go l' ia in
        (c' :: l'', ib)
    end.

(** The bracket and quote check in the words of the specification.  An
    apostrophe is dropped when the character before it and the character
    after it are word characters; [prev] is the character before the
    text. *)
Definition inner_apostrophe_at (prev : option N) (s : list N) : bool :=
  match prev, s with
  | Some before_it, c :: after_it :: _ => isword before_it && (39 =? c)%N && isword after_it
  | _, _ => false
  end.

Fixpoint drop_inner_apostrophes (prev : option N) (s : list N) : list N :=
  match s with
  | [] => []
  | c :: s' =>
      if inner_apostrophe_at prev s then drop_inner_apostrophes (Some c) s'
      else c :: drop_inner_apostrophes (Some c) s'
  end.

(** How many characters of a text are one of two marks. *)
Definition count_of (a b : N) (s : list N) : nat :=
  length (List.filter (fun x => (a =? x)%N || (b =? x)%N) s).

(** The four counts agree: quote marks, parentheses, square brackets,
    curly brackets. *)
Definition same_counts (s t : list N) : bool :=
  (count_of dquote (ch "'") s =? count_of dquote (ch "'") t)
  && (count_of (ch "(") (ch ")") s =? count_of (ch "(") (ch ")") t)
  && (count_of (ch "[") (ch "]") s =? count_of (ch "[") (ch "]") t)
  && (count_of (ch "{") (ch "}") s =? count_of (ch "{") (ch "}") t).

(** A line of a subtitle file as [load_srt] returns it: not empty, no
    space at either end, no newline, no carriage return, no surrogate. *)
Definition clean_line (s : str) : bool :=
  truthy s && str_eqb (strip s) s && negb (str_in nl s)
  && negb (str_in [13%N] s) && encodable s.

(** The text of a subtitle: as a line, but newlines may stand in it, one
    at a time. *)
Definition clean_text (s : str) : bool :=
  truthy s && str_eqb (strip s) s && negb (str_in (nl ++ nl) s)
  && negb (str_in [13%N] s) && encodable s.

(** The text [SRTCreator] writes for a fragment. *)
Definition shown_text (p : para) : str :=
  if is_translated p then translated_text p else original_text p.

(** A fragment that [SRTCreator] can write and [load_srt] can read back. *)
Definition writable (p : para) : bool :=
  clean_line (para_id p)
  && match timestamp p with
     | Some stamp => clean_line stamp
     | None => false
     end
  && clean_text (shown_text p).

(** The fragment [load_srt] makes of the block written for [p]. *)
Definition reloaded (path : str) (p : para) : para :=
  {| para_id := para_id p; original_text := shown_text p; translated_text := [];
     is_translated := false; item_href := path; element_type := py "subtitle";
     original_html := None; timestamp := timestamp p |}.

(** [set_string_first] along the contents of an element. *)
Definition set_string_list (p : node -> bool) (new_text : list N)
  : list node -> bool -> list node * bool :=
  fix go (l : list node) (found : bool) : list node * bool :=
    match l with
    | [] => ([], found)
    | c :: l' =>
        let '(c', fa) := set_string_first p new_text c found in
        let '(l'', fb) := go l' fa in
        (c' :: l'', fb)
    end.

(** The nodes at or below the nodes of a list, in document order. *)
Definition nodes_of (l : list node) : list node :=
  flat_map (fun c => c :: descendants c) l.

(** What the search for a title span finds in a list of nodes, what it
    finds once the title is set, and the strings before and after. *)
Definition title_set (cls new_text : list N) (l l' : list node) : Prop :=
  match List.find (is_span_of_class cls) (nodes_of l) with
  | None => l' = l
  | Some sp =>
      exists name attrs contents before_it after_it,
        sp = Tag name attrs contents
        /\ List.find (is_span_of_class cls) (nodes_of l')
           = Some (Tag name attrs [NavigableString PlainText new_text])
        /\ flat_map strings_of l = before_it ++ strings_of sp ++ after_it
        /\ flat_map strings_of l' = before_it ++ [(PlainText, new_text)] ++ after_it
  end.

(** The texts a pattern without groups can read, whatever stands around
    them: anchors and lookarounds read nothing. *)
Fixpoint lang (r : regex) (w : list N) : Prop :=
  match r with
  | Eps | Bol | Eol | Ahead _ | Behind _ _ => w = []
  | Lit x => w = [x]
  | Dot => exists y, w = [y] /\ (y =? 10)%N = false
  | Class neg items => exists y, w = [y] /\ class_match neg items y = true
  | Seq r1 r2 => exists w1 w2, w = w1 ++ w2 /\ lang r1 w1 /\ lang r2 w2
  | Alt r1 r2 => lang r1 w \/ lang r2 w
  | Star _ r1 => exists ws, w = concat ws /\ Forall (lang r1) ws
  | Group _ r1 => lang r1 w
  end.

(** From [s] the matcher has read [mid] and stands at [s']. *)
Definition reads (s : subject) (mid : list N) (s' : subject) : Prop :=
  rest s = mid ++ rest s' /\ before s' = rev mid ++ before s.

(** What [get_text] reads of a string: the text without the spaces around
    it, when the string is text of the document and more than spaces. *)
Definition piece_of (ks : strkind * list N) : list (list N) :=
  text_piece (NavigableString (fst ks) (snd ks)).

(** A fragment as [load_epub] makes them from the items of a book: it
    carries the name of an item with content, the name of an extracted tag
    and the clean text of an element of that tag in the item; its text is
    not empty and has no space at either end; it is not translated. *)
Definition fragment_of (book : list item) (p : para) : Prop :=
  exists it elem,
    it ∈ book /\ truthy (item_content it) = true /\ item_href p = item_name it
    /\ element_type p ∈ TAGS_TO_EXTRACT
    /\ elem ∈ find_all (element_type p) (BeautifulSoup (item_content it))
    /\ original_text p = get_text elem
    /\ original_text p <> [] /\ strip (original_text p) = original_text p
    /\ translated_text p = [] /\ is_translated p = false
    /\ is_Some (original_html p) /\ timestamp p = None.


(** The attributes of an element. *)
Definition attrs_of (n : node) : list (str * str) :=
  match n with
  | Tag _ attrs _ => attrs
  | NavigableString _ _ => []
  end.

(** The elements [load_epub] meets, in the order in which it meets them,
    each with the name of its item and the tag name it was searched
    under: item after item; in an item with content, tag name after tag
    name in the order of [TAGS_TO_EXTRACT]; under one tag name, in
    document order. *)
Definition met (book : list item) : list (str * str * node) :=
  flat_map (fun it =>
    if truthy (item_content it) then
      flat_map (fun tag_name =>
                  List.map (fun elem => (item_name it, tag_name, elem))
                           (find_all tag_name (BeautifulSoup (item_content it))))
               TAGS_TO_EXTRACT
    else []) book.

(** The key of an element met: the name of its item and its clean text. *)
Definition met_key (x : str * str * node) : list N * list N :=
  (fst (fst x), get_text (snd x)).

(** Of a list of things met, those with a text whose key is not in
    [earlier] and was not met before in the list. *)
Fixpoint first_met {A : Type} (key : A -> list N * list N) (l : list A)
    (earlier : gset (list N * list N)) : list A :=
  match l with
  | [] => []
  | x :: l' =>
      if truthy (snd (key x)) && negb (bool_decide (key x ∈ earlier))
      then x :: first_met key l' ({[ key x ]} ∪ earlier)
      else first_met key l' earlier
  end.

(** The fragment [p] is the one of the element [x] met: it carries the
    name of the item, the tag name and the clean text of the element, and
    its identifier is the element's own, or one that was drawn when the
    element had none. *)
Definition extracted_from (p : para) (x : str * str * node) : Prop :=
  item_href p = fst (fst x) /\ element_type p = snd (fst x)
  /\ original_text p = get_text (snd x)
  /\ translated_text p = [] /\ is_translated p = false
  /\ match attr_get (py "id") (attrs_of (snd x)) with
     | Some v => para_id p = v
     | None => exists n, para_id p = py "trans_" ++ uuid4 n
     end.

(** What the statements on the walk read of an element: its clean text and
    its identifier. *)
Definition mark_of (n : node) : list N * option (list N) :=
  (get_text n, attr_get (py "id") (attrs_of n)).

(** The elements named [tag_name] at or below a node, in document order,
    as they are met in the item [href]. *)
Definition met_at (href tag_name : str) (n : node)
  : list (str * str * (list N * option (list N))) :=
  List.map (fun elem => (href, tag_name, mark_of elem))
           (List.filter (is_tag_named tag_name) (n :: descendants n)).

Definition mark_key (x : str * str * (list N * option (list N))) : list N * list N :=
  (fst (fst x), fst (snd x)).

(** The set [seen] after the things of a list were met. *)
Definition seen_after {A : Type} (key : A -> list N * list N) (l : list A)
    (earlier : gset (list N * list N)) : gset (list N * list N) :=
  fold_left (fun seen x => if truthy (snd (key x)) then {[ key x ]} ∪ seen else seen)
            l earlier.

Definition from_mark (p : para) (x : str * str * (list N * option (list N))) : Prop :=
  item_href p = fst (fst x) /\ element_type p = snd (fst x)
  /\ original_text p = fst (snd x)
  /\ translated_text p = [] /\ is_translated p = false
  /\ match snd (snd x) with
     | Some v => para_id p = v
     | None => exists n, para_id p = py "trans_" ++ uuid4 n
     end.

(** A walk that meets the things of [l] takes the state [st] to [st']: the
    fragments added are those of the first met, in order. *)
Definition walk_marks (l : list (str * str * (list N * option (list N))))
    (st st' : extraction) : Prop :=
  (exists news, x_paragraphs st' = x_paragraphs st ++ news
                /\ Forall2 from_mark news (first_met mark_key l (x_seen st)))
  /\ x_seen st' = seen_after mark_key l (x_seen st).

(** What the walk for one tag name meets in a soup, and what the walks
    meet in a book. *)
Definition met_in (href : str) (soup : node) (tag_name : str)
  : list (str * str * (list N * option (list N))) :=
  List.map (fun elem => (href, tag_name, mark_of elem)) (find_all tag_name soup).

Definition met_marks (book : list item) : list (str * str * (list N * option (list N))) :=
  flat_map (fun it =>
    if truthy (item_content it) then
      flat_map (met_in (item_name it) (BeautifulSoup (item_content it))) TAGS_TO_EXTRACT
    else []) book.

(** * Properties *)

(** ** The matcher *)

Lemma extends_refl s : extends s s.
Proof. exists []. split; reflexivity. Qed.

Lemma extends_trans s1 s2 s3 : extends s1 s2 -> extends s2 s3 -> extends s1 s3.
Proof.
  intros [m1 [H1 H1']] [m2 [H2 H2']]. exists (m1 ++ m2). split.
  - rewrite H1, H2. now rewrite <- app_assoc.
  - rewrite H2', H1', rev_app_distr. now rewrite <- app_assoc.
Qed.

Lemma extends_step x s xs : rest s = x :: xs -> extends s (Subject (x :: before s) xs).
Proof. intros H. exists [x]. split; [exact H | reflexivity]. Qed.

Lemma extends_whole s s' : extends s s' -> whole s' = whole s.
Proof.
  intros [mid [H1 H2]]. unfold whole. rewrite H1, H2, rev_app_distr, rev_involutive.
  now rewrite <- app_assoc.
Qed.

Lemma extends_pos s s' : extends s s' -> pos s <= pos s'.
Proof. intros [mid [_ H2]]. unfold pos. rewrite H2, length_app. lia. Qed.

Lemma step_char_sound p s c k res :
  step_char p s c k = Some res -> exists s', extends s s' /\ k s' c = Some res.
Proof.
  unfold step_char. destruct (rest s) as [|x xs] eqn:E; [discriminate|].
  destruct (p x); [|discriminate]. intros H. eexists. split; [|exact H].
  now apply extends_step.
Qed.

Lemma star_loop_sound (m : subject -> gmap nat (nat * nat) -> _ -> _) g :
  (forall s c k res, m s c k = Some res -> exists s', extends s s' /\ k s' c = Some res) ->
  forall fuel s c k res, star_loop m g fuel s c k = Some res ->
  exists s', extends s s' /\ k s' c = Some res.
Proof.
  intros Hm. induction fuel as [|fuel IH]; intros s c k res; simpl.
  - intros H. exists s. split; [apply extends_refl | exact H].
  - assert (Hagain : forall r0,
      m s c (fun s' c' => if length (rest s') <? length (rest s)
                          then star_loop m g fuel s' c' k else None) = Some r0 ->
      exists s', extends s s' /\ k s' c = Some r0).
    { intros r0 H. apply Hm in H as [s1 [E1 H]].
      destruct (length (rest s1) <? length (rest s)); [|discriminate].
      apply IH in H as [s2 [E2 H]]. exists s2. split; [|exact H].
      eapply extends_trans; eauto. }
    destruct g.
    + destruct (m s c _) as [r0|] eqn:E.
      * intros [= <-]. now apply Hagain.
      * intros H. exists s. split; [apply extends_refl | exact H].
    + destruct (k s c) as [r0|] eqn:E.
      * intros [= <-]. exists s. split; [apply extends_refl | exact E].
      * apply Hagain.
Qed.

Lemma rmatch_sound r : no_groups r = true ->
  forall s c k res, rmatch r s c k = Some res ->
  exists s', extends s s' /\ k s' c = Some res.
Proof.
  induction r as [| x | | neg items | r1 IH1 r2 IH2 | r1 IH1 r2 IH2 | g r1 IH1
                  | i r1 IH1 | | | r1 IH1 | neg items]; simpl; intros Hg s c k res H;
    try (apply andb_prop in Hg as [Hg1 Hg2]); try discriminate.
  - exists s. split; [apply extends_refl | exact H].
  - now apply step_char_sound in H.
  - now apply step_char_sound in H.
  - now apply step_char_sound in H.
  - apply (IH1 Hg1) in H as [s1 [E1 H]]. apply (IH2 Hg2) in H as [s2 [E2 H]].
    exists s2. split; [eapply extends_trans; eauto | exact H].
  - destruct (rmatch r1 s c k) as [r0|] eqn:E.
    + injection H as <-. now apply (IH1 Hg1) in E.
    + now apply (IH2 Hg2) in H.
  - eapply star_loop_sound; [|exact H]. intros. now apply (IH1 Hg) in H0.
  - destruct (before s); [|discriminate]. exists s. split; [apply extends_refl | exact H].
  - destruct (at_eol s); [|discriminate]. exists s. split; [apply extends_refl | exact H].
  - destruct (rmatch r1 s c accept) as [[s1 c1]|] eqn:E; [|discriminate].
    apply (IH1 Hg) in E as [s2 [_ E]]. injection E as _ <-.
    exists s. split; [apply extends_refl | exact H].
  - destruct (before s) as [|x b]; [discriminate|].
    destruct (class_match neg items x); [|discriminate].
    exists s. split; [apply extends_refl | exact H].
Qed.

Lemma star_loop_at_end m g fuel s c k :
  rest s = [] ->
  (forall c' k', m s c' k' = None) ->
  star_loop m g fuel s c k = k s c.
Proof.
  intros Hs Hm. destruct fuel as [|fuel]; [reflexivity|]. simpl.
  rewrite Hm. destruct g; [reflexivity|]. now destruct (k s c).
Qed.

Lemma newline_is_space : class_match false [CSpace] 10 = true.
Proof. reflexivity. Qed.

(** Greedy spaces before the end of the text: the match that is found ends
    where the text ends, never before a last newline. *)
Lemma spaces_then_eol_reads_all (K : subject -> gmap nat (nat * nat) -> option (subject * gmap nat (nat * nat))) :
  (forall s c, K s c <> None) ->
  forall fuel s c res,
  length (rest s) <= fuel ->
  star_loop (rmatch (Class false [CSpace])) true fuel s c
    (fun s' c' => if at_eol s' then K s' c' else None) = Some res ->
  exists s', extends s s' /\ rest s' = [] /\ K s' c = Some res.
Proof.
  intros HK. induction fuel as [|fuel IH]; intros s c res Hlen.
  - destruct (rest s) as [|x xs] eqn:E; [|simpl in Hlen; lia].
    simpl. unfold at_eol. rewrite E. intros H.
    exists s. split; [apply extends_refl | now split].
  - simpl. unfold step_char. destruct (rest s) as [|x xs] eqn:E.
    + unfold at_eol. rewrite E. intros H.
      exists s. split; [apply extends_refl | now split].
    + destruct (class_match false [CSpace] x) eqn:Hx.
      * cbn [rest]. replace (length xs <? length (x :: xs)) with true
          by (symmetry; apply Nat.ltb_lt; simpl; lia).
        destruct (star_loop _ true fuel (Subject (x :: before s) xs) c _) as [r0|] eqn:Hrec.
        -- intros [= <-]. apply IH in Hrec as [s' [E' H']]; [|simpl in *; lia].
           exists s'. split; [|exact H'].
           apply (extends_trans _ (Subject (x :: before s) xs));
             [apply extends_step; exact E | exact E'].
        -- unfold at_eol. rewrite E. destruct xs as [|y ys]; [|discriminate].
           exfalso. rewrite star_loop_at_end in Hrec; [| reflexivity | reflexivity].
           cbn in Hrec. now apply HK in Hrec.
      * unfold at_eol. rewrite E. destruct xs as [|y ys]; [|discriminate].
        destruct (x =? 10)%N eqn:Hx10; [|discriminate].
        apply N.eqb_eq in Hx10. subst x. rewrite newline_is_space in Hx. discriminate.
Qed.

Lemma slice_app (t : list N) a b c :
  a <= b -> b <= c -> slice t a b ++ slice t b c = slice t a c.
Proof.
  intros Hab Hbc. unfold slice.
  replace (c - a) with ((b - a) + (c - b)) by lia.
  rewrite <- (take_drop (b - a) (take (b - a + (c - b)) (drop a t))).
  rewrite take_take, Nat.min_l by lia. f_equal.
  rewrite skipn_firstn_comm. replace (b - a + (c - b) - (b - a)) with (c - b) by lia.
  rewrite drop_drop. now replace (a + (b - a)) with b by lia.
Qed.

Lemma slice_all (t : list N) : slice t 0 (length t) = t.
Proof. unfold slice. rewrite Nat.sub_0_r. simpl. apply firstn_all. Qed.

Lemma seq_group_sound i r1 r2 s c k res :
  no_groups r1 = true ->
  rmatch (Seq (Group i r1) r2) s c k = Some res ->
  exists s', extends s s' /\ rmatch r2 s' (<[i:=(pos s, pos s')]> c) k = Some res.
Proof. intros Hg H. cbn [rmatch] in H. now apply rmatch_sound in H. Qed.

Lemma group_spaces_eol_sound i s c res :
  rmatch (Seq (Group i (Star true (Class false [CSpace]))) Eol) s c accept = Some res ->
  exists s', extends s s' /\ rest s' = [] /\ res = (s', <[i:=(pos s, pos s')]> c).
Proof.
  intros H.
  apply (spaces_then_eol_reads_all (fun s' c' => accept s' (<[i:=(pos s, pos s')]> c')))
    in H as [s' [E [Hend H]]]; [| discriminate | reflexivity].
  exists s'. injection H as <-. now repeat split.
Qed.

(** A match of [split_pattern]: the four groups take part, follow one
    another from the start of the text and end where it ends. *)
Lemma split_pattern_spans text m :
  re_match split_pattern text = Some m ->
  m_text m = text /\
  exists p1 p2 p3,
    p1 <= p2 /\ p2 <= p3 /\ p3 <= length text /\
    m_caps m !! 1 = Some (0, p1) /\ m_caps m !! 2 = Some (p1, p2) /\
    m_caps m !! 3 = Some (p2, p3) /\ m_caps m !! 4 = Some (p3, length text).
Proof.
  unfold re_match, match_at.
  destruct (rmatch split_pattern (Subject [] text) ∅ accept) as [[e caps]|] eqn:H;
    [|discriminate].
  intros [= <-]. split; [reflexivity|]. cbn [m_caps].
  unfold split_pattern in H.
  change (rmatch (Seq Bol ?r) (Subject [] text) ?c ?k)
    with (rmatch r (Subject [] text) c k) in H.
  apply seq_group_sound in H as [s1 [E1 H]]; [|reflexivity].
  apply seq_group_sound in H as [s2 [E2 H]]; [|reflexivity].
  apply seq_group_sound in H as [s3 [E3 H]]; [|reflexivity].
  apply group_spaces_eol_sound in H as [s4 [E4 [Hend H]]].
  injection H as -> ->.
  assert (Hn : pos s4 = length text).
  { assert (Hw : whole s4 = text).
    { rewrite (extends_whole _ _ E4), (extends_whole _ _ E3),
        (extends_whole _ _ E2), (extends_whole _ _ E1). reflexivity. }
    unfold whole in Hw. rewrite Hend, app_nil_r in Hw.
    unfold pos. rewrite <- (length_rev (before s4)). now rewrite Hw. }
  apply extends_pos in E1, E2, E3, E4. unfold pos in *. cbn [before length] in *.
  exists (length (before s1)), (length (before s2)), (length (before s3)).
  rewrite <- Hn.
  split; [lia|]. split; [lia|]. split; [lia|].
  repeat split.
  all: repeat (rewrite lookup_insert_ne by lia); now rewrite lookup_insert_eq.
Qed.

Lemma split_groups_take_part text m :
  re_match split_pattern text = Some m ->
  is_Some (group m 1) /\ is_Some (group m 2) /\ is_Some (group m 3) /\ is_Some (group m 4).
Proof.
  intros H. apply split_pattern_spans in H as [_ (p1 & p2 & p3 & _ & _ & _ & H1 & H2 & H3 & H4)].
  unfold group. rewrite H1, H2, H3, H4. repeat split; eexists; reflexivity.
Qed.

(** A match that a continuation accepts is a match on its own. *)
Lemma star_loop_accepts (m : subject -> gmap nat (nat * nat) -> _ -> _) g :
  (forall s c k k' res,
     (forall s0 c0 r0, k s0 c0 = Some r0 -> exists r1, k' s0 c0 = Some r1) ->
     m s c k = Some res -> exists res', m s c k' = Some res') ->
  forall fuel s c k k' res,
  (forall s0 c0 r0, k s0 c0 = Some r0 -> exists r1, k' s0 c0 = Some r1) ->
  star_loop m g fuel s c k = Some res ->
  exists res', star_loop m g fuel s c k' = Some res'.
Proof.
  intros Hm. induction fuel as [|fuel IH]; intros s c k k' res Hk; simpl.
  - apply Hk.
  - set (again := fun s' c' => if length (rest s') <? length (rest s)
                               then star_loop m g fuel s' c' k else None).
    set (again' := fun s' c' => if length (rest s') <? length (rest s)
                                then star_loop m g fuel s' c' k' else None).
    assert (Ha : forall s0 c0 r0, again s0 c0 = Some r0 -> exists r1, again' s0 c0 = Some r1).
    { unfold again, again'. intros s0 c0 r0.
      destruct (length (rest s0) <? length (rest s)); [|discriminate]. now apply IH. }
    destruct g.
    + destruct (m s c again) as [r0|] eqn:E.
      * intros _. apply (Hm _ _ _ again') in E as [r1 ->]; [eauto | exact Ha].
      * intros H. apply Hk in H as [r1 H]. destruct (m s c again'); eauto.
    + destruct (k s c) as [r0|] eqn:E.
      * intros _. apply Hk in E as [r1 ->]. eauto.
      * intros H. apply (Hm _ _ _ again') in H as [r1 H]; [|exact Ha].
        destruct (k' s c); eauto.
Qed.

Lemma rmatch_accepts r : forall s c k k' res,
  (forall s0 c0 r0, k s0 c0 = Some r0 -> exists r1, k' s0 c0 = Some r1) ->
  rmatch r s c k = Some res -> exists res', rmatch r s c k' = Some res'.
Proof.
  induction r as [| x | | neg items | r1 IH1 r2 IH2 | r1 IH1 r2 IH2 | g r1 IH1
                  | i r1 IH1 | | | r1 IH1 | neg items]; simpl; intros s c k k' res Hk H.
  - now apply Hk in H.
  - unfold step_char in *. destruct (rest s); [discriminate|].
    destruct (_ =? _)%N; [now apply Hk in H | discriminate].
  - unfold step_char in *. destruct (rest s); [discriminate|].
    destruct (negb _); [now apply Hk in H | discriminate].
  - unfold step_char in *. destruct (rest s); [discriminate|].
    destruct (class_match _ _ _); [now apply Hk in H | discriminate].
  - eapply IH1; [|exact H]. intros s0 c0 r0. now apply IH2.
  - destruct (rmatch r1 s c k) as [r0|] eqn:E.
    + eapply IH1 in E as [r1' ->]; eauto.
    + eapply IH2 in H as [r1' H]; [|exact Hk]. destruct (rmatch r1 s c k'); eauto.
  - eapply star_loop_accepts; [|exact Hk|exact H]. intros. eapply IH1; eauto.
  - eapply IH1; [|exact H]. intros s0 c0 r0. apply Hk.
  - destruct (before s); [now apply Hk in H | discriminate].
  - destruct (at_eol s); [now apply Hk in H | discriminate].
  - destruct (rmatch r1 s c accept) as [[s1 c1]|]; [now apply Hk in H | discriminate].
  - destruct (before s); [discriminate|].
    destruct (class_match _ _ _); [now apply Hk in H | discriminate].
Qed.

(** A text the enumeration pattern does not open has no match of
    [split_pattern]. *)
Lemma no_enumeration_no_split text :
  re_match enumeration_pattern text = None -> re_match split_pattern text = None.
Proof.
  unfold re_match, match_at. intros Hnone.
  destruct (rmatch split_pattern (Subject [] text) ∅ accept) as [[e caps]|] eqn:H;
    [|reflexivity].
  exfalso. unfold split_pattern in H.
  change (rmatch (Seq Bol ?r) (Subject [] text) ?c ?k)
    with (rmatch r (Subject [] text) c k) in H.
  cbn [rmatch] in H.
  eapply (rmatch_accepts _ _ _ _ accept) in H as [[s1 c1] H].
  - rewrite H in Hnone. discriminate.
  - intros s0 c0 r0 _. eexists. reflexivity.
Qed.

(** ** The translation worker *)

Lemma split_parts_concat text prefix core suffix :
  split_prefix_suffix text = (prefix, core, suffix) -> prefix ++ core ++ suffix = text.
Proof.
  unfold split_prefix_suffix.
  destruct (re_match split_pattern text) as [m|] eqn:H.
  - apply split_pattern_spans in H
      as [Ht (p1 & p2 & p3 & H12 & H23 & H3n & C1 & C2 & C3 & C4)].
    unfold groups4, group. rewrite C1, C2, C3, C4, Ht.
    cbv beta iota zeta delta [default from_option id]. intros [= <- <- <-].
    rewrite (slice_app text p2 p3 (length text)) by lia.
    rewrite (slice_app text p1 p2 (length text)) by lia.
    rewrite (slice_app text 0 p1 (length text)) by lia.
    apply slice_all.
  - intros [= <- <- <-]. cbn. apply app_nil_r.
Qed.

(** C10: the three parts [split_prefix_suffix] returns, put together again,
    are its input; a text that [split_pattern] does not match, and so every
    text that the leading enumeration pattern does not open, comes back
    whole as the core, between an empty prefix and an empty suffix. *)
Theorem split_prefix_suffix_partition (text : str) :
  (let '(prefix, core, suffix) := split_prefix_suffix text in
   prefix ++ core ++ suffix = text)
  /\ (re_match split_pattern text = None -> split_prefix_suffix text = ([], text, []))
  /\ (re_match enumeration_pattern text = None -> split_prefix_suffix text = ([], text, [])).
Proof.
  split; [|split].
  - destruct (split_prefix_suffix text) as [[prefix core] suffix] eqn:H.
    now apply split_parts_concat.
  - intros H. unfold split_prefix_suffix. now rewrite H.
  - intros H. unfold split_prefix_suffix. now rewrite (no_enumeration_no_split _ H).
Qed.

Lemma run_one_stores w all_paragraphs world idx text p :
  all_paragraphs !! idx = Some p ->
  forall prefix core suffix, split_prefix_suffix text = (prefix, core, suffix) ->
  run_one w all_paragraphs world idx text =
    match translate_core w all_paragraphs idx core world with
    | (Returned r, world') =>
        Some (<[idx := set_translation (prefix ++ r ++ suffix) true p]> all_paragraphs,
              world', Progress idx (prefix ++ r ++ suffix) false)
    | (Raised e, world') =>
        Some (<[idx := set_translation (py "ERROR: " ++ e) false p]> all_paragraphs,
              world', Progress idx (py "ERROR: " ++ e) true)
    end.
Proof. intros Hp prefix core suffix Hs. unfold run_one. now rewrite Hp, Hs. Qed.

(** C1, amended: the text is split into prefix, core and suffix, which
    together are the text.  With the prompts of the program the chat
    backends are asked to translate the core alone; a custom prompt is
    formatted with the core as its field [core_text], for the chat
    backends and for Ollama.  Whenever the backend returns a result that
    is not empty, the prefix, that result and the suffix, in this order,
    are stored as the translation and the fragment is marked translated;
    when it returns the empty string or raises, the error string is
    stored and the fragment is marked untranslated.  The text
    [12. Hello.] splits into [12. ], [Hello] and [.]. *)
Theorem run_one_reassembles (w : TranslationWorker) (all_paragraphs : list para)
    (world : W) (idx : nat) (text : str) (p : para) (prefix core suffix : str) :
  all_paragraphs !! idx = Some p ->
  split_prefix_suffix text = (prefix, core, suffix) ->
  let context := str_join nl (context_paragraphs all_paragraphs idx (context_size w)) in
  let system_prompt := strip (llm_instruction w) ++ nl ++ nl ++ context_header
                         ++ context ++ nl ++ py "---" in
  let user_prompt := py "Translate ONLY this:" ++ nl ++ core in
  split_prefix_suffix (py "12. Hello.") = (py "12. ", py "Hello", py ".")
  /\ prefix ++ core ++ suffix = text
  /\ (given (custom_system_prompt w) = None \/ given (custom_user_prompt w) = None ->
      (llm_choice w = Openrouter ->
         build_request w context core = inl (call_openrouter_api system_prompt user_prompt))
      /\ (llm_choice w = LM_Studio ->
         build_request w context core = inl (call_lm_studio_api system_prompt user_prompt)))
  /\ (forall sys usr filled_sys filled_usr,
        given (custom_system_prompt w) = Some sys ->
        given (custom_user_prompt w) = Some usr ->
        str_format sys [(py "context", context)] = Returned filled_sys ->
        str_format usr [(py "core_text", core)] = Returned filled_usr ->
        (llm_choice w = Openrouter ->
           build_request w context core = inl (call_openrouter_api filled_sys filled_usr))
        /\ (llm_choice w = LM_Studio ->
           build_request w context core = inl (call_lm_studio_api filled_sys filled_usr)))
  /\ (forall tpl full_prompt,
        llm_choice w = Ollama ->
        given (custom_ollama_prompt w) = Some tpl ->
        str_format tpl [(py "context", context); (py "core_text", core)]
        = Returned full_prompt ->
        build_request w context core = inl (call_ollama_api full_prompt))
  /\ (forall req r world',
        build_request w context core = inl req ->
        backend req world = (Returned r, world') ->
        r <> [] ->
        run_one w all_paragraphs world idx text
        = Some (<[idx := set_translation (prefix ++ r ++ suffix) true p]> all_paragraphs,
                world', Progress idx (prefix ++ r ++ suffix) false))
  /\ (forall req world',
        build_request w context core = inl req ->
        backend req world = (Returned [], world') ->
        run_one w all_paragraphs world idx text
        = Some (<[idx := set_translation (py "ERROR: Empty translation received") false p]>
                  all_paragraphs,
                world', Progress idx (py "ERROR: Empty translation received") true))
  /\ (forall req msg world',
        build_request w context core = inl req ->
        backend req world = (Raised msg, world') ->
        run_one w all_paragraphs world idx text
        = Some (<[idx := set_translation (py "ERROR: " ++ msg) false p]> all_paragraphs,
                world', Progress idx (py "ERROR: " ++ msg) true)).
Proof.
  intros Hp Hs context system_prompt user_prompt.
  split; [reflexivity|]. split.
  { now apply split_parts_concat. }
  split.
  { intros Hdefault.
    assert (Hchat : chat_prompts w context core = inl (system_prompt, user_prompt)).
    { unfold chat_prompts.
      destruct Hdefault as [-> | H]; [reflexivity|].
      rewrite H. now destruct (given (custom_system_prompt w)). }
    split; intros Hc; unfold build_request; now rewrite Hc, Hchat. }
  split.
  { intros sys usr filled_sys filled_usr Hsys Husr Hfs Hfu.
    assert (Hchat : chat_prompts w context core = inl (filled_sys, filled_usr)).
    { unfold chat_prompts. now rewrite Hsys, Husr, Hfs, Hfu. }
    split; intros Hc; unfold build_request; now rewrite Hc, Hchat. }
  split.
  { intros tpl full_prompt Hc Htpl Hf. unfold build_request. now rewrite Hc, Htpl, Hf. }
  split; [|split].
  - intros req r world' Hreq Hb Hr.
    rewrite (run_one_stores _ _ _ _ _ _ Hp _ _ _ Hs).
    unfold translate_core. fold context. rewrite Hreq, Hb.
    destruct r; [contradiction | reflexivity].
  - intros req world' Hreq Hb.
    rewrite (run_one_stores _ _ _ _ _ _ Hp _ _ _ Hs).
    unfold translate_core. fold context. now rewrite Hreq, Hb.
  - intros req msg world' Hreq Hb.
    rewrite (run_one_stores _ _ _ _ _ _ Hp _ _ _ Hs).
    unfold translate_core. fold context. now rewrite Hreq, Hb.
Qed.

(** C4, amended: after the worker's attempt at a fragment, the fragment is
    marked translated exactly when the backend was called and returned a
    result that is not empty, and then its text is prefix, result and
    suffix; when the backend returned the empty string or raised (or the
    request could not be built), the text is the error string and the
    fragment is marked untranslated; the progress signal carries the same
    text and flag.  A manual edit stores the edited text and marks the
    fragment translated as soon as that text is not empty, whatever stood
    there before. *)
Theorem is_translated_after_attempt (w : TranslationWorker) (all_paragraphs : list para)
    (world : W) (idx : nat) (text : str) (p : para) (prefix core suffix : str) :
  all_paragraphs !! idx = Some p ->
  split_prefix_suffix text = (prefix, core, suffix) ->
  exists ps q world' ev,
    run_one w all_paragraphs world idx text = Some (ps, world', ev)
    /\ ps !! idx = Some q
    /\ on_progress ev ps = ps
    /\ p_is_error ev = negb (is_translated q)
    /\ p_text ev = translated_text q
    /\ match build_request w
               (str_join nl (context_paragraphs all_paragraphs idx (context_size w)))
               core with
       | inr msg =>
           is_translated q = false /\ translated_text q = py "ERROR: " ++ msg
       | inl req =>
           match fst (backend req world) with
           | Returned (c :: r) =>
               is_translated q = true /\ translated_text q = prefix ++ (c :: r) ++ suffix
           | Returned [] =>
               is_translated q = false
               /\ translated_text q = py "ERROR: Empty translation received"
           | Raised msg =>
               is_translated q = false /\ translated_text q = py "ERROR: " ++ msg
           end
       end
    /\ (forall edited_text, exists q',
          update_translation_from_edit idx edited_text ps = Some (<[idx := q']> ps)
          /\ translated_text q' = edited_text
          /\ is_translated q' = truthy edited_text || is_translated q).
Proof.
  intros Hp Hs.
  assert (Hlt : idx < length all_paragraphs) by (now apply lookup_lt_Some in Hp).
  rewrite (run_one_stores _ _ _ _ _ _ Hp _ _ _ Hs).
  unfold translate_core.
  assert (Hedit : forall q ps, ps !! idx = Some q -> forall edited_text, exists q',
            update_translation_from_edit idx edited_text ps = Some (<[idx := q']> ps)
            /\ translated_text q' = edited_text
            /\ is_translated q' = truthy edited_text || is_translated q).
  { intros q ps Hq edited_text. unfold update_translation_from_edit. rewrite Hq.
    eexists. split; [reflexivity|]. split; [reflexivity|]. cbn.
    now destruct (truthy edited_text), (is_translated q). }
  assert (Hsame : forall t b,
            on_progress (Progress idx t (negb b)) (<[idx := set_translation t b p]> all_paragraphs)
            = <[idx := set_translation t b p]> all_paragraphs).
  { intros t b. unfold on_progress. cbn [p_idx p_text p_is_error].
    rewrite list_lookup_insert_eq by exact Hlt. rewrite Bool.negb_involutive.
    rewrite list_insert_insert_eq. reflexivity. }
  assert (Hdone : forall (t : list N) (b : bool) (world' : W),
            exists ps q w' ev,
              Some (<[idx := set_translation t b p]> all_paragraphs, world',
                    Progress idx t (negb b)) = Some (ps, w', ev)
              /\ ps !! idx = Some q /\ on_progress ev ps = ps
              /\ p_is_error ev = negb (is_translated q) /\ p_text ev = translated_text q
              /\ (is_translated q = b /\ translated_text q = t)
              /\ (forall edited_text, exists q',
                    update_translation_from_edit idx edited_text ps = Some (<[idx := q']> ps)
                    /\ translated_text q' = edited_text
                    /\ is_translated q' = truthy edited_text || is_translated q)).
  { intros t b world'. eexists _, _, _, _. split; [reflexivity|].
    split; [apply list_lookup_insert_eq; exact Hlt|].
    split; [apply Hsame|]. repeat split.
    apply Hedit. apply list_lookup_insert_eq; exact Hlt. }
  destruct (build_request w _ core) as [req|msg].
  - destruct (backend req world) as [[[|c r]|msg] world'] eqn:Hb; cbn [fst truthy].
    + exact (Hdone _ false world').
    + exact (Hdone _ true world').
    + exact (Hdone _ false world').
  - exact (Hdone _ false world).
Qed.

(** ** The mismatch detector *)

Lemma distance_same n : distance n n = 0.
Proof. unfold distance. lia. Qed.

Lemma mismatch_checks_same x : mismatch_checks x x = repeat false 12.
Proof.
  unfold mismatch_checks, sets_differ, str_eqb, length_mismatch.
  rewrite !distance_same, Nat.eqb_refl, Bool.eqb_reflx.
  rewrite !bool_decide_eq_true_2 by reflexivity.
  replace (Nat.max (length x) (length x) <? 2 * 0) with false
    by (symmetry; apply Nat.ltb_ge; lia).
  rewrite !Bool.andb_false_r. reflexivity.
Qed.

Lemma has_mismatch_lookup paragraphs idx p :
  paragraphs !! idx = Some p -> _has_mismatch paragraphs idx = Some (para_has_mismatch p).
Proof. intros H. unfold _has_mismatch. now rewrite H. Qed.

(** C2: a fragment marked translated whose translation is its original
    text triggers none of the twelve checks, and the detector does not flag
    it.  This holds for every text, the empty one too. *)
Theorem identical_translation_no_mismatch (paragraphs : list para) (idx : nat) (p : para) :
  paragraphs !! idx = Some p ->
  is_translated p = true ->
  translated_text p = original_text p ->
  mismatch_checks (original_text p) (translated_text p) = repeat false 12
  /\ _has_mismatch paragraphs idx = Some false.
Proof.
  intros Hp Ht Hx. rewrite Hx. split; [apply mismatch_checks_same|].
  rewrite (has_mismatch_lookup _ _ _ Hp). unfold para_has_mismatch.
  now rewrite Ht, Hx, mismatch_checks_same.
Qed.

(** C3: a fragment that is not marked translated is never flagged,
    whatever its two texts are. *)
Theorem untranslated_never_flagged (paragraphs : list para) (idx : nat) (p : para) :
  paragraphs !! idx = Some p ->
  is_translated p = false ->
  _has_mismatch paragraphs idx = Some false.
Proof.
  intros Hp Ht. rewrite (has_mismatch_lookup _ _ _ Hp). unfold para_has_mismatch.
  now rewrite Ht.
Qed.

(** ** Extraction from markup *)

(** Induction on a tree, with the property known of the contents. *)
Lemma node_induction (P : node -> Prop) :
  (forall k s, P (NavigableString k s)) ->
  (forall name attrs contents, Forall P contents -> P (Tag name attrs contents)) ->
  forall n, P n.
Proof.
  intros Hs Ht. fix IH 1. intros [k s | name attrs contents].
  - apply Hs.
  - apply Ht. induction contents as [|c cs IHcs]; constructor; [apply IH | exact IHcs].
Qed.

Lemma descendants_strip_attrs n :
  descendants (strip_attrs n) = List.map strip_attrs (descendants n).
Proof.
  induction n as [k s | name attrs contents IH] using node_induction; [reflexivity|].
  cbn [strip_attrs descendants]. induction IH as [|c cs Hc _ IHcs]; [reflexivity|].
  cbn [List.map flat_map]. rewrite IHcs, Hc, List.map_app. reflexivity.
Qed.

Lemma text_piece_strip_attrs n : text_piece (strip_attrs n) = text_piece n.
Proof. now destruct n. Qed.

Lemma get_text_strip_attrs n : get_text (strip_attrs n) = get_text n.
Proof.
  unfold get_text. rewrite descendants_strip_attrs. f_equal.
  induction (descendants n) as [|d ds IH]; [reflexivity|].
  cbn [List.map flat_map]. now rewrite IH, text_piece_strip_attrs.
Qed.

Lemma is_tag_named_strip_attrs tag_name n :
  is_tag_named tag_name (strip_attrs n) = is_tag_named tag_name n.
Proof. now destruct n. Qed.

(** What a visit does to the state. *)
Lemma visit_sound href tag_name attrs contents st attrs' st' :
  visit href tag_name attrs contents st = (attrs', st') ->
  (sound st -> sound st')
  /\ x_seen st ⊆ x_seen st'
  /\ (get_text (Tag tag_name attrs contents) <> [] ->
      (href, get_text (Tag tag_name attrs contents)) ∈ x_seen st').
Proof.
  unfold visit. set (clean_text := get_text (Tag tag_name attrs contents)).
  destruct (truthy clean_text) eqn:Ht; cbn [negb].
  2:{ intros [= <- <-]. split; [auto|]. split; [reflexivity|].
      destruct clean_text; [contradiction | discriminate]. }
  destruct (bool_decide ((href, clean_text) ∈ x_seen st)) eqn:Hseen.
  { intros [= <- <-]. apply bool_decide_eq_true in Hseen.
    split; [auto|]. split; [reflexivity | auto]. }
  apply bool_decide_eq_false in Hseen.
  destruct (attr_get (py "id") attrs) as [v|]; intros [= <- <-];
    unfold sound; cbn [x_seen x_paragraphs].
  all: split; [|split; [apply union_subseteq_r|];
         intros _; apply elem_of_union_l, elem_of_singleton; reflexivity].
  all: intros [Hnd Hkeys]; split.
  all: rewrite ?List.map_app; cbn [List.map fragment_key item_href original_text].
  1,3: apply NoDup_app; split; [exact Hnd|]; split;
         [ intros k Hk ->%list_elem_of_singleton; apply Hseen, Hkeys, Hk
         | apply NoDup_singleton ].
  all: intros k; rewrite elem_of_union, elem_of_singleton, elem_of_app,
         list_elem_of_singleton, Hkeys; split; intros [H|H]; auto.
Qed.

Lemma extract_node_tag href tag_name name attrs contents st :
  extract_node href tag_name (Tag name attrs contents) st =
    let '(attrs', st1) :=
      if str_eqb name tag_name then visit href tag_name attrs contents st
      else (attrs, st) in
    let '(contents', st2) := extract_list href tag_name contents st1 in
    (Tag name attrs' contents', st2).
Proof. reflexivity. Qed.

Lemma extract_list_cons href tag_name c l st :
  extract_list href tag_name (c :: l) st =
    let '(c', sa) := extract_node href tag_name c st in
    let '(l', sb) := extract_list href tag_name l sa in
    (c' :: l', sb).
Proof. reflexivity. Qed.

Lemma texts_at_tag tag_name name attrs contents :
  texts_at tag_name (Tag name attrs contents) =
    (if str_eqb name tag_name then [get_text (Tag name attrs contents)] else [])
    ++ flat_map (texts_at tag_name) contents.
Proof.
  unfold texts_at. cbn [List.filter is_tag_named descendants].
  assert (H : List.map get_text
                (List.filter (is_tag_named tag_name)
                   (flat_map (fun c => c :: descendants c) contents))
              = flat_map (fun c => List.map get_text
                  (List.filter (is_tag_named tag_name) (c :: descendants c))) contents).
  { induction contents as [|c cs IH]; [reflexivity|].
    cbn [flat_map]. rewrite <- IH.
    change (c :: descendants c ++ flat_map (fun c0 => c0 :: descendants c0) cs)
      with ((c :: descendants c) ++ flat_map (fun c0 => c0 :: descendants c0) cs).
    now rewrite List.filter_app, List.map_app. }
  destruct (str_eqb name tag_name); cbn [List.map app]; now rewrite H.
Qed.

(** What the walk for one tag does below a node: the tree keeps its shape,
    a sound state stays sound, [seen] only grows, and the key of every
    element of that name with a text is in [seen] afterwards. *)
Definition walk_ok (href tag_name : str) (n n' : node) (st st' : extraction) : Prop :=
  strip_attrs n' = strip_attrs n
  /\ (sound st -> sound st')
  /\ x_seen st ⊆ x_seen st'
  /\ forall t, t ∈ texts_at tag_name n -> t <> [] -> (href, t) ∈ x_seen st'.

Lemma extract_list_ok href tag_name contents :
  Forall (fun c => forall st n' st',
            extract_node href tag_name c st = (n', st') ->
            walk_ok href tag_name c n' st st') contents ->
  forall st l' st',
  extract_list href tag_name contents st = (l', st') ->
  List.map strip_attrs l' = List.map strip_attrs contents
  /\ (sound st -> sound st')
  /\ x_seen st ⊆ x_seen st'
  /\ forall t, t ∈ flat_map (texts_at tag_name) contents -> t <> [] ->
               (href, t) ∈ x_seen st'.
Proof.
  induction 1 as [|c cs Hc _ IH]; intros st l' st'.
  - intros [= <- <-]. split; [reflexivity|]. split; [auto|]. split; [reflexivity|].
    intros t Ht. now apply elem_of_nil in Ht.
  - rewrite extract_list_cons.
    destruct (extract_node href tag_name c st) as [c' sa] eqn:Ec.
    destruct (extract_list href tag_name cs sa) as [l'' sb] eqn:El.
    intros [= <- <-].
    apply Hc in Ec as (Hshape & Hsound & Hgrow & Hin).
    apply IH in El as (Hshape' & Hsound' & Hgrow' & Hin').
    split; [cbn [List.map]; now rewrite Hshape, Hshape'|].
    split; [auto|]. split; [now transitivity (x_seen sa)|].
    intros t Ht Hne. cbn [flat_map] in Ht. apply elem_of_app in Ht as [Ht|Ht].
    + apply Hgrow'. now apply Hin.
    + now apply Hin'.
Qed.

Lemma extract_node_ok href tag_name n :
  forall st n' st',
  extract_node href tag_name n st = (n', st') -> walk_ok href tag_name n n' st st'.
Proof.
  induction n as [k s | name attrs contents IH] using node_induction; intros st n' st'.
  - intros [= <- <-]. split; [reflexivity|]. split; [auto|]. split; [reflexivity|].
    intros t Ht. unfold texts_at in Ht. cbn in Ht. now apply elem_of_nil in Ht.
  - rewrite extract_node_tag.
    destruct (if str_eqb name tag_name then visit href tag_name attrs contents st
              else (attrs, st)) as [attrs' st1] eqn:Ev.
    destruct (extract_list href tag_name contents st1) as [contents' st2] eqn:El.
    intros [= <- <-].
    apply (extract_list_ok _ _ _ IH) in El as (Hshape & Hsound & Hgrow & Hin).
    assert (Hv : (sound st -> sound st1) /\ x_seen st ⊆ x_seen st1
                 /\ (str_eqb name tag_name = true ->
                     get_text (Tag name attrs contents) <> [] ->
                     (href, get_text (Tag name attrs contents)) ∈ x_seen st1)).
    { destruct (str_eqb name tag_name) eqn:En.
      - apply bool_decide_eq_true in En. subst name.
        apply visit_sound in Ev as (H1 & H2 & H3). auto.
      - injection Ev as <- <-. split; [auto|]. split; [reflexivity | discriminate]. }
    destruct Hv as (Hs1 & Hg1 & Hself).
    split; [cbn [strip_attrs]; now rewrite Hshape|].
    split; [auto|]. split; [now transitivity (x_seen st1)|].
    intros t Ht Hne. rewrite texts_at_tag in Ht. apply elem_of_app in Ht as [Ht|Ht].
    + destruct (str_eqb name tag_name) eqn:En; [|now apply elem_of_nil in Ht].
      apply list_elem_of_singleton in Ht. subst t. apply Hgrow. now apply Hself.
    + now apply Hin.
Qed.

Lemma texts_strip_attrs tag_name (l : list node) :
  List.map get_text (List.filter (is_tag_named tag_name) (List.map strip_attrs l))
  = List.map get_text (List.filter (is_tag_named tag_name) l).
Proof.
  induction l as [|d ds IH]; [reflexivity|].
  cbn [List.map List.filter]. rewrite is_tag_named_strip_attrs.
  destruct (is_tag_named tag_name d); [|exact IH].
  cbn [List.map]. now rewrite IH, get_text_strip_attrs.
Qed.

Lemma find_all_texts_same_shape tag_name n n' :
  strip_attrs n' = strip_attrs n ->
  List.map get_text (find_all tag_name n') = List.map get_text (find_all tag_name n).
Proof.
  intros H. unfold find_all.
  rewrite <- (texts_strip_attrs tag_name (descendants n')).
  rewrite <- (texts_strip_attrs tag_name (descendants n)).
  now rewrite <- !descendants_strip_attrs, H.
Qed.

Lemma find_all_texts tag_name name attrs contents :
  List.map get_text (find_all tag_name (Tag name attrs contents))
  = flat_map (texts_at tag_name) contents.
Proof.
  pose proof (texts_at_tag tag_name name attrs contents) as H.
  unfold texts_at in H. cbn [List.filter is_tag_named] in H.
  unfold find_all. destruct (str_eqb name tag_name); cbn [List.map app] in H.
  - now injection H.
  - exact H.
Qed.

Lemma extract_tag_ok href tag_name soup st soup' st' :
  extract_tag href (soup, st) tag_name = (soup', st') ->
  strip_attrs soup' = strip_attrs soup
  /\ (sound st -> sound st')
  /\ x_seen st ⊆ x_seen st'
  /\ forall t, t ∈ List.map get_text (find_all tag_name soup) -> t <> [] ->
               (href, t) ∈ x_seen st'.
Proof.
  unfold extract_tag. cbn [fst snd]. destruct soup as [k s | name attrs contents].
  - intros [= <- <-]. split; [reflexivity|]. split; [auto|]. split; [reflexivity|].
    intros t Ht. cbn in Ht. now apply elem_of_nil in Ht.
  - destruct (extract_list href tag_name contents st) as [contents' st2] eqn:El.
    intros [= <- <-].
    apply extract_list_ok in El as (Hshape & Hsound & Hgrow & Hin).
    + split; [cbn [strip_attrs]; now rewrite Hshape|].
      split; [exact Hsound|]. split; [exact Hgrow|].
      intros t Ht. rewrite find_all_texts in Ht. now apply Hin.
    + apply Forall_forall. intros c _. apply extract_node_ok.
Qed.

Lemma extract_tags_ok href tags : forall soup st soup' st',
  fold_left (extract_tag href) tags (soup, st) = (soup', st') ->
  strip_attrs soup' = strip_attrs soup
  /\ (sound st -> sound st')
  /\ x_seen st ⊆ x_seen st'
  /\ forall tag_name t,
       tag_name ∈ tags -> t ∈ List.map get_text (find_all tag_name soup) -> t <> [] ->
       (href, t) ∈ x_seen st'.
Proof.
  induction tags as [|tag tags IH]; intros soup st soup' st'.
  - intros [= <- <-]. split; [reflexivity|]. split; [auto|]. split; [reflexivity|].
    intros tag_name t Ht. now apply elem_of_nil in Ht.
  - cbn [fold_left].
    destruct (extract_tag href (soup, st) tag) as [soup1 st1] eqn:E1.
    intros H. apply IH in H as (Hshape' & Hsound' & Hgrow' & Hin').
    apply extract_tag_ok in E1 as (Hshape & Hsound & Hgrow & Hin).
    split; [now rewrite Hshape', Hshape|]. split; [auto|].
    split; [now transitivity (x_seen st1)|].
    intros tag_name t Htag Ht Hne. apply elem_of_cons in Htag as [->|Htag].
    + apply Hgrow'. now apply Hin.
    + apply (Hin' tag_name); [exact Htag | | exact Hne].
      now rewrite (find_all_texts_same_shape _ _ _ Hshape).
Qed.

Lemma load_item_ok it st it' st' :
  load_item it st = (it', st') ->
  (sound st -> sound st')
  /\ x_seen st ⊆ x_seen st'
  /\ (item_content it <> [] ->
      forall tag_name elem,
        tag_name ∈ TAGS_TO_EXTRACT ->
        elem ∈ find_all tag_name (BeautifulSoup (item_content it)) ->
        get_text elem <> [] ->
        (item_name it, get_text elem) ∈ x_seen st').
Proof.
  unfold load_item. destruct (item_content it) as [|c content] eqn:Ec; cbn [truthy negb].
  - intros [= <- <-]. split; [auto|]. split; [reflexivity|]. contradiction.
  - destruct (fold_left _ _ _) as [soup' st2] eqn:Ef. intros [= <- <-].
    apply extract_tags_ok in Ef as (_ & Hsound & Hgrow & Hin).
    split; [exact Hsound|]. split; [exact Hgrow|].
    intros _ tag_name elem Htag Helem Hne.
    apply (Hin tag_name); [exact Htag | | exact Hne].
    apply list_elem_of_In, in_map, list_elem_of_In, Helem.
Qed.

Lemma load_items_ok book : forall st book' st',
  load_items book st = (book', st') ->
  (sound st -> sound st')
  /\ x_seen st ⊆ x_seen st'
  /\ forall it tag_name elem,
       it ∈ book -> item_content it <> [] ->
       tag_name ∈ TAGS_TO_EXTRACT ->
       elem ∈ find_all tag_name (BeautifulSoup (item_content it)) ->
       get_text elem <> [] ->
       (item_name it, get_text elem) ∈ x_seen st'.
Proof.
  induction book as [|it0 more IH]; intros st book' st'.
  - intros [= <- <-]. split; [auto|]. split; [reflexivity|].
    intros it tag_name elem Hit. now apply elem_of_nil in Hit.
  - cbn [load_items].
    destruct (load_item it0 st) as [it1 st1] eqn:E1.
    destruct (load_items more st1) as [more' st2] eqn:E2.
    intros [= <- <-].
    apply load_item_ok in E1 as (Hsound & Hgrow & Hin).
    apply IH in E2 as (Hsound' & Hgrow' & Hin').
    split; [auto|]. split; [now transitivity (x_seen st1)|].
    intros it tag_name elem Hit Hc Htag Helem Hne.
    apply elem_of_cons in Hit as [->|Hit].
    + apply Hgrow'. now apply (Hin Hc tag_name elem).
    + now apply (Hin' it tag_name elem).
Qed.

Lemma one_fragment_of_key (l : list para) k :
  NoDup (List.map fragment_key l) ->
  k ∈ List.map fragment_key l ->
  length (List.filter (fun p => bool_decide (fragment_key p = k)) l) = 1.
Proof.
  induction l as [|p l IH]; intros Hnd Hk; [now apply elem_of_nil in Hk|].
  cbn [List.map] in Hnd, Hk. apply NoDup_cons in Hnd as [Hp Hnd].
  cbn [List.filter]. destruct (bool_decide (fragment_key p = k)) eqn:E.
  - apply bool_decide_eq_true in E. subst k. cbn [length]. f_equal.
    apply length_zero_iff_nil. clear IH Hk Hnd.
    induction l as [|q l IHl]; [reflexivity|].
    cbn [List.filter]. destruct (bool_decide (fragment_key q = fragment_key p)) eqn:Eq.
    + apply bool_decide_eq_true in Eq. exfalso. apply Hp. cbn [List.map].
      rewrite Eq. apply list_elem_of_here.
    + apply IHl. intros H. apply Hp. cbn [List.map]. now apply list_elem_of_further.
  - apply bool_decide_eq_false in E. apply elem_of_cons in Hk as [->|Hk]; [contradiction|].
    now apply IH.
Qed.

(** ** Which element of a key is kept *)

Lemma attr_get_app key (a b : list (str * str)) :
  attr_get key (a ++ b)
  = match attr_get key a with Some v => Some v | None => attr_get key b end.
Proof.
  induction a as [|[k v] a IH]; [reflexivity|].
  cbn [app attr_get]. now destruct (str_eqb k key).
Qed.

Lemma first_met_app {A : Type} (key : A -> list N * list N) (l1 l2 : list A) : forall earlier,
  first_met key (l1 ++ l2) earlier
  = first_met key l1 earlier ++ first_met key l2 (seen_after key l1 earlier).
Proof.
  induction l1 as [|x l1 IH]; intros earlier; [reflexivity|].
  cbn [app first_met seen_after fold_left].
  destruct (truthy (snd (key x))) eqn:Et; cbn [andb].
  - destruct (bool_decide (key x ∈ earlier)) eqn:Ein; cbn [negb].
    + apply bool_decide_eq_true in Ein.
      replace ({[key x]} ∪ earlier) with earlier by (symmetry; apply subseteq_union_1_L;
        apply singleton_subseteq_l; exact Ein).
      apply IH.
    + cbn [app]. f_equal. apply IH.
  - apply IH.
Qed.

Lemma seen_after_app {A : Type} (key : A -> list N * list N) (l1 l2 : list A) earlier :
  seen_after key (l1 ++ l2) earlier = seen_after key l2 (seen_after key l1 earlier).
Proof. unfold seen_after. apply fold_left_app. Qed.

Lemma walk_marks_nil st : walk_marks [] st st.
Proof.
  split; [|reflexivity]. exists []. split; [now rewrite app_nil_r | constructor].
Qed.

Lemma walk_marks_app l1 l2 st st1 st2 :
  walk_marks l1 st st1 -> walk_marks l2 st1 st2 -> walk_marks (l1 ++ l2) st st2.
Proof.
  intros [(n1 & E1 & F1) S1] [(n2 & E2 & F2) S2]. split.
  - exists (n1 ++ n2). split; [now rewrite E2, E1, <- app_assoc|].
    rewrite first_met_app, <- S1. now apply Forall2_app.
  - now rewrite seen_after_app, <- S1.
Qed.

Lemma visit_marks href tag_name attrs contents st attrs' st' :
  visit href tag_name attrs contents st = (attrs', st') ->
  walk_marks [(href, tag_name, mark_of (Tag tag_name attrs contents))] st st'.
Proof.
  unfold visit, walk_marks, mark_of, seen_after.
  cbn [first_met fold_left attrs_of]. unfold mark_key. cbn [fst snd].
  set (clean_text := get_text (Tag tag_name attrs contents)).
  destruct (truthy clean_text) eqn:Ht; cbn [negb andb].
  2:{ intros [= <- <-]. split; [|reflexivity].
      exists []. split; [now rewrite app_nil_r | constructor]. }
  destruct (bool_decide ((href, clean_text) ∈ x_seen st)) eqn:Hseen; cbn [negb].
  { intros [= <- <-]. apply bool_decide_eq_true in Hseen. split.
    - exists []. split; [now rewrite app_nil_r | constructor].
    - symmetry. apply subseteq_union_1_L, singleton_subseteq_l, Hseen. }
  destruct (attr_get (py "id") attrs) as [v|] eqn:Eid; intros [= <- <-];
    cbn [x_seen x_paragraphs]; (split; [|reflexivity]); eexists; (split; [reflexivity|]);
    repeat constructor; cbn [para_id fst snd].
  - now rewrite Eid.
  - rewrite attr_get_app, Eid. cbn. now exists (x_drawn st).
Qed.

Lemma elements_at_tag (P : node -> bool) name attrs contents :
  List.filter P (Tag name attrs contents :: descendants (Tag name attrs contents))
  = (if P (Tag name attrs contents) then [Tag name attrs contents] else [])
    ++ flat_map (fun c => List.filter P (c :: descendants c)) contents.
Proof.
  assert (H : List.filter P (flat_map (fun c => c :: descendants c) contents)
              = flat_map (fun c => List.filter P (c :: descendants c)) contents).
  { induction contents as [|c cs IH]; [reflexivity|].
    cbn [flat_map]. rewrite <- IH.
    change (c :: descendants c ++ flat_map (fun c0 => c0 :: descendants c0) cs)
      with ((c :: descendants c) ++ flat_map (fun c0 => c0 :: descendants c0) cs).
    now rewrite List.filter_app. }
  change (Tag name attrs contents :: descendants (Tag name attrs contents))
    with ([Tag name attrs contents] ++ flat_map (fun c => c :: descendants c) contents).
  rewrite List.filter_app, H. reflexivity.
Qed.

Lemma map_flat_map {A B C : Type} (f : B -> C) (g : A -> list B) (l : list A) :
  List.map f (flat_map g l) = flat_map (fun x => List.map f (g x)) l.
Proof.
  induction l as [|x l IH]; [reflexivity|].
  cbn [flat_map]. now rewrite List.map_app, IH.
Qed.

Lemma met_at_tag href tag_name name attrs contents :
  met_at href tag_name (Tag name attrs contents)
  = (if str_eqb name tag_name
     then [(href, tag_name, mark_of (Tag name attrs contents))] else [])
    ++ flat_map (met_at href tag_name) contents.
Proof.
  unfold met_at. rewrite elements_at_tag, List.map_app, map_flat_map.
  cbn [is_tag_named]. now destruct (str_eqb name tag_name).
Qed.

Lemma extract_list_marks href tag_name contents :
  Forall (fun c => forall st n' st',
            extract_node href tag_name c st = (n', st') ->
            walk_marks (met_at href tag_name c) st st') contents ->
  forall st l' st',
  extract_list href tag_name contents st = (l', st') ->
  walk_marks (flat_map (met_at href tag_name) contents) st st'.
Proof.
  induction 1 as [|c cs Hc _ IH]; intros st l' st'.
  - intros [= <- <-]. apply walk_marks_nil.
  - rewrite extract_list_cons.
    destruct (extract_node href tag_name c st) as [c' sa] eqn:Ec.
    destruct (extract_list href tag_name cs sa) as [l'' sb] eqn:El.
    intros [= <- <-]. cbn [flat_map].
    eapply walk_marks_app; [eapply Hc, Ec | eapply IH, El].
Qed.

Lemma extract_node_marks href tag_name n :
  forall st n' st',
  extract_node href tag_name n st = (n', st') -> walk_marks (met_at href tag_name n) st st'.
Proof.
  induction n as [k s | name attrs contents IH] using node_induction; intros st n' st'.
  - intros [= <- <-]. apply walk_marks_nil.
  - rewrite extract_node_tag, met_at_tag.
    destruct (if str_eqb name tag_name then visit href tag_name attrs contents st
              else (attrs, st)) as [attrs' st1] eqn:Ev.
    destruct (extract_list href tag_name contents st1) as [contents' st2] eqn:El.
    intros [= <- <-].
    eapply walk_marks_app; [|eapply extract_list_marks; [exact IH | exact El]].
    destruct (str_eqb name tag_name) eqn:En.
    + apply bool_decide_eq_true in En. subst name. eapply visit_marks, Ev.
    + injection Ev as <- <-. apply walk_marks_nil.
Qed.

Lemma get_text_same_shape n n' : strip_attrs n' = strip_attrs n -> get_text n' = get_text n.
Proof. intros H. now rewrite <- (get_text_strip_attrs n'), H, get_text_strip_attrs. Qed.

Lemma extract_list_others href tag_name contents :
  Forall (fun c => forall st n' st',
            extract_node href tag_name c st = (n', st') ->
            forall h s, s <> tag_name -> met_at h s n' = met_at h s c) contents ->
  forall st l' st',
  extract_list href tag_name contents st = (l', st') ->
  forall h s, s <> tag_name -> flat_map (met_at h s) l' = flat_map (met_at h s) contents.
Proof.
  induction 1 as [|c cs Hc _ IH]; intros st l' st'.
  - now intros [= <- <-].
  - rewrite extract_list_cons.
    destruct (extract_node href tag_name c st) as [c' sa] eqn:Ec.
    destruct (extract_list href tag_name cs sa) as [l'' sb] eqn:El.
    intros [= <- <-] h s Hs. cbn [flat_map].
    now rewrite (Hc _ _ _ Ec h s Hs), (IH _ _ _ El h s Hs).
Qed.

(** The walk for one tag name changes nothing of what a walk for another
    one meets. *)
Lemma extract_node_others href tag_name n :
  forall st n' st',
  extract_node href tag_name n st = (n', st') ->
  forall h s, s <> tag_name -> met_at h s n' = met_at h s n.
Proof.
  induction n as [k s0 | name attrs contents IH] using node_induction; intros st n' st'.
  - now intros [= <- <-].
  - rewrite extract_node_tag.
    destruct (if str_eqb name tag_name then visit href tag_name attrs contents st
              else (attrs, st)) as [attrs' st1] eqn:Ev.
    destruct (extract_list href tag_name contents st1) as [contents' st2] eqn:El.
    intros [= <- <-] h s Hs. rewrite !met_at_tag.
    rewrite (extract_list_others _ _ _ IH _ _ _ El h s Hs). f_equal.
    destruct (str_eqb name s) eqn:En; [|reflexivity].
    apply bool_decide_eq_true in En. subst s.
    assert (Ea : attrs' = attrs).
    { destruct (str_eqb name tag_name) eqn:En'; [|now injection Ev].
      apply bool_decide_eq_true in En'. contradiction. }
    subst attrs'. unfold mark_of. cbn [attrs_of]. do 3 f_equal.
    apply get_text_same_shape. cbn [strip_attrs]. f_equal.
    eapply extract_list_ok; [|exact El].
    apply Forall_forall. intros c _. apply extract_node_ok.
Qed.

Lemma find_all_met href tag_name name attrs contents :
  List.map (fun elem => (href, tag_name, mark_of elem))
           (find_all tag_name (Tag name attrs contents))
  = flat_map (met_at href tag_name) contents.
Proof.
  unfold find_all. cbn [descendants].
  induction contents as [|c cs IH]; [reflexivity|].
  cbn [flat_map].
  change (c :: descendants c ++ flat_map (fun c0 => c0 :: descendants c0) cs)
    with ((c :: descendants c) ++ flat_map (fun c0 => c0 :: descendants c0) cs).
  now rewrite List.filter_app, List.map_app, IH.
Qed.

Lemma extract_tag_marks href tag_name soup st soup' st' :
  extract_tag href (soup, st) tag_name = (soup', st') ->
  walk_marks (met_in href soup tag_name) st st'
  /\ forall h s, s <> tag_name -> met_in h soup' s = met_in h soup s.
Proof.
  unfold extract_tag, met_in. cbn [fst snd]. destruct soup as [k s0 | name attrs contents].
  - intros [= <- <-]. split; [apply walk_marks_nil | reflexivity].
  - destruct (extract_list href tag_name contents st) as [contents' st2] eqn:El.
    intros [= <- <-]. split.
    + rewrite find_all_met. eapply extract_list_marks; [|exact El].
      apply Forall_forall. intros c _. apply extract_node_marks.
    + intros h s Hs. rewrite !find_all_met.
      eapply extract_list_others; [|exact El|exact Hs].
      apply Forall_forall. intros c _. apply extract_node_others.
Qed.

Lemma extract_tags_marks href tags : NoDup tags -> forall soup st soup' st',
  fold_left (extract_tag href) tags (soup, st) = (soup', st') ->
  walk_marks (flat_map (met_in href soup) tags) st st'.
Proof.
  induction 1 as [|tag tags Hnew Hnd IH]; intros soup st soup' st'.
  - intros [= <- <-]. apply walk_marks_nil.
  - cbn [fold_left flat_map].
    destruct (extract_tag href (soup, st) tag) as [soup1 st1] eqn:E1.
    intros H. apply IH in H. apply extract_tag_marks in E1 as [Hw Hothers].
    eapply walk_marks_app; [exact Hw|].
    replace (flat_map (met_in href soup) tags) with (flat_map (met_in href soup1) tags);
      [exact H|].
    clear -Hnew Hothers. induction tags as [|t tags IHt]; [reflexivity|].
    cbn [flat_map]. rewrite Hothers.
    + f_equal. apply IHt. intros Hin. apply Hnew. now apply list_elem_of_further.
    + intros ->. apply Hnew, list_elem_of_here.
Qed.

Lemma tags_to_extract_differ : NoDup TAGS_TO_EXTRACT.
Proof. apply (bool_decide_unpack (NoDup TAGS_TO_EXTRACT)). vm_compute. exact I. Qed.

Lemma load_item_marks it st it' st' :
  load_item it st = (it', st') ->
  walk_marks (if truthy (item_content it)
              then flat_map (met_in (item_name it) (BeautifulSoup (item_content it)))
                            TAGS_TO_EXTRACT
              else []) st st'.
Proof.
  unfold load_item. destruct (truthy (item_content it)); cbn [negb].
  - destruct (fold_left _ _ _) as [soup' st2] eqn:Ef. intros [= <- <-].
    eapply extract_tags_marks; [apply tags_to_extract_differ | exact Ef].
  - intros [= <- <-]. apply walk_marks_nil.
Qed.

Lemma load_items_marks book : forall st book' st',
  load_items book st = (book', st') -> walk_marks (met_marks book) st st'.
Proof.
  induction book as [|it0 more IH]; intros st book' st'.
  - intros [= <- <-]. apply walk_marks_nil.
  - cbn [load_items].
    destruct (load_item it0 st) as [it1 st1] eqn:E1.
    destruct (load_items more st1) as [more' st2] eqn:E2.
    intros [= <- <-]. unfold met_marks. cbn [flat_map].
    eapply walk_marks_app; [eapply load_item_marks, E1 | eapply IH, E2].
Qed.

Lemma met_marks_met book :
  met_marks book = List.map (fun x => (fst (fst x), snd (fst x), mark_of (snd x))) (met book).
Proof.
  unfold met_marks, met. induction book as [|it more IH]; [reflexivity|].
  cbn [flat_map]. rewrite List.map_app, <- IH. f_equal.
  destruct (truthy (item_content it)); [|reflexivity]. clear IH.
  induction TAGS_TO_EXTRACT as [|t tags IHt]; [reflexivity|].
  cbn [flat_map]. rewrite List.map_app, <- IHt. f_equal.
  unfold met_in. rewrite List.map_map. reflexivity.
Qed.

Lemma first_met_map {A B : Type} (f : A -> B) (key : B -> list N * list N)
    (key' : A -> list N * list N) (l : list A) :
  (forall x, key' x = key (f x)) ->
  forall earlier, first_met key (List.map f l) earlier = List.map f (first_met key' l earlier).
Proof.
  intros Hk. induction l as [|x l IH]; intros earlier; [reflexivity|].
  cbn [List.map first_met]. rewrite <- Hk.
  destruct (truthy (snd (key' x)) && negb (bool_decide (key' x ∈ earlier))).
  - cbn [List.map]. now rewrite IH.
  - apply IH.
Qed.

(** In a list of things met, the first of its key is kept. *)
Lemma first_met_first {A : Type} (key : A -> list N * list N) (l1 : list A) x l2 :
  truthy (snd (key x)) = true ->
  (forall y, y ∈ l1 -> key y <> key x) ->
  forall earlier, key x ∉ earlier -> x ∈ first_met key (l1 ++ x :: l2) earlier.
Proof.
  intros Hx. induction l1 as [|y l1 IH]; intros Hl1 earlier Hnew.
  - cbn [app first_met]. rewrite Hx, bool_decide_eq_false_2 by exact Hnew.
    apply list_elem_of_here.
  - cbn [app first_met].
    assert (Hy : key y <> key x) by (apply Hl1, list_elem_of_here).
    assert (Hl : forall z, z ∈ l1 -> key z <> key x)
      by (intros z Hz; apply Hl1; now apply list_elem_of_further).
    destruct (truthy (snd (key y)) && negb (bool_decide (key y ∈ earlier))).
    + apply list_elem_of_further, IH; [exact Hl|].
      intros [H|H]%elem_of_union; [|now apply Hnew].
      apply elem_of_singleton in H. now apply Hy.
    + now apply IH.
Qed.

Lemma Forall2_elem_r {A B : Type} (R : A -> B -> Prop) (l : list A) (k : list B) y :
  Forall2 R l k -> y ∈ k -> exists x, x ∈ l /\ R x y.
Proof.
  induction 1 as [|a b l k Hab _ IH]; intros Hy; [now apply elem_of_nil in Hy|].
  apply elem_of_cons in Hy as [->|Hy].
  - exists a. split; [apply list_elem_of_here | exact Hab].
  - destruct (IH Hy) as (x & Hx & Hr). exists x. split; [now apply list_elem_of_further | exact Hr].
Qed.

Lemma Forall2_of_map {X Y Z : Type} (f : Y -> Z) (R : X -> Z -> Prop) (l : list X) :
  forall k, Forall2 R l (List.map f k) -> Forall2 (fun x y => R x (f y)) l k.
Proof.
  induction l as [|x l IH]; intros [|y k] H; inversion H; subst; constructor; auto.
Qed.

(** The fragments are those of the elements met first, in the order in
    which they are met. *)
Lemma load_epub_first_met (book : list item) :
  Forall2 extracted_from (snd (load_epub book)) (first_met met_key (met book) ∅).
Proof.
  unfold load_epub.
  destruct (load_items book (Extraction [] ∅ 0)) as [book' st] eqn:E. cbn [snd].
  apply load_items_marks in E as [(news & En & Hn) _]. cbn [x_paragraphs x_seen app] in En, Hn.
  rewrite En. rewrite met_marks_met in Hn.
  rewrite (first_met_map _ mark_key met_key) in Hn by reflexivity.
  apply Forall2_of_map in Hn. eapply Forall2_impl; [exact Hn|].
  intros p [[href tag_name] elem] H. exact H.
Qed.

(** C6, amended: in the fragments [load_epub] extracts no two share the
    pair of item name and clean text; for every element of an extracted
    tag with a clean text that is not empty, in an item with content,
    exactly one fragment carries the item's name and that text, however
    many elements of the item have it.  The element kept is the one met
    first, and the elements are met item after item, in an item tag name
    after tag name in the order of [TAGS_TO_EXTRACT], and under one tag
    name in document order: the fragments are those of the elements whose
    pair was not met before, in this order, each with the tag name, the
    text and the identifier of its element; every element met later with
    the same pair is skipped. *)
Theorem load_epub_deduplicates (book : list item) :
  NoDup (List.map fragment_key (snd (load_epub book)))
  /\ (forall it tag_name elem,
        it ∈ book -> item_content it <> [] ->
        tag_name ∈ TAGS_TO_EXTRACT ->
        elem ∈ find_all tag_name (BeautifulSoup (item_content it)) ->
        get_text elem <> [] ->
        length (List.filter
                  (fun p => bool_decide (fragment_key p = (item_name it, get_text elem)))
                  (snd (load_epub book))) = 1)
  /\ Forall2 extracted_from (snd (load_epub book)) (first_met met_key (met book) ∅)
  /\ (forall before_it x after_it,
        met book = before_it ++ x :: after_it ->
        get_text (snd x) <> [] ->
        (forall y, y ∈ before_it -> met_key y <> met_key x) ->
        exists p, p ∈ snd (load_epub book) /\ fragment_key p = met_key x
                  /\ extracted_from p x).
Proof.
  split; [|split; [|split; [apply load_epub_first_met|]]].
  - unfold load_epub.
    destruct (load_items book (Extraction [] ∅ 0)) as [book' st] eqn:E. cbn [snd].
    apply load_items_ok in E as (Hsound & _ & _).
    apply Hsound. split; [apply NoDup_nil_2|]. intros k. cbn. split; intros H.
    + now apply elem_of_empty in H.
    + now apply elem_of_nil in H.
  - unfold load_epub.
    destruct (load_items book (Extraction [] ∅ 0)) as [book' st] eqn:E. cbn [snd].
    apply load_items_ok in E as (Hsound & _ & Hin).
    destruct Hsound as [Hnd Hkeys].
    { split; [apply NoDup_nil_2|]. intros k. cbn. split; intros H.
      - now apply elem_of_empty in H.
      - now apply elem_of_nil in H. }
    intros it tag_name elem Hit Hc Htag Helem Hne.
    apply one_fragment_of_key; [exact Hnd|].
    apply Hkeys. now apply (Hin it tag_name elem).
  - intros before_it x after_it Hmet Hne Hfirst.
    pose proof (load_epub_first_met book) as Hall. rewrite Hmet in Hall.
    assert (Hx : x ∈ first_met met_key (before_it ++ x :: after_it) ∅).
    { apply first_met_first; [|exact Hfirst|apply not_elem_of_empty].
      unfold met_key. cbn [snd]. now destruct (get_text (snd x)). }
    destruct (Forall2_elem_r _ _ _ _ Hall Hx) as (p & Hp & Hfrom).
    exists p. split; [exact Hp|]. split; [|exact Hfrom].
    destruct Hfrom as (Hh & _ & Ht & _). unfold fragment_key, met_key. now rewrite Hh, Ht.
Qed.

(** ** Extraction from subtitles *)

Lemma load_srt_as_blocks path (blocks : list (list N)) :
  flat_map (fun block =>
    match str_split nl block with
    | line0 :: line1 :: line2 :: more =>
        [ {| para_id := strip line0;
             original_text := strip (str_join nl (line2 :: more));
             translated_text := []; is_translated := false; item_href := path;
             element_type := py "subtitle"; original_html := None;
             timestamp := Some (strip line1) |} ]
    | _ => []
    end) blocks
  = List.map (subtitle_of path)
      (List.filter (fun lines => 3 <=? length lines) (List.map (str_split nl) blocks)).
Proof.
  induction blocks as [|b bs IH]; [reflexivity|].
  cbn [flat_map List.map List.filter]. rewrite IH.
  destruct (str_split nl b) as [|l0 [|l1 [|l2 more]]]; reflexivity.
Qed.

(** C7, amended: the text is cut at every pair of newlines; a block of
    fewer than three lines yields nothing and no error; every other block
    yields one fragment, in order, whose number and time are the first and
    the second line with the spaces around them stripped, whose text is the
    other lines joined by newlines and stripped, and whose kind is
    [subtitle]. *)
Theorem load_srt_blocks (path content : str) :
  load_srt path content
  = List.map (subtitle_of path)
      (List.filter (fun lines => 3 <=? length lines) (subtitle_blocks content))
  /\ Forall (fun f => element_type f = py "subtitle" /\ is_translated f = false
                      /\ translated_text f = [] /\ item_href f = path)
            (load_srt path content).
Proof.
  assert (H : load_srt path content
              = List.map (subtitle_of path)
                  (List.filter (fun lines => 3 <=? length lines) (subtitle_blocks content))).
  { unfold load_srt, subtitle_blocks. rewrite load_srt_as_blocks.
    now rewrite List.map_map. }
  split; [exact H|]. rewrite H. apply Forall_forall. intros f Hf.
  apply list_elem_of_In, in_map_iff in Hf as [lines [<- _]]. now repeat split.
Qed.

(** ** Filling the template of a fragment *)

Lemma replace_text_nodes_tag f name attrs contents i :
  replace_text_nodes f (Tag name attrs contents) i =
    let '(contents', i') := replace_list f contents i in
    (Tag name attrs contents', i').
Proof. reflexivity. Qed.

Lemma replace_nonblank_app f l1 l2 j :
  replace_nonblank f (l1 ++ l2) j
  = replace_nonblank f l1 j
    ++ replace_nonblank f l2 (j + length (List.filter nonblank l1)).
Proof.
  revert j. induction l1 as [|ks l1 IH]; intros j; cbn [app replace_nonblank List.filter].
  - now rewrite Nat.add_0_r.
  - destruct (nonblank ks); cbn [length app]; rewrite IH; [|reflexivity].
    now rewrite Nat.add_succ_r.
Qed.

Lemma replace_nonblank_ext f g l j :
  (forall i, j <= i < j + length (List.filter nonblank l) -> f i = g i) ->
  replace_nonblank f l j = replace_nonblank g l j.
Proof.
  revert j. induction l as [|ks l IH]; intros j H; [reflexivity|].
  cbn [replace_nonblank List.filter] in *. destruct (nonblank ks).
  - cbn [length] in H. rewrite (H j) by lia. f_equal. apply IH. intros i Hi. apply H. lia.
  - f_equal. now apply IH.
Qed.

Lemma replace_nonblank_none f l j :
  List.filter nonblank l = [] -> replace_nonblank f l j = l.
Proof.
  revert j. induction l as [|ks l IH]; intros j H; [reflexivity|].
  cbn [replace_nonblank List.filter] in *. destruct (nonblank ks); [discriminate|].
  f_equal. now apply IH.
Qed.

(** What the replacement does to a tree, read off its strings. *)
Lemma replace_text_nodes_strings f n : forall i n' i',
  replace_text_nodes f n i = (n', i') ->
  strings_of n' = replace_nonblank f (strings_of n) i
  /\ i' = i + length (List.filter nonblank (strings_of n))
  /\ skeleton n' = skeleton n.
Proof.
  induction n as [k s | name attrs contents IH] using node_induction; intros i n' i'.
  - cbn [replace_text_nodes strings_of replace_nonblank List.filter].
    unfold nonblank. cbn [snd].
    destruct (truthy (strip s)); intros [= <- <-].
    + destruct (f i); repeat split; cbn [length]; lia.
    + repeat split. cbn [length]. lia.
  - rewrite replace_text_nodes_tag.
    destruct (replace_list f contents i) as [contents' i2] eqn:El. intros [= <- <-].
    cbn [strings_of skeleton].
    enough (flat_map strings_of contents' = replace_nonblank f (flat_map strings_of contents) i
            /\ i2 = i + length (List.filter nonblank (flat_map strings_of contents))
            /\ List.map skeleton contents' = List.map skeleton contents)
      as (H1 & H2 & H3) by (now rewrite H3).
    revert i contents' i2 El. induction IH as [|c cs Hc _ IHcs]; intros i contents' i2.
    + intros [= <- <-]. repeat split. cbn. lia.
    + cbn [replace_list].
      destruct (replace_text_nodes f c i) as [c' ia] eqn:Ec.
      fold (replace_list f). destruct (replace_list f cs ia) as [l'' ib] eqn:Ecs.
      intros [= <- <-].
      apply Hc in Ec as (Hs & Hi & Hk). apply IHcs in Ecs as (Hs' & Hi' & Hk').
      cbn [flat_map List.map]. rewrite replace_nonblank_app, List.filter_app, length_app.
      repeat split.
      * now rewrite Hs, Hs', Hi.
      * lia.
      * now rewrite Hk, Hk'.
Qed.

Lemma strings_of_descendants n :
  strings_of n = as_string n ++ flat_map as_string (descendants n).
Proof.
  induction n as [k s | name attrs contents IH] using node_induction; [reflexivity|].
  cbn [strings_of as_string descendants app].
  induction IH as [|c cs Hc _ IHcs]; [reflexivity|].
  cbn [flat_map]. rewrite IHcs, Hc, flat_map_app. reflexivity.
Qed.

Lemma strings_descendants n : strings n = flat_map as_string (descendants n).
Proof.
  destruct n as [k s | name attrs contents]; [reflexivity|].
  exact (strings_of_descendants (Tag name attrs contents)).
Qed.

(** The members of [text_nodes] are the strings that are more than spaces,
    with their lengths. *)
Lemma text_nodes_lengths (ds : list node) :
  List.map node_len (List.filter is_text_node ds)
  = List.map (fun ks => length (snd ks)) (List.filter nonblank (flat_map as_string ds)).
Proof.
  induction ds as [|d ds IH]; [reflexivity|].
  cbn [flat_map List.filter]. rewrite List.filter_app, List.map_app, <- IH.
  destruct d as [k s | name attrs contents]; [|reflexivity].
  cbn [is_text_node as_string List.filter]. unfold nonblank. cbn [snd].
  now destruct (truthy (strip s)).
Qed.

(** The scan for the longest node, after the nodes [pre] of which [best] is
    the first longest. *)
Lemma max_scan_first_longest (l pre : list node) (best : nat) :
  first_longest (List.map node_len pre) best ->
  first_longest (List.map node_len (pre ++ l))
    (max_scan l (length pre) best (nth best (List.map node_len pre) 0)).
Proof.
  revert pre best. induction l as [|n l IH]; intros pre best Hb.
  - now rewrite app_nil_r.
  - cbn [max_scan]. destruct Hb as (Hlt & Hmax & Hfirst).
    rewrite length_map in Hlt, Hmax.
    assert (Hpre : forall j, j < length pre ->
              nth j (List.map node_len (pre ++ [n])) 0 = nth j (List.map node_len pre) 0).
    { intros j Hj. rewrite List.map_app, app_nth1; [reflexivity | now rewrite length_map]. }
    assert (Hlast : nth (length pre) (List.map node_len (pre ++ [n])) 0 = node_len n).
    { rewrite List.map_app, app_nth2; rewrite length_map; [|lia].
      now rewrite Nat.sub_diag. }
    replace (pre ++ n :: l) with ((pre ++ [n]) ++ l) by now rewrite <- app_assoc.
    replace (S (length pre)) with (length (pre ++ [n])) by (rewrite length_app; cbn; lia).
    destruct (nth best (List.map node_len pre) 0 <? node_len n) eqn:E.
    + apply Nat.ltb_lt in E. rewrite <- Hlast.
      apply IH. unfold first_longest. rewrite length_map, length_app.
      cbn [length]. repeat split.
      * lia.
      * intros j Hj. rewrite Hlast. destruct (decide (j = length pre)) as [->|Hne].
        -- now rewrite Hlast.
        -- rewrite Hpre by lia. specialize (Hmax j). lia.
      * intros j Hj. rewrite Hlast, Hpre by lia. specialize (Hmax j). lia.
    + apply Nat.ltb_ge in E. rewrite <- (Hpre best) by lia.
      apply IH. unfold first_longest. rewrite length_map, length_app.
      cbn [length]. repeat split.
      * lia.
      * intros j Hj. rewrite (Hpre best) by lia.
        destruct (decide (j = length pre)) as [->|Hne].
        -- now rewrite Hlast.
        -- rewrite Hpre by lia. apply Hmax. lia.
      * intros j Hj. rewrite (Hpre best), Hpre by lia. now apply Hfirst.
Qed.

Lemma index_of_max_first_longest (l : list node) :
  l <> [] -> first_longest (List.map node_len l) (index_of_max l).
Proof.
  intros Hne. destruct l as [|n l]; [now contradiction Hne|]. cbn [index_of_max].
  apply (max_scan_first_longest l [n] 0). unfold first_longest. cbn [List.map length].
  split; [lia|]. split; [|lia].
  intros j Hj. now replace j with 0 by lia.
Qed.

(** C8: without a title span in the template, the filled template has the
    elements of the template and a string wherever it has one; the strings
    that are only spaces stay; of the others, the longest, the first of
    them when several are as long, becomes the translated text and each
    other becomes the empty string.  When one string only is more than
    spaces, it is the longest, and the only one replaced. *)
Theorem fill_template_without_title (original_elem : node) (translated_text : str) :
  find_span (py "calibre1") original_elem = None ->
  let filled := fill_template original_elem translated_text in
  let lens := List.map (fun ks => length (snd ks))
                       (List.filter nonblank (strings original_elem)) in
  skeleton filled = skeleton original_elem
  /\ exists main,
       (lens <> [] -> first_longest lens main)
       /\ strings filled
          = replace_nonblank (fun j => Some (if j =? main then translated_text else []))
                             (strings original_elem) 0.
Proof.
  intros Hspan filled lens. unfold filled, fill_template. rewrite Hspan.
  pose proof (text_nodes_lengths (descendants original_elem)) as Hlens.
  rewrite <- strings_descendants in Hlens. fold lens in Hlens.
  set (text_nodes := List.filter is_text_node (descendants original_elem)) in *.
  assert (Hrep : forall f, exists n' i',
            replace_text_nodes f original_elem 0 = (n', i')
            /\ skeleton n' = skeleton original_elem
            /\ (text_nodes <> [] -> strings n' = replace_nonblank f (strings original_elem) 0)).
  { intros f. destruct (replace_text_nodes f original_elem 0) as [n' i'] eqn:E.
    exists n', i'. split; [reflexivity|].
    pose proof (replace_text_nodes_strings f original_elem 0 n' i' E) as (Hs & _ & Hk).
    split; [exact Hk|]. intros Hne.
    destruct original_elem as [k s | name attrs contents].
    - now contradiction Hne.
    - rewrite replace_text_nodes_tag in E.
      destruct (replace_list f contents 0). injection E as <- _. exact Hs. }
  destruct text_nodes as [|x [|y more]] eqn:Etn.
  - split; [reflexivity|]. exists 0. split.
    + intros Hne. now destruct lens.
    + symmetry. apply replace_nonblank_none.
      destruct (List.filter nonblank (strings original_elem)); [reflexivity|].
      cbn in Hlens. discriminate.
  - destruct (Hrep (fun i => if i =? 0 then Some translated_text else None))
      as (n' & i' & -> & Hk & Hs).
    cbn [fst]. split; [exact Hk|]. exists 0. split.
    + intros _. rewrite <- Hlens. unfold first_longest. cbn [List.map length].
      split; [lia|]. split; [|lia].
      intros j Hj. now replace j with 0 by lia.
    + rewrite Hs by discriminate. apply replace_nonblank_ext.
      intros i Hi.
      assert (Hone : length (List.filter nonblank (strings original_elem)) = 1).
      { apply (f_equal (@length nat)) in Hlens. cbn in Hlens. unfold lens in Hlens.
        now rewrite length_map in Hlens. }
      replace i with 0 by lia. reflexivity.
  - destruct (Hrep (fun i => Some (if i =? index_of_max (x :: y :: more)
                                   then translated_text else [])))
      as (n' & i' & -> & Hk & Hs).
    cbn [fst]. split; [exact Hk|]. exists (index_of_max (x :: y :: more)). split.
    + intros _. rewrite <- Hlens. now apply index_of_max_first_longest.
    + now apply Hs.
Qed.

(** ** The retranslation controller *)

Lemma remaining_mismatch_empty ps : remaining_mismatch ps ∅ = Some [].
Proof. unfold remaining_mismatch. now rewrite elements_empty. Qed.

Lemma finalize_shows (a a' : TranslatorApp) :
  finalize a = Finished a' ->
  exists remaining,
    remaining_mismatch (paragraphs a) (selected_for_auto_fix a) = Some remaining
    /\ paragraphs a' = paragraphs a
    /\ dispatched a' = dispatched a
    /\ shown a' = shown a ++ [match remaining with
                              | [] => Completed
                              | _ :: _ => CompletedWithWarnings (length remaining)
                              end].
Proof.
  unfold finalize, finalize_translation.
  destruct (remaining_mismatch _ _) as [remaining|]; [|discriminate].
  intros [= <-]. exists remaining. now repeat split.
Qed.

(** The first loop of [start_auto_fix_process] only adds to [to_retry], and
    a fragment it does not add, it removes from the selection. *)
Lemma auto_fix_pick_fold ps max_attempts (l : list nat) :
  forall to_retry selected attempts to_retry' selected' attempts',
  fold_left (auto_fix_pick ps max_attempts) l (Some (to_retry, selected, attempts))
    = Some (to_retry', selected', attempts') ->
  exists added, to_retry' = to_retry ++ added
    /\ (added = [] -> selected' = selected ∖ list_to_set l).
Proof.
  induction l as [|idx l IH]; intros to_retry selected attempts to_retry' selected' attempts'.
  - cbn. intros [= <- <- <-]. exists []. split; [now rewrite app_nil_r|].
    intros _. now rewrite difference_empty_L.
  - cbn [fold_left auto_fix_pick].
    destruct (_has_mismatch ps idx) as [[|]|].
    + destruct (attempts_of attempts idx <? max_attempts).
      * intros H. apply IH in H as (added & -> & _). exists (idx :: added).
        split; [now rewrite <- app_assoc|]. discriminate.
      * intros H. apply IH in H as (added & -> & Hsel). exists added.
        split; [reflexivity|]. intros Hnil. rewrite (Hsel Hnil).
        cbn [list_to_set foldr]. now rewrite difference_difference_l_L.
    + intros H. apply IH in H as (added & -> & Hsel). exists added.
      split; [reflexivity|]. intros Hnil. rewrite (Hsel Hnil).
      cbn [list_to_set foldr]. now rewrite difference_difference_l_L.
    + intros H. exfalso. clear IH. induction l as [|i l IHl]; [discriminate|].
      now apply IHl.
Qed.

Lemma pick_retries_none_left (a : TranslatorApp) selected attempts :
  pick_retries a = Some ([], selected, attempts) -> selected = ∅.
Proof.
  unfold pick_retries. intros H. apply auto_fix_pick_fold in H as (added & Hadd & Hsel).
  symmetry in Hadd. cbn in Hadd. rewrite (Hsel Hadd).
  rewrite list_to_set_elements_L. apply difference_diag_L.
Qed.

Lemma retry_paragraph_keeps (a a' : TranslatorApp) idx :
  retry_paragraph a idx = Some a' ->
  auto_fix_checked a' = auto_fix_checked a /\ shown a' = shown a
  /\ selected_for_auto_fix a' = selected_for_auto_fix a
  /\ dispatched a' = dispatched a ++ [idx].
Proof.
  unfold retry_paragraph. destruct (paragraphs a !! idx); [|discriminate].
  destruct (run _ _ _ _) as [[[ps wd] evs]|]; [|discriminate].
  intros [= <-]. now repeat split.
Qed.

Lemma retry_all_keeps (to_retry : list nat) : forall (a a' : TranslatorApp),
  retry_all a to_retry = Some a' ->
  auto_fix_checked a' = auto_fix_checked a /\ shown a' = shown a
  /\ selected_for_auto_fix a' = selected_for_auto_fix a
  /\ dispatched a' = dispatched a ++ to_retry.
Proof.
  unfold retry_all. induction to_retry as [|idx l IH]; intros a a'.
  - cbn. intros [= <-]. repeat split. now rewrite app_nil_r.
  - cbn [fold_left]. destruct (retry_paragraph a idx) as [a1|] eqn:E.
    + intros H. apply IH in H as (H1 & H2 & H3 & H4).
      apply retry_paragraph_keeps in E as (E1 & E2 & E3 & E4).
      rewrite H1, H2, H3, H4, E1, E2, E3, E4. repeat split. now rewrite <- app_assoc.
    + intros H. exfalso. clear IH. induction l as [|i l IHl]; [discriminate|].
      now apply IHl.
Qed.

(** With auto-fix checked, a run that ends shows the message of a run
    without mismatch, whatever the detector says of the fragments: a
    fragment whose attempts are used up has left the selection before the
    summary looks at it. *)
Theorem auto_fix_never_warns (rounds : nat) : forall (a a' : TranslatorApp),
  auto_fix_checked a = true ->
  start_auto_fix_process rounds a = Finished a' ->
  shown a' = shown a ++ [Completed].
Proof.
  induction rounds as [|rounds IH]; intros a a' Hchecked; [discriminate|].
  cbn [start_auto_fix_process].
  destruct (pick_retries a) as [[[to_retry selected] attempts]|] eqn:Hpick; [|discriminate].
  destruct to_retry as [|idx more].
  - apply pick_retries_none_left in Hpick. subst selected.
    intros H. apply finalize_shows in H as (remaining & Hrem & _ & _ & ->).
    cbn [with_selection paragraphs selected_for_auto_fix shown] in *.
    rewrite remaining_mismatch_empty in Hrem. now injection Hrem as <-.
  - destruct (retry_all _ _) as [a2|] eqn:Hretry; [|discriminate].
    apply retry_all_keeps in Hretry as (Hc & Hs & _ & _).
    cbn [with_selection auto_fix_checked shown] in Hc, Hs.
    unfold _check_auto_fix_complete. rewrite Hc, Hchecked.
    destruct (remaining_mismatch _ _) as [[|i l]|] eqn:Hrem; [| |discriminate].
    + intros H. apply finalize_shows in H as (remaining & Hrem' & _ & _ & ->).
      rewrite Hrem in Hrem'. injection Hrem' as <-. now rewrite Hs.
    + intros H. apply IH in H; [|now rewrite Hc]. now rewrite H, Hs.
Qed.

Lemma has_mismatch_after t p :
  para_has_mismatch (set_translation t true p)
  = existsb (fun b => b) (mismatch_checks (original_text p) t).
Proof. reflexivity. Qed.

Lemma pick_retries_single (a : TranslatorApp) idx p :
  paragraphs a !! idx = Some p ->
  para_has_mismatch p = true ->
  selected_for_auto_fix a = {[idx]} ->
  pick_retries a =
    if attempts_of (auto_fix_attempts a) idx <? max_auto_fix_attempts a
    then Some ([idx], {[idx]},
               <[idx := attempts_of (auto_fix_attempts a) idx + 1]> (auto_fix_attempts a))
    else Some ([], ∅, auto_fix_attempts a).
Proof.
  intros Hp Hm Hsel. unfold pick_retries. rewrite Hsel, elements_singleton.
  cbn [fold_left auto_fix_pick]. rewrite (has_mismatch_lookup _ _ _ Hp), Hm.
  destruct (_ <? _); [reflexivity|]. now rewrite difference_diag_L.
Qed.

(** One retry of a fragment whose translation comes back flagged. *)
Lemma retry_flagged (a : TranslatorApp) idx p prefix core suffix :
  split_prefix_suffix (original_text p) = (prefix, core, suffix) ->
  (forall ps world, exists r world',
     translate_core (settings a) ps idx core world = (Returned r, world')
     /\ existsb (fun b => b) (mismatch_checks (original_text p) (prefix ++ r ++ suffix)) = true) ->
  paragraphs a !! idx = Some p ->
  exists a' p',
    retry_paragraph a idx = Some a'
    /\ paragraphs a' !! idx = Some p'
    /\ original_text p' = original_text p
    /\ para_has_mismatch p' = true
    /\ selected_for_auto_fix a' = selected_for_auto_fix a
    /\ auto_fix_attempts a' = auto_fix_attempts a
    /\ max_auto_fix_attempts a' = max_auto_fix_attempts a
    /\ auto_fix_checked a' = auto_fix_checked a
    /\ settings a' = settings a
    /\ dispatched a' = dispatched a ++ [idx]
    /\ shown a' = shown a.
Proof.
  intros Hs Hflag Hp.
  assert (Hlt : idx < length (paragraphs a)) by (now apply lookup_lt_Some in Hp).
  destruct (Hflag (paragraphs a) (world a)) as (r & world' & Hcore & Hmis).
  unfold retry_paragraph. rewrite Hp. cbn [run].
  rewrite (run_one_stores _ _ _ _ _ _ Hp _ _ _ Hs), Hcore.
  eexists _, _. split; [reflexivity|]. cbn.
  unfold on_progress. cbn [p_idx p_text p_is_error negb].
  rewrite list_lookup_insert_eq by exact Hlt.
  rewrite list_insert_insert_eq, list_lookup_insert_eq by exact Hlt.
  split; [reflexivity|]. split; [reflexivity|]. split; [|now repeat split].
  rewrite has_mismatch_after. exact Hmis.
Qed.

(** A fragment whose every translation is flagged, alone in the selection,
    with [n] attempts left: it is retried [n] times, no more; it is flagged
    at the end; the message of the end is the one of a run without
    mismatch. *)
Theorem retries_stop_at_cap (n : nat) :
  forall (a : TranslatorApp) (idx : nat) (p : para) (prefix core suffix : str),
  split_prefix_suffix (original_text p) = (prefix, core, suffix) ->
  (forall ps world, exists r world',
     translate_core (settings a) ps idx core world = (Returned r, world')
     /\ existsb (fun b => b) (mismatch_checks (original_text p) (prefix ++ r ++ suffix)) = true) ->
  paragraphs a !! idx = Some p ->
  para_has_mismatch p = true ->
  selected_for_auto_fix a = {[idx]} ->
  auto_fix_checked a = true ->
  attempts_of (auto_fix_attempts a) idx + n = max_auto_fix_attempts a ->
  exists a',
    start_auto_fix_process (S n) a = Finished a'
    /\ dispatched a' = dispatched a ++ repeat idx n
    /\ shown a' = shown a ++ [Completed]
    /\ _has_mismatch (paragraphs a') idx = Some true.
Proof.
  induction n as [|n IH]; intros a idx p prefix core suffix Hs Hflag Hp Hm Hsel Hc Hn;
    cbn [start_auto_fix_process]; rewrite (pick_retries_single a idx p Hp Hm Hsel).
  - replace (_ <? _) with false by (symmetry; apply Nat.ltb_ge; lia).
    unfold finalize, finalize_translation.
    cbn [with_selection paragraphs selected_for_auto_fix].
    rewrite remaining_mismatch_empty. eexists. split; [reflexivity|].
    cbn. rewrite app_nil_r. repeat split.
    now rewrite (has_mismatch_lookup _ _ _ Hp), Hm.
  - replace (_ <? _) with true by (symmetry; apply Nat.ltb_lt; lia).
    set (a1 := with_selection _ _ a).
    destruct (retry_flagged a1 idx p prefix core suffix Hs Hflag Hp)
      as (a2 & p' & Hretry & Hp' & Ho & Hm' & Hsel' & Hatt & Hmax & Hc' & Hset & Hd & Hsh).
    unfold retry_all. cbn [fold_left]. rewrite Hretry.
    unfold _check_auto_fix_complete. rewrite Hc'. cbn [a1 with_selection auto_fix_checked].
    rewrite Hc. unfold remaining_mismatch. rewrite Hsel'.
    cbn [a1 with_selection selected_for_auto_fix]. rewrite elements_singleton.
    cbn [foldr]. rewrite (has_mismatch_lookup _ _ _ Hp'), Hm'.
    destruct (IH a2 idx p' prefix core suffix) as (a' & Hrun & Hd' & Hsh' & Hfin).
    + now rewrite Ho.
    + rewrite Hset, Ho. exact Hflag.
    + exact Hp'.
    + exact Hm'.
    + now rewrite Hsel'.
    + now rewrite Hc'.
    + rewrite Hatt, Hmax. cbn [a1 with_selection auto_fix_attempts max_auto_fix_attempts].
      unfold attempts_of at 1. rewrite lookup_insert_eq. cbn. lia.
    + exists a'. split; [exact Hrun|]. rewrite Hd', Hsh', Hd, Hsh.
      cbn [a1 with_selection dispatched shown repeat].
      split; [now rewrite <- app_assoc|]. now split.
Qed.

(** The first loop of [start_auto_fix_process] when every fragment of the
    selection has been tried [r] times: a fragment that stays selected has
    now been tried [r + 1] times, which the limit allows; at the limit no
    fragment is picked. *)
Lemma auto_fix_pick_counts ps max_attempts r (l : list nat) :
  NoDup l ->
  forall to_retry selected attempts to_retry' selected' attempts',
  fold_left (auto_fix_pick ps max_attempts) l (Some (to_retry, selected, attempts))
    = Some (to_retry', selected', attempts') ->
  (forall i, i ∈ l -> attempts_of attempts i = r) ->
  selected' ⊆ selected
  /\ (forall i, i ∈ selected' -> i ∈ l ->
        attempts_of attempts' i = r + 1 /\ r < max_attempts)
  /\ (forall i, i ∉ l -> attempts_of attempts' i = attempts_of attempts i)
  /\ (max_attempts <= r -> to_retry' = to_retry).
Proof.
  induction 1 as [|idx l Hidx Hnd IH];
    intros to_retry selected attempts to_retry' selected' attempts'.
  - cbn. intros [= <- <- <-] _. split; [reflexivity|]. split; [|now split].
    intros i _ Hi. now apply elem_of_nil in Hi.
  - cbn [fold_left auto_fix_pick]. intros Hfold Hr.
    assert (Hr' : attempts_of attempts idx = r) by (apply Hr, list_elem_of_here).
    assert (Hdiscard :
      fold_left (auto_fix_pick ps max_attempts) l
        (Some (to_retry, selected ∖ {[idx]}, attempts))
        = Some (to_retry', selected', attempts') ->
      selected' ⊆ selected
      /\ (forall i, i ∈ selected' -> i ∈ idx :: l ->
            attempts_of attempts' i = r + 1 /\ r < max_attempts)
      /\ (forall i, i ∉ idx :: l -> attempts_of attempts' i = attempts_of attempts i)
      /\ (max_attempts <= r -> to_retry' = to_retry)).
    { intros H. apply IH in H as (Hsub & Hin & Hout & Hcap).
      - split; [intros i Hi; apply Hsub in Hi; now apply elem_of_difference in Hi|].
        split; [|split; [|exact Hcap]].
        + intros i Hi Hl. apply elem_of_cons in Hl as [->|Hl]; [|now apply Hin].
          apply Hsub, elem_of_difference in Hi as [_ Hi].
          exfalso. apply Hi. now apply elem_of_singleton.
        + intros i Hi. apply Hout. intros Hl. apply Hi. now apply list_elem_of_further.
      - intros i Hi. apply Hr. now apply list_elem_of_further. }
    destruct (_has_mismatch ps idx) as [[|]|].
    + rewrite Hr' in Hfold. destruct (r <? max_attempts) eqn:Hlt; [|now apply Hdiscard].
      apply Nat.ltb_lt in Hlt. apply IH in Hfold as (Hsub & Hin & Hout & Hcap).
      * split; [exact Hsub|]. split; [|split].
        -- intros i Hi Hl. apply elem_of_cons in Hl as [->|Hl]; [|now apply Hin].
           split; [|exact Hlt]. rewrite (Hout idx Hidx). unfold attempts_of.
           now rewrite lookup_insert_eq.
        -- intros i Hi. rewrite Hout by (intros Hl; apply Hi; now apply list_elem_of_further).
           unfold attempts_of. rewrite lookup_insert_ne; [reflexivity|].
           intros ->. apply Hi, list_elem_of_here.
        -- intros Hge. lia.
      * intros i Hi. unfold attempts_of. rewrite lookup_insert_ne.
        -- apply Hr. now apply list_elem_of_further.
        -- intros ->. contradiction.
    + now apply Hdiscard.
    + exfalso. clear -Hfold. induction l as [|i l IHl]; [discriminate|]. now apply IHl.
Qed.

Lemma retry_paragraph_counters (a a' : TranslatorApp) idx :
  retry_paragraph a idx = Some a' ->
  auto_fix_attempts a' = auto_fix_attempts a
  /\ max_auto_fix_attempts a' = max_auto_fix_attempts a
  /\ selected_for_auto_fix a' = selected_for_auto_fix a.
Proof.
  unfold retry_paragraph. destruct (paragraphs a !! idx); [|discriminate].
  destruct (run _ _ _ _) as [[[ps wd] evs]|]; [|discriminate].
  intros [= <-]. now repeat split.
Qed.

Lemma retry_all_counters (to_retry : list nat) : forall (a a' : TranslatorApp),
  retry_all a to_retry = Some a' ->
  auto_fix_attempts a' = auto_fix_attempts a
  /\ max_auto_fix_attempts a' = max_auto_fix_attempts a
  /\ selected_for_auto_fix a' = selected_for_auto_fix a.
Proof.
  unfold retry_all. induction to_retry as [|idx l IH]; intros a a'.
  - cbn. intros [= <-]. now repeat split.
  - cbn [fold_left]. destruct (retry_paragraph a idx) as [a1|] eqn:E.
    + intros H. apply IH in H as (H1 & H2 & H3).
      apply retry_paragraph_counters in E as (E1 & E2 & E3).
      now rewrite H1, H2, H3, E1, E2, E3.
    + intros H. exfalso. clear IH. induction l as [|i l IHl]; [discriminate|].
      now apply IHl.
Qed.

(** The rounds of the retry loop are bounded by the attempts left: when
    every selected fragment has been tried [r] times and [n] attempts are
    left, [n + 1] rounds bring the run to its end. *)
Lemma auto_fix_rounds_suffice (n : nat) : forall (a : TranslatorApp) (r : nat),
  (forall i, i ∈ selected_for_auto_fix a -> attempts_of (auto_fix_attempts a) i = r) ->
  r + n = max_auto_fix_attempts a ->
  start_auto_fix_process (S n) a = Crashed
  \/ exists a', start_auto_fix_process (S n) a = Finished a'.
Proof.
  assert (Hfin : forall a0 : TranslatorApp,
            finalize a0 = Crashed \/ exists a', finalize a0 = Finished a').
  { intros a0. unfold finalize. destruct (finalize_translation a0); eauto. }
  induction n as [|n IH]; intros a r Hr Hn; cbn [start_auto_fix_process];
    destruct (pick_retries a) as [[[to_retry selected] attempts]|] eqn:Hpick; auto;
    apply auto_fix_pick_counts with (r := r) in Hpick as (Hsub & Hin & _ & Hcap);
    try apply NoDup_elements;
    try (intros i Hi; apply Hr; now apply elem_of_elements in Hi).
  - rewrite (Hcap ltac:(lia)). apply Hfin.
  - destruct to_retry as [|idx more]; [apply Hfin|].
    destruct (retry_all _ _) as [a2|] eqn:Hretry; auto.
    apply retry_all_counters in Hretry as (Hatt & Hmax & Hsel).
    cbn [with_selection auto_fix_attempts max_auto_fix_attempts selected_for_auto_fix]
      in Hatt, Hmax, Hsel.
    unfold _check_auto_fix_complete. destruct (auto_fix_checked a2); [|apply Hfin].
    destruct (remaining_mismatch _ _) as [[|i l]|]; auto.
    apply (IH a2 (r + 1)).
    + intros j Hj. rewrite Hsel in Hj. rewrite Hatt.
      apply Hin; [exact Hj|]. apply elem_of_elements. now apply Hsub.
    + rewrite Hmax. lia.
Qed.

Lemma attempts_start_at_zero (selected_items : list nat) (i : nat) :
  attempts_of (list_to_map (List.map (fun idx => (idx, 0)) selected_items)) i = 0.
Proof.
  unfold attempts_of. induction selected_items as [|idx l IH]; [reflexivity|].
  cbn [List.map list_to_map foldr]. destruct (decide (idx = i)) as [->|Hne].
  - now rewrite lookup_insert_eq.
  - now rewrite lookup_insert_ne.
Qed.

(** A run of [start_translation] comes to its end within as many rounds of
    the retry loop as the limit of attempts, and one: it never remains in
    the loop. *)
Theorem translation_run_ends (selected_items : list nat) (max_attempts : nat)
    (a : TranslatorApp) :
  start_translation (S max_attempts) selected_items max_attempts a = Crashed
  \/ exists a', start_translation (S max_attempts) selected_items max_attempts a
                = Finished a'.
Proof.
  unfold start_translation. destruct selected_items as [|idx0 more]; [eauto|].
  destruct (mapM _ _) as [jobs|]; auto.
  destruct (run _ _ _ _) as [[[ps wd] evs]|]; auto.
  unfold on_translation_finished. cbn [auto_fix_checked].
  destruct (auto_fix_checked a).
  - apply (auto_fix_rounds_suffice max_attempts _ 0); [|reflexivity].
    intros i _. cbn [auto_fix_attempts]. apply attempts_start_at_zero.
  - unfold finalize. destruct (finalize_translation _); eauto.
Qed.

(** ** The bracket and quote check *)

Lemma class_match_word x : class_match false [CWord] x = isword x.
Proof. unfold class_match. cbn. now rewrite Bool.orb_false_r. Qed.

Lemma match_at_inner_apostrophe bef rst :
  match_at inner_apostrophe (Subject bef rst) =
    if inner_apostrophe_at (head bef) rst
    then Some (Match (rev bef ++ rst) (length bef) (S (length bef)) ∅)
    else None.
Proof.
  unfold match_at, inner_apostrophe, whole, pos. cbn [rmatch before rest].
  change (ch "'") with 39%N.
  destruct bef as [|p bef]; [reflexivity|]. cbn [head inner_apostrophe_at].
  rewrite class_match_word. destruct (isword p); [|now destruct rst as [|? [|? ?]]].
  unfold step_char. cbn [rest before]. destruct rst as [|c rst]; [reflexivity|].
  destruct (39 =? c)%N; [|now destruct rst]. destruct rst as [|n rst]; [reflexivity|].
  rewrite class_match_word. cbn [andb]. now destruct (isword n).
Qed.

(** The leftmost match at or after a position, read on the text. *)
Lemma search_inner_apostrophe rst : forall bef,
  match search_go inner_apostrophe bef rst with
  | None => drop_inner_apostrophes (head bef) rst = rst
  | Some m =>
      exists pre c rst',
        rst = pre ++ c :: rst'
        /\ m = Match (rev bef ++ rst) (length bef + length pre)
                     (S (length bef + length pre)) ∅
        /\ drop_inner_apostrophes (head bef) rst
           = pre ++ drop_inner_apostrophes (Some c) rst'
  end.
Proof.
  induction rst as [|x xs IH]; intros bef; cbn [search_go];
    rewrite match_at_inner_apostrophe.
  - destruct (inner_apostrophe_at (head bef) []) eqn:E; [|reflexivity].
    now destruct (head bef).
  - destruct (inner_apostrophe_at (head bef) (x :: xs)) eqn:E.
    + exists [], x, xs. cbn [app length drop_inner_apostrophes]. rewrite E.
      now rewrite Nat.add_0_r.
    + specialize (IH (x :: bef)). cbn [head] in IH.
      destruct (search_go inner_apostrophe (x :: bef) xs) as [m|].
      * destruct IH as (pre & c & rst' & Hx & Hm & Hd).
        exists (x :: pre), c, rst'. cbn [drop_inner_apostrophes]. rewrite E, Hd.
        split; [now rewrite Hx|]. split; [|reflexivity].
        rewrite Hm. cbn [rev length]. rewrite <- app_assoc. cbn [app].
        f_equal; lia.
      * cbn [drop_inner_apostrophes]. now rewrite E, IH.
Qed.

Lemma skipn_rev_app (bef rst : list N) : skipn (length bef) (rev bef ++ rst) = rst.
Proof. rewrite <- (length_rev bef). apply drop_app_length. Qed.

Lemma between_nonempty text cur ms : between text cur ms <> [].
Proof. now destruct ms. Qed.

Lemma join_empty_cons (x : list N) (l : list (list N)) :
  l <> [] -> str_join [] (x :: l) = x ++ str_join [] l.
Proof. destruct l; [contradiction | reflexivity]. Qed.

(** The pieces between the apostrophes found, put together, are the text
    without them. *)
Lemma finditer_inner_apostrophe fuel : forall bef rst,
  length rst < fuel ->
  str_join [] (between (rev bef ++ rst) (length bef)
                 (finditer_go inner_apostrophe fuel bef rst))
  = drop_inner_apostrophes (head bef) rst.
Proof.
  induction fuel as [|fuel IH]; intros bef rst Hlen; [lia|].
  cbn [finditer_go]. pose proof (search_inner_apostrophe rst bef) as Hs.
  destruct (search_go inner_apostrophe bef rst) as [m|].
  - destruct Hs as (pre & c & rst' & Hx & -> & ->). cbn [m_start m_end].
    replace (S (length bef + length pre) - length bef) with (S (length pre)) by lia.
    replace (length bef + length pre <? S (length bef + length pre)) with true
      by (symmetry; apply Nat.ltb_lt; lia).
    assert (Htake : firstn (S (length pre)) rst = pre ++ [c]).
    { rewrite Hx. replace (pre ++ c :: rst') with ((pre ++ [c]) ++ rst')
        by now rewrite <- app_assoc.
      replace (S (length pre)) with (length (pre ++ [c]))
        by (rewrite length_app; cbn; lia).
      apply take_app_length. }
    assert (Hdrop : skipn (S (length pre)) rst = rst').
    { rewrite Hx. replace (pre ++ c :: rst') with ((pre ++ [c]) ++ rst')
        by now rewrite <- app_assoc.
      replace (S (length pre)) with (length (pre ++ [c]))
        by (rewrite length_app; cbn; lia).
      apply drop_app_length. }
    rewrite Htake, Hdrop. cbn [between m_start m_end].
    rewrite join_empty_cons by apply between_nonempty.
    assert (Hpiece : slice (rev bef ++ rst) (length bef) (length bef + length pre) = pre).
    { unfold slice. rewrite skipn_rev_app.
      replace (length bef + length pre - length bef) with (length pre) by lia.
      rewrite Hx. apply take_app_length. }
    rewrite Hpiece. f_equal.
    set (bef' := rev (pre ++ [c]) ++ bef).
    assert (H1 : rev bef' ++ rst' = rev bef ++ rst).
    { unfold bef'. rewrite rev_app_distr, rev_involutive, Hx, <- !app_assoc.
      reflexivity. }
    assert (H2 : length bef' = S (length bef + length pre)).
    { unfold bef'. rewrite length_app, length_rev, length_app. cbn. lia. }
    assert (H3 : head bef' = Some c).
    { unfold bef'. now rewrite rev_app_distr. }
    rewrite <- H1, <- H2, <- H3. apply IH.
    rewrite Hx, length_app in Hlen. cbn [length] in Hlen. lia.
  - cbn [between str_join]. now rewrite skipn_rev_app, Hs.
Qed.

(** [re.sub] with the apostrophe pattern and the empty replacement is the
    text without its inner apostrophes. *)
Lemma re_sub_inner_apostrophe text :
  re_sub inner_apostrophe [] text = drop_inner_apostrophes None text.
Proof.
  unfold re_sub, finditer.
  exact (finditer_inner_apostrophe (S (length text)) [] text (Nat.lt_succ_diag_r _)).
Qed.

Lemma str_count_char c s :
  str_count [c] s = length (List.filter (fun x => (c =? x)%N) s).
Proof.
  unfold str_count. induction s as [|x s IH]; [reflexivity|].
  cbn [count_go is_prefix length List.filter]. rewrite Bool.andb_true_r.
  destruct (c =? x)%N; cbn [length Nat.sub]; now rewrite IH.
Qed.

Lemma count_two a b s :
  a <> b -> str_count [a] s + str_count [b] s = count_of a b s.
Proof.
  intros Hab. rewrite !str_count_char. unfold count_of.
  induction s as [|x s IH]; [reflexivity|]. cbn [List.filter].
  destruct (a =? x)%N eqn:Ea, (b =? x)%N eqn:Eb; cbn [orb length]; try lia.
  apply N.eqb_eq in Ea, Eb. congruence.
Qed.

Lemma counts_eq_dec (a b : bracket_counts) :
  bool_decide (a = b)
  = (quotes a =? quotes b) && (parentheses a =? parentheses b)
    && (square_brackets a =? square_brackets b) && (curly_brackets a =? curly_brackets b).
Proof.
  destruct a as [q1 p1 s1 c1], b as [q2 p2 s2 c2]. cbn [quotes parentheses square_brackets curly_brackets].
  destruct (bool_decide _) eqn:E.
  - apply bool_decide_eq_true in E. injection E as -> -> -> ->.
    now rewrite !Nat.eqb_refl.
  - apply bool_decide_eq_false in E. symmetry.
    destruct (q1 =? q2) eqn:E1, (p1 =? p2) eqn:E2, (s1 =? s2) eqn:E3,
      (c1 =? c2) eqn:E4; try reflexivity.
    apply Nat.eqb_eq in E1, E2, E3, E4. subst. now contradiction E.
Qed.

Lemma count_brackets_quotes_counts text :
  count_brackets_quotes text =
    let filtered := drop_inner_apostrophes None text in
    {| quotes := count_of dquote (ch "'") filtered;
       parentheses := count_of (ch "(") (ch ")") filtered;
       square_brackets := count_of (ch "[") (ch "]") filtered;
       curly_brackets := count_of (ch "{") (ch "}") filtered |}.
Proof.
  unfold count_brackets_quotes. rewrite re_sub_inner_apostrophe. cbv zeta.
  f_equal; apply count_two; discriminate.
Qed.

(** The bracket and quote check of the detector, the ninth of its checks:
    it fires exactly when, once the apostrophes between two word characters
    are dropped from both texts, the quote marks, the parentheses, the
    square brackets or the curly brackets are not as many in the one as in
    the other. *)
Theorem bracket_quote_check (orig trans : str) :
  mismatch_checks orig trans !! 8
  = Some (negb (same_counts (drop_inner_apostrophes None orig)
                            (drop_inner_apostrophes None trans))).
Proof.
  unfold mismatch_checks. cbn [lookup list_lookup]. f_equal. f_equal.
  rewrite counts_eq_dec, !count_brackets_quotes_counts. reflexivity.
Qed.

(** With the program's own Ollama prompt the request is the same whatever
    the core is: the prompt ends in the text [{core_text}], which nothing
    fills in. *)
Theorem default_ollama_prompt_ignores_core (w : TranslationWorker) (context core core' : str) :
  llm_choice w = Ollama ->
  given (custom_ollama_prompt w) = None ->
  build_request w context core = build_request w context core'
  /\ exists prompt, build_request w context core
                    = inl (call_ollama_api (prompt ++ py "{core_text}")).
Proof.
  intros Hl Hc. unfold build_request. rewrite Hl, Hc. split; [reflexivity|].
  eexists. rewrite !app_assoc. reflexivity.
Qed.

(** ** Strings *)

Lemma is_prefix_app (p t : list N) : is_prefix p (p ++ t) = true.
Proof. induction p as [|x p IH]; [reflexivity|]. cbn. now rewrite N.eqb_refl. Qed.

Lemma is_prefix_spec (p s : list N) : is_prefix p s = true <-> exists t, s = p ++ t.
Proof.
  split.
  - revert s. induction p as [|x p IH]; intros s H; [now exists s|].
    destruct s as [|y s]; [discriminate|]. cbn in H.
    apply andb_prop in H as [Hx H]. apply N.eqb_eq in Hx as ->.
    apply IH in H as [t ->]. now exists t.
  - intros [t ->]. apply is_prefix_app.
Qed.

Lemma is_prefix_short (p s t : list N) :
  is_prefix p (s ++ t) = true -> length p <= length s -> is_prefix p s = true.
Proof.
  revert s. induction p as [|x p IH]; intros s H Hl; [reflexivity|].
  destruct s as [|y s]; [cbn in Hl; lia|]. cbn in *.
  apply andb_prop in H as [Hx H]. rewrite Hx. cbn. apply IH; [exact H | lia].
Qed.

Lemma split_go_0 (sep : list N) x s cur :
  split_go sep (x :: s) 0 cur =
    if is_prefix sep (x :: s) then rev cur :: split_go sep s (length sep - 1) []
    else split_go sep s 0 (x :: cur).
Proof. reflexivity. Qed.

Lemma split_go_skip (sep t b cur : list N) :
  split_go sep (t ++ b) (length t) cur = split_go sep b 0 cur.
Proof.
  induction t as [|x t IH]; [reflexivity|]. exact IH.
Qed.

Lemma str_in_cons (sub : list N) x s :
  str_in sub (x :: s) = is_prefix sub (x :: s) || str_in sub s.
Proof. reflexivity. Qed.

(** The first piece of a split ends where the separator first occurs. *)
Lemma split_go_first (sep a b : list N) : sep <> [] ->
  str_in sep (a ++ removelast sep) = false ->
  forall cur, split_go sep (a ++ sep ++ b) 0 cur = (rev cur ++ a) :: split_go sep b 0 [].
Proof.
  intros Hsep. induction a as [|x a IH]; intros Hin cur.
  - destruct sep as [|y sep']; [contradiction|]. rewrite app_nil_r.
    change ([] ++ (y :: sep') ++ b) with (y :: (sep' ++ b)).
    rewrite split_go_0.
    change (y :: (sep' ++ b)) with ((y :: sep') ++ b). rewrite is_prefix_app.
    f_equal. cbn [length]. rewrite Nat.sub_succ, Nat.sub_0_r. apply split_go_skip.
  - change ((x :: a) ++ removelast sep) with (x :: (a ++ removelast sep)) in Hin.
    rewrite str_in_cons in Hin. apply orb_false_elim in Hin as [Hp Hin].
    change ((x :: a) ++ sep ++ b) with (x :: (a ++ sep ++ b)). rewrite split_go_0.
    destruct (is_prefix sep (x :: a ++ sep ++ b)) eqn:E.
    + exfalso. rewrite (app_removelast_last 0%N Hsep) in E at 2.
      rewrite <- app_assoc in E.
      change (x :: a ++ removelast sep ++ [List.last sep 0%N] ++ b)
        with (x :: (a ++ removelast sep ++ ([List.last sep 0%N] ++ b))) in E.
      rewrite (app_assoc a) in E.
      change (x :: (a ++ removelast sep) ++ [List.last sep 0%N] ++ b)
        with ((x :: (a ++ removelast sep)) ++ ([List.last sep 0%N] ++ b)) in E.
      apply is_prefix_short in E; [congruence|].
      cbn [length]. rewrite length_app.
      rewrite (app_removelast_last 0%N Hsep) at 1. rewrite length_app. cbn. lia.
    + rewrite IH by exact Hin. cbn [rev]. now rewrite <- app_assoc.
Qed.

Lemma split_go_none (sep a : list N) : sep <> [] ->
  str_in sep a = false -> forall cur, split_go sep a 0 cur = [rev cur ++ a].
Proof.
  intros Hsep. induction a as [|x a IH]; intros Hin cur.
  - cbn. now rewrite app_nil_r.
  - rewrite str_in_cons in Hin. apply orb_false_elim in Hin as [Hp Hin].
    rewrite split_go_0, Hp, IH by exact Hin. cbn [rev]. now rewrite <- app_assoc.
Qed.

Lemma split_go_nonempty (sep s : list N) : forall skip cur, split_go sep s skip cur <> [].
Proof.
  induction s as [|x s IH]; intros skip cur; [discriminate|].
  destruct skip as [|k]; [|apply IH].
  rewrite split_go_0. destruct (is_prefix sep (x :: s)); [discriminate | apply IH].
Qed.

Lemma str_join_cons (sep p : list N) l :
  l <> [] -> str_join sep (p :: l) = p ++ sep ++ str_join sep l.
Proof. destruct l; [contradiction | reflexivity]. Qed.

(** Joining the pieces of a split gives the text back. *)
Lemma join_split_go (sep : list N) : sep <> [] ->
  forall n s cur, length s <= n -> str_join sep (split_go sep s 0 cur) = rev cur ++ s.
Proof.
  intros Hsep. induction n as [|n IH]; intros s cur Hn.
  - destruct s; [|cbn in Hn; lia]. cbn. now rewrite app_nil_r.
  - destruct s as [|x s]; [cbn; now rewrite app_nil_r|].
    rewrite split_go_0. destruct (is_prefix sep (x :: s)) eqn:E.
    + apply is_prefix_spec in E as [b E]. destruct sep as [|y sep']; [contradiction|].
      injection E as -> ->. cbn [length]. rewrite Nat.sub_succ, Nat.sub_0_r.
      rewrite split_go_skip, str_join_cons by apply split_go_nonempty.
      rewrite IH; [reflexivity|]. cbn in Hn. rewrite length_app in Hn. lia.
    + rewrite IH by (cbn in Hn; lia). cbn [rev]. now rewrite <- app_assoc.
Qed.

Lemma join_split (sep s : list N) : sep <> [] -> str_join sep (str_split sep s) = s.
Proof. intros H. unfold str_split. now rewrite (join_split_go sep H (length s)). Qed.

Lemma str_in_char_app (c : N) (a b : list N) :
  str_in [c] (a ++ b) = str_in [c] a || str_in [c] b.
Proof.
  induction a as [|x a IH]; [reflexivity|].
  change ((x :: a) ++ b) with (x :: (a ++ b)). rewrite !str_in_cons, IH.
  cbn. now rewrite orb_assoc.
Qed.

Lemma length_lstrip s : length (lstrip s) <= length s.
Proof.
  induction s as [|x s IH]; [reflexivity|]. cbn. destruct (isspace x); cbn; lia.
Qed.

Lemma lstrip_fixed x s : lstrip (x :: s) = x :: s <-> isspace x = false.
Proof.
  cbn. destruct (isspace x) eqn:E; split; try easy.
  intros H. pose proof (length_lstrip s) as Hl. rewrite H in Hl. cbn in Hl. lia.
Qed.

Lemma lstrip_app a b : lstrip a = a -> a <> [] -> lstrip (a ++ b) = a ++ b.
Proof.
  destruct a as [|x a]; [easy|]. intros H _. apply lstrip_fixed in H.
  change ((x :: a) ++ b) with (x :: (a ++ b)). now apply lstrip_fixed.
Qed.

Lemma rstrip_fixed_rev s : rstrip s = s <-> lstrip (rev s) = rev s.
Proof.
  unfold rstrip. split; intros H.
  - rewrite <- H at 2. now rewrite rev_involutive.
  - rewrite H. apply rev_involutive.
Qed.

Lemma rstrip_app a b : rstrip b = b -> b <> [] -> rstrip (a ++ b) = a ++ b.
Proof.
  intros H Hb. apply rstrip_fixed_rev. rewrite rev_app_distr.
  apply lstrip_app; [now apply rstrip_fixed_rev|].
  intros E. apply Hb. rewrite <- (rev_involutive b), E. reflexivity.
Qed.

Lemma length_rstrip s : length (rstrip s) <= length s.
Proof.
  unfold rstrip. rewrite length_rev. rewrite <- (length_rev s). apply length_lstrip.
Qed.

(** A text that [strip] leaves as it is has no space at either end. *)
Lemma strip_fixed s : strip s = s <-> lstrip s = s /\ rstrip s = s.
Proof.
  unfold strip. split.
  - intros H.
    assert (Hl : lstrip s = s).
    { destruct s as [|x s]; [reflexivity|]. apply lstrip_fixed.
      destruct (isspace x) eqn:E; [|reflexivity]. exfalso.
      pose proof (length_rstrip (lstrip (x :: s))) as H1. rewrite H in H1.
      cbn in H1. rewrite E in H1. pose proof (length_lstrip s). lia. }
    split; [exact Hl|]. now rewrite Hl in H.
  - intros [-> ->]. reflexivity.
Qed.

Lemma strip_app a m b :
  strip a = a -> a <> [] -> strip b = b -> b <> [] -> strip (a ++ m ++ b) = a ++ m ++ b.
Proof.
  intros Ha Ha' Hb Hb'. apply strip_fixed in Ha as [Ha _]. apply strip_fixed in Hb as [_ Hb].
  apply strip_fixed. split.
  - now apply lstrip_app.
  - rewrite !app_assoc. now apply rstrip_app.
Qed.

Lemma rstrip_last s : rstrip s = s -> s <> [] ->
  exists s0 z, s = s0 ++ [z] /\ isspace z = false.
Proof.
  intros H Hs. apply rstrip_fixed_rev in H.
  destruct (rev s) as [|z r] eqn:E.
  - exfalso. apply Hs. rewrite <- (rev_involutive s), E. reflexivity.
  - apply lstrip_fixed in H. exists (rev r), z. split; [|exact H].
    rewrite <- (rev_involutive s), E. reflexivity.
Qed.
(** ** Writing subtitles and reading them back *)

Lemma is_prefix_char (c x : N) (s : list N) : is_prefix [c] (x :: s) = (c =? x)%N.
Proof. cbn [is_prefix]. apply andb_true_r. Qed.

Lemma is_prefix_pair (a b x y : N) (s : list N) :
  is_prefix [a; b] (x :: y :: s) = ((a =? x)%N && (b =? y)%N).
Proof. cbn [is_prefix]. now rewrite andb_true_r. Qed.

Lemma is_prefix_head (c x : N) (p s : list N) :
  (c =? x)%N = false -> is_prefix (c :: p) (x :: s) = false.
Proof. intros H. cbn [is_prefix]. now rewrite H. Qed.

Lemma universal_newlines_id s : str_in [13%N] s = false -> universal_newlines s = s.
Proof.
  induction s as [|x s IH]; [reflexivity|]. rewrite str_in_cons, is_prefix_char.
  intros H. apply orb_false_elim in H as [Hx H]. cbn [universal_newlines].
  rewrite N.eqb_sym, Hx. now rewrite IH.
Qed.

Lemma double_newline_skip a t :
  str_in nl a = false -> str_in (nl ++ nl) (a ++ t) = str_in (nl ++ nl) t.
Proof.
  induction a as [|x a IH]; [reflexivity|]. unfold nl at 1. rewrite str_in_cons, is_prefix_char.
  intros H. apply orb_false_elim in H as [Hx H].
  change ((x :: a) ++ t) with (x :: (a ++ t)). rewrite str_in_cons, IH by exact H.
  change (nl ++ nl) with [10%N; 10%N]. now rewrite is_prefix_head.
Qed.

Lemma double_newline_after y t :
  (10 =? y)%N = false -> str_in (nl ++ nl) (10%N :: y :: t) = str_in (nl ++ nl) (y :: t).
Proof.
  intros H. rewrite str_in_cons. change (nl ++ nl) with [10%N; 10%N].
  now rewrite is_prefix_pair, H, andb_false_r.
Qed.

Lemma double_newline_snoc s0 z :
  (10 =? z)%N = false ->
  str_in (nl ++ nl) (s0 ++ [z]) = false -> str_in (nl ++ nl) (s0 ++ [z] ++ nl) = false.
Proof.
  intros Hz. change (nl ++ nl) with [10%N; 10%N]. induction s0 as [|x s0 IH].
  - intros _. change ([] ++ [z] ++ nl) with [z; 10%N].
    rewrite str_in_cons, is_prefix_pair, Hz. reflexivity.
  - change ((x :: s0) ++ [z]) with (x :: (s0 ++ [z])).
    change ((x :: s0) ++ [z] ++ nl) with (x :: (s0 ++ [z] ++ nl)).
    rewrite !str_in_cons. intros H. apply orb_false_elim in H as [Hp H].
    rewrite IH by exact H. rewrite orb_false_r.
    destruct s0 as [|y s0].
    + change ([] ++ [z] ++ nl) with [z; 10%N]. now rewrite is_prefix_pair, Hz, andb_false_r.
    + change ((y :: s0) ++ [z] ++ nl) with (y :: (s0 ++ [z] ++ nl)).
      change ((y :: s0) ++ [z]) with (y :: (s0 ++ [z])) in Hp.
      rewrite is_prefix_pair in *. exact Hp.
Qed.

Lemma space_10 : isspace 10 = true.
Proof. reflexivity. Qed.

Lemma not_space_not_newline z : isspace z = false -> (10 =? z)%N = false.
Proof.
  intros H. destruct (10 =? z)%N eqn:E; [|reflexivity].
  apply N.eqb_eq in E as <-. now rewrite space_10 in H.
Qed.

Lemma clean_line_spec s :
  clean_line s = true ->
  s <> [] /\ strip s = s /\ str_in nl s = false /\ str_in [13%N] s = false
  /\ encodable s = true.
Proof.
  unfold clean_line, str_eqb. intros H.
  repeat (apply andb_prop in H as [H ?]).
  repeat match goal with
         | X : negb _ = true |- _ => apply negb_true_iff in X
         | X : bool_decide _ = true |- _ => apply bool_decide_eq_true in X
         end.
  repeat split; try assumption. intros ->. discriminate.
Qed.

Lemma clean_text_spec s :
  clean_text s = true ->
  s <> [] /\ strip s = s /\ str_in (nl ++ nl) s = false /\ str_in [13%N] s = false
  /\ encodable s = true.
Proof.
  unfold clean_text, str_eqb. intros H.
  repeat (apply andb_prop in H as [H ?]).
  repeat match goal with
         | X : negb _ = true |- _ => apply negb_true_iff in X
         | X : bool_decide _ = true |- _ => apply bool_decide_eq_true in X
         end.
  repeat split; try assumption. intros ->. discriminate.
Qed.

(** The text of a block, between two pairs of newlines, holds no pair of
    newlines that [split] could find. *)
Lemma block_has_no_break number stamp text :
  clean_line number = true -> clean_line stamp = true -> clean_text text = true ->
  str_in (nl ++ nl) ((number ++ nl ++ stamp ++ nl ++ text) ++ nl) = false.
Proof.
  intros Hn Hs Ht.
  apply clean_line_spec in Hn as (_ & _ & Hn & _).
  apply clean_line_spec in Hs as (Hs0 & Hs1 & Hs & _).
  apply clean_text_spec in Ht as (Ht0 & Ht1 & Ht & _).
  apply strip_fixed in Hs1 as [Hs1 _]. apply strip_fixed in Ht1 as [Ht1 Ht2].
  destruct stamp as [|y stamp]; [contradiction|].
  destruct text as [|v text]; [contradiction|].
  apply lstrip_fixed, not_space_not_newline in Hs1.
  apply lstrip_fixed, not_space_not_newline in Ht1.
  apply rstrip_last in Ht2 as (s0 & z & E & Hz); [|discriminate].
  apply not_space_not_newline in Hz.
  rewrite <- !app_assoc. rewrite double_newline_skip by exact Hn.
  change (nl ++ (y :: stamp) ++ nl ++ (v :: text) ++ nl)
    with (10%N :: y :: (stamp ++ nl ++ (v :: text) ++ nl)).
  rewrite double_newline_after by exact Hs1.
  change (y :: (stamp ++ nl ++ (v :: text) ++ nl))
    with ((y :: stamp) ++ (nl ++ (v :: text) ++ nl)).
  rewrite double_newline_skip by exact Hs.
  change (nl ++ (v :: text) ++ nl) with (10%N :: v :: (text ++ nl)).
  rewrite double_newline_after by exact Ht1.
  change (v :: (text ++ nl)) with ((v :: text) ++ nl).
  rewrite E in *. rewrite <- app_assoc. now apply double_newline_snoc.
Qed.

(** [load_srt] reads a first block that no pair of newlines cuts, and goes
    on with what follows the pair after it. *)
Lemma load_srt_block path number stamp text content :
  clean_line number = true -> clean_line stamp = true -> clean_text text = true ->
  load_srt path ((number ++ nl ++ stamp ++ nl ++ text) ++ (nl ++ nl) ++ content)
  = {| para_id := number; original_text := text; translated_text := [];
       is_translated := false; item_href := path; element_type := py "subtitle";
       original_html := None; timestamp := Some stamp |} :: load_srt path content.
Proof.
  intros Hn Hs Ht. pose proof (block_has_no_break _ _ _ Hn Hs Ht) as Hb.
  apply clean_line_spec in Hn as (Hn0 & Hn1 & Hn & _).
  apply clean_line_spec in Hs as (Hs0 & Hs1 & Hs & _).
  apply clean_text_spec in Ht as (Ht0 & Ht1 & Ht & _).
  set (block := number ++ nl ++ stamp ++ nl ++ text) in *.
  assert (Hstrip : strip block = block).
  { unfold block.
    replace (number ++ nl ++ stamp ++ nl ++ text)
      with (number ++ (nl ++ stamp ++ nl) ++ text) by now rewrite <- !app_assoc.
    now apply strip_app. }
  assert (Hblock : block <> []).
  { unfold block. destruct number; [contradiction | discriminate]. }
  assert (Hlines : exists line2 more,
            str_split nl block = number :: stamp :: line2 :: more
            /\ str_join nl (line2 :: more) = text).
  { unfold block, str_split.
    rewrite split_go_first; [|discriminate|now rewrite app_nil_r].
    rewrite split_go_first; [|discriminate|now rewrite app_nil_r].
    pose proof (join_split nl text ltac:(discriminate)) as J. unfold str_split in J.
    destruct (split_go nl text 0 []) as [|line2 more] eqn:E;
      [now apply split_go_nonempty in E|].
    exists line2, more. split; [reflexivity | exact J]. }
  destruct Hlines as (line2 & more & Hlines & Hjoin).
  assert (Hcut : str_split (nl ++ nl) (block ++ (nl ++ nl) ++ content)
                 = block :: str_split (nl ++ nl) content).
  { unfold str_split. now rewrite split_go_first. }
  unfold load_srt. rewrite Hcut. cbn [List.filter]. rewrite Hstrip.
  destruct (truthy block) eqn:Etruthy; [|destruct block; [contradiction | discriminate]].
  cbn [List.map flat_map]. rewrite Hstrip, Hlines, Hjoin, Hn1, Hs1, Ht1. reflexivity.
Qed.

Lemma srt_write_from ps : forall written,
  srt_write ps written = (written ++ fst (srt_write ps []), snd (srt_write ps [])).
Proof.
  induction ps as [|p ps IH]; intros written; [cbn; now rewrite app_nil_r|].
  cbn [srt_write]. destruct (negb (encodable (para_id p))); [cbn; now rewrite app_nil_r|].
  destruct (timestamp p) as [stamp|]; [|reflexivity].
  destruct (negb (encodable stamp)); [reflexivity|].
  destruct (negb (encodable _)); [cbn; now rewrite <- app_assoc|].
  match goal with
  | |- srt_write ps ?a = (_ ++ fst (srt_write ps ?b), _) => rewrite (IH a), (IH b)
  end.
  cbn [fst snd]. f_equal. rewrite <- !app_assoc. reflexivity.
Qed.

Lemma srt_written_reads_back (path : str) (ps : list para) :
  forallb writable ps = true ->
  exists written,
    SRTCreator_run ps = (written, false)
    /\ load_srt path (universal_newlines written) = List.map (reloaded path) ps.
Proof.
  unfold SRTCreator_run. intros H.
  assert (exists written, srt_write ps [] = (written, false)
            /\ str_in [13%N] written = false
            /\ load_srt path written = List.map (reloaded path) ps) as (c & E & H13 & Hc).
  { induction ps as [|p ps IH]; [exists []; now repeat split|].
    cbn [forallb] in H. apply andb_prop in H as [Hp H].
    destruct (IH H) as (c & E & H13 & Hc). clear IH.
    unfold writable in Hp. apply andb_prop in Hp as [Hp Ht].
    apply andb_prop in Hp as [Hn Hs].
    destruct (timestamp p) as [stamp|] eqn:Estamp; [|discriminate].
    pose proof (clean_line_spec _ Hn) as (_ & _ & _ & Rn & En).
    pose proof (clean_line_spec _ Hs) as (_ & _ & _ & Rs & Es).
    pose proof (clean_text_spec _ Ht) as (_ & _ & _ & Rt & Et).
    exists ((para_id p ++ nl ++ stamp ++ nl ++ shown_text p) ++ (nl ++ nl) ++ c).
    split; [|split].
    - cbn [srt_write]. rewrite En, Estamp, Es. fold (shown_text p). rewrite Et.
      cbn [negb]. rewrite srt_write_from, E. cbn [fst snd app].
      now rewrite <- !app_assoc.
    - rewrite !str_in_char_app, Rn, Rs, Rt, H13. reflexivity.
    - rewrite load_srt_block by assumption. cbn [List.map]. f_equal; [|exact Hc].
      unfold reloaded. now rewrite Estamp. }
  exists c. split; [exact E|]. now rewrite universal_newlines_id.
Qed.

(** A subtitle file that is saved and opened again gives the fragments back:
    when every fragment has a number and a time that are clean lines and a
    text to show that holds no empty line, [SRTCreator.run] ends without an
    error, and [load_srt] makes of the text it wrote the same fragments in
    the same order, with the text that was shown as the original text. *)
Theorem srt_save_then_load (path : str) (ps : list para) :
  forallb writable ps = true ->
  exists written,
    SRTCreator_run ps = (written, false)
    /\ load_srt path (universal_newlines written) = List.map (reloaded path) ps.
Proof.
  apply srt_written_reads_back.
Qed.

(** ** What [load_srt] returns *)

Lemma is_prefix_long (p s t : list N) : is_prefix p s = true -> is_prefix p (s ++ t) = true.
Proof.
  intros H. apply is_prefix_spec in H as [r ->]. rewrite <- app_assoc. apply is_prefix_app.
Qed.

Lemma str_in_app_r (sub a t : list N) : str_in sub t = true -> str_in sub (a ++ t) = true.
Proof.
  intros H. induction a as [|x a IH]; [exact H|].
  change ((x :: a) ++ t) with (x :: (a ++ t)). rewrite str_in_cons, IH. apply orb_true_r.
Qed.

Lemma str_in_app_l (sub t b : list N) : str_in sub t = true -> str_in sub (t ++ b) = true.
Proof.
  induction t as [|x t IH].
  - cbn [str_in]. rewrite orb_false_r. intros H.
    destruct sub; [|discriminate]. now destruct b.
  - rewrite str_in_cons. intros H. apply orb_prop in H as [H|H].
    + change ((x :: t) ++ b) with (x :: (t ++ b)). rewrite str_in_cons.
      change (x :: (t ++ b)) with ((x :: t) ++ b). now rewrite is_prefix_long.
    + change ((x :: t) ++ b) with (x :: (t ++ b)). rewrite str_in_cons, IH by exact H.
      apply orb_true_r.
Qed.

Lemma lstrip_suffix s : exists a, s = a ++ lstrip s.
Proof.
  induction s as [|x s [a IH]]; [now exists []|]. cbn [lstrip].
  destruct (isspace x); [|now exists []]. exists (x :: a). cbn. now rewrite <- IH.
Qed.

Lemma rstrip_prefix s : exists b, s = rstrip s ++ b.
Proof.
  unfold rstrip. destruct (lstrip_suffix (rev s)) as [a E]. exists (rev a).
  rewrite <- rev_app_distr, <- E. now rewrite rev_involutive.
Qed.

Lemma str_in_strip (sub s : list N) : str_in sub s = false -> str_in sub (strip s) = false.
Proof.
  intros H. destruct (str_in sub (strip s)) eqn:E; [|reflexivity].
  unfold strip in E. destruct (lstrip_suffix s) as [a Ea].
  destruct (rstrip_prefix (lstrip s)) as [b Eb].
  rewrite Ea, Eb in H. rewrite str_in_app_r in H; [discriminate|].
  now apply str_in_app_l.
Qed.

Lemma lstrip_head s : lstrip (lstrip s) = lstrip s.
Proof.
  induction s as [|x s IH]; [reflexivity|]. cbn [lstrip].
  destruct (isspace x) eqn:E; [exact IH|]. cbn [lstrip]. now rewrite E.
Qed.

(** [strip] of a text that [strip] made changes nothing. *)
Lemma strip_strip s : strip (strip s) = strip s.
Proof.
  apply strip_fixed. split.
  - unfold strip. destruct (rstrip_prefix (lstrip s)) as [b E].
    destruct (rstrip (lstrip s)) as [|x r] eqn:Er; [reflexivity|].
    apply lstrip_fixed. pose proof (lstrip_head s) as H. rewrite E in H.
    change ((x :: r) ++ b) with (x :: (r ++ b)) in H. now apply lstrip_fixed in H.
  - unfold strip, rstrip. rewrite rev_involutive, lstrip_head. reflexivity.
Qed.

Lemma lstrip_keeps x (a b : list N) : isspace x = false -> lstrip (a ++ x :: b) <> [].
Proof.
  intros H. induction a as [|y a IH]; cbn [app lstrip]; [now rewrite H|].
  now destruct (isspace y).
Qed.

(** A text that holds a character that is no space is not stripped to
    nothing. *)
Lemma strip_keeps x (a b : list N) : isspace x = false -> strip (a ++ x :: b) <> [].
Proof.
  intros H. unfold strip, rstrip.
  destruct (lstrip_suffix (a ++ x :: b)) as [pre E].
  assert (Hin : exists a' b', lstrip (a ++ x :: b) = a' ++ x :: b') .
  { clear E. induction a as [|y a IH]; cbn [app lstrip].
    - rewrite H. now exists [], b.
    - destruct (isspace y); [exact IH|]. now exists (y :: a), b. }
  destruct Hin as (a' & b' & ->). rewrite rev_app_distr. cbn [rev].
  rewrite <- app_assoc. intros E'.
  apply (f_equal (@rev N)) in E'. rewrite rev_involutive in E'. cbn in E'.
  now apply (lstrip_keeps x (rev b') (rev a')) in H.
Qed.

Lemma split_go_first_piece (sep s : list N) : forall cur,
  exists t l, split_go sep s 0 cur = (rev cur ++ t) :: l.
Proof.
  induction s as [|x s IH]; intros cur.
  - exists [], []. cbn. now rewrite app_nil_r.
  - rewrite split_go_0. destruct (is_prefix sep (x :: s)).
    + exists [], (split_go sep s (length sep - 1) []). now rewrite app_nil_r.
    + destruct (IH (x :: cur)) as (t & l & ->). exists (x :: t), l.
      cbn [rev]. now rewrite <- app_assoc.
Qed.

Lemma snoc_cases (l : list N) : l = [] \/ exists l' y, l = l' ++ [y].
Proof. induction l using rev_ind; [now left | right; eauto]. Qed.

Lemma no_start_free (sep r s : list N) : sep <> [] ->
  (forall c1 c2, r = c1 ++ c2 -> c2 <> [] -> is_prefix sep (c2 ++ s) = false) ->
  str_in sep r = false.
Proof.
  intros Hsep. induction r as [|x r IH]; intros Q.
  - cbn. destruct sep; [contradiction | reflexivity].
  - rewrite str_in_cons. apply orb_false_intro.
    + destruct (is_prefix sep (x :: r)) eqn:E; [|reflexivity].
      apply (is_prefix_long _ _ s) in E. now rewrite (Q [] (x :: r)) in E.
    + apply IH. intros c1 c2 -> Hc. now apply (Q (x :: c1) c2).
Qed.

(** No piece of a split holds the separator. *)
Lemma split_go_pieces (sep : list N) : sep <> [] ->
  forall n s, length s <= n ->
  (forall cur,
     (forall c1 c2, rev cur = c1 ++ c2 -> c2 <> [] -> is_prefix sep (c2 ++ s) = false) ->
     Forall (fun piece => str_in sep piece = false) (split_go sep s 0 cur))
  /\ (forall skip, Forall (fun piece => str_in sep piece = false) (split_go sep s skip [])).
Proof.
  intros Hsep.
  assert (Hnil : forall cur : list N, cur = [] ->
            forall s c1 c2, rev cur = c1 ++ c2 -> c2 <> [] -> is_prefix sep (c2 ++ s) = false).
  { intros cur -> s c1 c2 E Hc. destruct c1, c2; try discriminate. contradiction. }
  induction n as [|n IH]; intros s Hn.
  - destruct s; [|cbn in Hn; lia]. split.
    + intros cur Q. cbn. constructor; [|constructor]. now apply (no_start_free sep _ []).
    + intros skip. destruct skip; cbn; (constructor; [|constructor]);
        destruct sep; try contradiction; reflexivity.
  - destruct s as [|x s].
    { split.
      + intros cur Q. cbn. constructor; [|constructor]. now apply (no_start_free sep _ []).
      + intros skip. destruct skip; cbn; (constructor; [|constructor]);
          destruct sep; try contradiction; reflexivity. }
    assert (Hs : length s <= n) by (cbn in Hn; lia).
    destruct (IH s Hs) as [IH0 IHskip].
    assert (H0 : forall cur,
      (forall c1 c2, rev cur = c1 ++ c2 -> c2 <> [] -> is_prefix sep (c2 ++ x :: s) = false) ->
      Forall (fun piece => str_in sep piece = false) (split_go sep (x :: s) 0 cur)).
    { intros cur Q. rewrite split_go_0. destruct (is_prefix sep (x :: s)) eqn:E.
      - constructor; [now apply (no_start_free sep _ (x :: s)) | apply IHskip].
      - apply IH0. intros c1 c2 Ec Hc. cbn [rev] in Ec.
        destruct (snoc_cases c2) as [->|(c2' & y & ->)]; [contradiction|].
        rewrite app_assoc in Ec. apply app_inj_tail in Ec as [Ec ->].
        rewrite <- app_assoc. cbn [app].
        destruct c2' as [|z c2']; [exact E|]. now apply (Q c1 (z :: c2')). }
    split; [exact H0|].
    intros [|k]; [|apply IHskip]. apply H0. now apply Hnil.
Qed.

Lemma str_split_pieces (sep s : list N) : sep <> [] ->
  Forall (fun piece => str_in sep piece = false) (str_split sep s).
Proof.
  intros Hsep. unfold str_split.
  now apply (proj2 (split_go_pieces sep Hsep (length s) s (le_n _)) 0).
Qed.

Lemma last_of_app (a b s0 : list N) z :
  a ++ b = s0 ++ [z] -> b <> [] -> exists b0, b = b0 ++ [z].
Proof.
  intros E Hb. rewrite (app_removelast_last 0%N Hb) in E |- *.
  rewrite app_assoc in E. apply app_inj_tail in E as [_ ->]. now eexists.
Qed.

(** The fragment of a block that [strip] made: its number and its text are
    not empty. *)
Lemma block_fragment path block :
  strip block = block -> block <> [] -> str_in (nl ++ nl) block = false ->
  Forall (fun p =>
            para_id p <> [] /\ strip (para_id p) = para_id p /\ str_in nl (para_id p) = false
            /\ original_text p <> [] /\ strip (original_text p) = original_text p
            /\ str_in (nl ++ nl) (original_text p) = false
            /\ (exists stamp, timestamp p = Some stamp /\ strip stamp = stamp
                              /\ str_in nl stamp = false)
            /\ translated_text p = [] /\ is_translated p = false
            /\ item_href p = path /\ element_type p = py "subtitle"
            /\ original_html p = None)
    (match str_split nl block with
     | line0 :: line1 :: line2 :: more =>
         [ {| para_id := strip line0; original_text := strip (str_join nl (line2 :: more));
              translated_text := []; is_translated := false; item_href := path;
              element_type := py "subtitle"; original_html := None;
              timestamp := Some (strip line1) |} ]
     | _ => []
     end).
Proof.
  intros Hstrip Hne Hfree.
  pose proof (str_split_pieces nl block ltac:(discriminate)) as Hpieces.
  pose proof (join_split nl block ltac:(discriminate)) as Hjoin.
  destruct (split_go_first_piece nl block []) as (t & l & Hfirst).
  fold (str_split nl block) in Hfirst. cbn [rev app] in Hfirst.
  destruct (str_split nl block) as [|line0 [|line1 [|line2 more]]]; try constructor;
    [|constructor].
  injection Hfirst as -> <-.
  apply Forall_cons in Hpieces as [H0 Hpieces]. apply Forall_cons in Hpieces as [H1 _].
  rewrite !str_join_cons in Hjoin by discriminate.
  set (J := str_join nl (line2 :: more)) in *.
  apply strip_fixed in Hstrip as [Hl Hr].
  cbn [para_id original_text timestamp translated_text is_translated item_href
       element_type original_html].
  assert (Hid : strip t <> []).
  { destruct block as [|x block']; [contradiction|]. apply lstrip_fixed in Hl.
    destruct t as [|y t']; [|injection Hjoin as <- _; now apply (strip_keeps y [] t')].
    injection Hjoin as <- _. now rewrite space_10 in Hl. }
  assert (Htext : strip J <> []).
  { apply rstrip_last in Hr as (s0 & z & E & Hz); [|exact Hne].
    rewrite E in Hjoin. rewrite !app_assoc in Hjoin.
    destruct J as [|j J'] eqn:EJ.
    - rewrite app_nil_r in Hjoin. apply app_inj_tail in Hjoin as [_ <-].
      now rewrite space_10 in Hz.
    - apply last_of_app in Hjoin as [b0 Eb]; [|discriminate]. rewrite Eb.
      now apply strip_keeps. }
  assert (HJ : str_in (nl ++ nl) J = false).
  { destruct (str_in (nl ++ nl) J) eqn:E; [|reflexivity].
    rewrite <- Hjoin, !app_assoc in Hfree. now rewrite str_in_app_r in Hfree. }
  repeat split; try assumption; try apply strip_strip; try now apply str_in_strip.
  exists (strip line1). repeat split; [apply strip_strip | now apply str_in_strip].
Qed.

Lemma load_srt_returns (path content : str) :
  Forall (fun p =>
            para_id p <> [] /\ strip (para_id p) = para_id p /\ str_in nl (para_id p) = false
            /\ original_text p <> [] /\ strip (original_text p) = original_text p
            /\ str_in (nl ++ nl) (original_text p) = false
            /\ (exists stamp, timestamp p = Some stamp /\ strip stamp = stamp
                              /\ str_in nl stamp = false)
            /\ translated_text p = [] /\ is_translated p = false
            /\ item_href p = path /\ element_type p = py "subtitle"
            /\ original_html p = None)
    (load_srt path content).
Proof.
  unfold load_srt.
  pose proof (str_split_pieces (nl ++ nl) content ltac:(discriminate)) as Hpieces.
  induction (str_split (nl ++ nl) content) as [|block0 blocks IH]; [constructor|].
  apply Forall_cons in Hpieces as [H0 Hpieces]. cbn [List.filter].
  destruct (truthy (strip block0)) eqn:E; [|now apply IH].
  cbn [List.map flat_map]. apply Forall_app. split; [|now apply IH].
  apply block_fragment.
  - apply strip_strip.
  - intros H. now rewrite H in E.
  - now apply str_in_strip.
Qed.

(** Every fragment [load_srt] returns has a number and a text that are not
    empty and carry no space at either end; the number and the time hold no
    newline, the text holds no empty line; the fragment is not translated. *)
Theorem load_srt_fragments (path content : str) :
  Forall (fun p =>
            para_id p <> [] /\ strip (para_id p) = para_id p /\ str_in nl (para_id p) = false
            /\ original_text p <> [] /\ strip (original_text p) = original_text p
            /\ str_in (nl ++ nl) (original_text p) = false
            /\ (exists stamp, timestamp p = Some stamp /\ strip stamp = stamp
                              /\ str_in nl stamp = false)
            /\ translated_text p = [] /\ is_translated p = false
            /\ item_href p = path /\ element_type p = py "subtitle"
            /\ original_html p = None)
    (load_srt path content).
Proof. apply load_srt_returns. Qed.

Lemma forallb_strip (q : N -> bool) s : forallb q s = true -> forallb q (strip s) = true.
Proof.
  unfold strip. destruct (lstrip_suffix s) as [a Ea].
  destruct (rstrip_prefix (lstrip s)) as [b Eb]. intros H.
  rewrite Ea, forallb_app in H. apply andb_prop in H as [_ H].
  rewrite Eb, forallb_app in H. now apply andb_prop in H as [H _].
Qed.

Lemma forallb_join (q : N -> bool) (sep : list N) l :
  forallb q (str_join sep l) = true -> Forall (fun piece => forallb q piece = true) l.
Proof.
  induction l as [|p l IH]; [constructor|]. destruct l as [|p' l].
  - cbn. intros H. now repeat constructor.
  - rewrite str_join_cons by discriminate. rewrite !forallb_app.
    intros H. apply andb_prop in H as [Hp H]. apply andb_prop in H as [_ H].
    constructor; [exact Hp | now apply IH].
Qed.

Lemma forallb_split (q : N -> bool) (sep s : list N) : sep <> [] ->
  forallb q s = true -> Forall (fun piece => forallb q piece = true) (str_split sep s).
Proof.
  intros Hsep H. apply (forallb_join q sep). now rewrite join_split.
Qed.

Lemma str_in_char_forallb (c : N) s :
  str_in [c] s = false <-> forallb (fun x => negb (c =? x)%N) s = true.
Proof.
  induction s as [|x s IH]; [easy|]. rewrite str_in_cons, is_prefix_char. cbn [forallb].
  rewrite orb_false_iff, andb_true_iff, negb_true_iff. now rewrite IH.
Qed.

(** The characters of the fragments are characters of the text. *)
Lemma load_srt_chars (q : N -> bool) path content :
  forallb q content = true ->
  Forall (fun p => forallb q (para_id p) = true /\ forallb q (original_text p) = true
                   /\ forall stamp, timestamp p = Some stamp -> forallb q stamp = true)
         (load_srt path content).
Proof.
  intros Hq. unfold load_srt.
  pose proof (forallb_split q (nl ++ nl) content ltac:(discriminate) Hq) as Hpieces.
  induction (str_split (nl ++ nl) content) as [|block0 blocks IH]; [constructor|].
  apply Forall_cons in Hpieces as [H0 Hpieces]. cbn [List.filter].
  destruct (truthy (strip block0)); [|now apply IH].
  cbn [List.map flat_map]. apply Forall_app. split; [|now apply IH].
  apply forallb_strip in H0.
  pose proof (forallb_split q nl _ ltac:(discriminate) H0) as Hlines.
  pose proof (join_split nl (strip block0) ltac:(discriminate)) as Hjoin.
  destruct (str_split nl (strip block0)) as [|line0 [|line1 [|line2 more]]];
    try constructor; [|constructor].
  apply Forall_cons in Hlines as [L0 Hlines]. apply Forall_cons in Hlines as [L1 _].
  rewrite !str_join_cons in Hjoin by discriminate. rewrite <- Hjoin in H0.
  rewrite !forallb_app in H0. repeat (apply andb_prop in H0 as [_ H0]).
  cbn [para_id original_text timestamp]. repeat split; try now apply forallb_strip.
  intros stamp [= <-]. now apply forallb_strip.
Qed.

(** A subtitle file that is opened, saved as it is and opened again gives
    the same fragments, when the text of the file holds no carriage return
    and no surrogate and the second line of no block is blank. *)
Theorem srt_load_save_load (path content : str) :
  str_in [13%N] content = false ->
  encodable content = true ->
  Forall (fun p => timestamp p <> Some []) (load_srt path content) ->
  exists written,
    SRTCreator_run (load_srt path content) = (written, false)
    /\ load_srt path (universal_newlines written) = load_srt path content.
Proof.
  intros H13 Henc Hstamp.
  pose proof (load_srt_returns path content) as Hfr.
  pose proof (load_srt_chars _ path content Henc) as Hc1.
  apply str_in_char_forallb in H13.
  pose proof (load_srt_chars _ path content H13) as Hc2.
  assert (Hall : Forall (fun p => writable p = true /\ reloaded path p = p)
                        (load_srt path content)).
  { induction (load_srt path content) as [|p ps IH]; [constructor|].
    apply Forall_cons in Hfr as [Hp Hfr]. apply Forall_cons in Hc1 as [E1 Hc1].
    apply Forall_cons in Hc2 as [E2 Hc2]. apply Forall_cons in Hstamp as [Hs Hstamp].
    constructor; [|now apply IH].
    destruct Hp as (I0 & I1 & I2 & T0 & T1 & T2 & (stamp & S0 & S1 & S2) & Tr & Tf & Hh & Ht & Ho).
    destruct E1 as (E1a & E1b & E1c). destruct E2 as (E2a & E2b & E2c).
    destruct p as [pid orig trans tr href ety html stmp].
    cbn [para_id original_text timestamp translated_text is_translated item_href
         element_type original_html] in *. subst.
    split; [|reflexivity].
    unfold writable, clean_line, clean_text, shown_text, str_eqb.
    cbn [para_id original_text timestamp translated_text is_translated].
    specialize (E1c _ eq_refl). specialize (E2c _ eq_refl).
    apply str_in_char_forallb in E2a, E2b, E2c.
    unfold encodable. rewrite I1, I2, T1, T2, S1, S2, E2a, E2b, E2c, E1a, E1b, E1c.
    rewrite !bool_decide_eq_true_2 by reflexivity.
    destruct pid; [contradiction|]. destruct orig; [contradiction|].
    destruct stamp; [contradiction|]. reflexivity. }
  assert (Hw : forallb writable (load_srt path content) = true).
  { apply forallb_forall. intros p Hp. rewrite Forall_forall in Hall.
    now apply Hall, list_elem_of_In. }
  destruct (srt_written_reads_back path _ Hw) as (written & E & Hload).
  exists written. split; [exact E|]. rewrite Hload.
  clear -Hall. induction Hall as [|p ps [_ Hp] _ IH]; [reflexivity|].
  cbn [List.map]. now rewrite Hp, IH.
Qed.

(** ** What a run of the worker changes *)

Lemma run_one_shape w (ps : list para) (wd : W) idx text p :
  ps !! idx = Some p ->
  exists t b wd',
    run_one w ps wd idx text
    = Some (<[idx := set_translation t b p]> ps, wd', Progress idx t (negb b)).
Proof.
  intros Hp. unfold run_one. rewrite Hp.
  destruct (split_prefix_suffix text) as [[prefix core] suffix].
  destruct (translate_core w ps idx core wd) as [[r|e] wd'].
  - now exists (prefix ++ r ++ suffix), true, wd'.
  - now exists (py "ERROR: " ++ e), false, wd'.
Qed.

Lemma run_one_none w (ps : list para) (wd : W) idx text :
  ps !! idx = None -> run_one w ps wd idx text = None.
Proof. intros Hp. unfold run_one. now rewrite Hp. Qed.

Lemma set_translation_twice t b t' b' p :
  set_translation t b (set_translation t' b' p) = set_translation t b p.
Proof. reflexivity. Qed.

Lemma run_frame (w : TranslationWorker)
    (jobs : list (nat * str)) (ps : list para) (wd : W) :
  match run w jobs ps wd with
  | Some (ps', _, evs) =>
      Forall (fun job => fst job < length ps) jobs
      /\ List.map p_idx evs = List.map fst jobs
      /\ length ps' = length ps
      /\ (forall i, i ∉ List.map fst jobs -> ps' !! i = ps !! i)
      /\ (forall i p, ps !! i = Some p ->
            exists t b, ps' !! i = Some (set_translation t b p))
  | None => Exists (fun job => length ps <= fst job) jobs
  end.
Proof.
  revert ps wd. induction jobs as [|[idx text] more IH]; intros ps wd.
  - cbn. repeat split; [constructor|]. intros i p Hp. exists (translated_text p), (is_translated p).
    rewrite Hp. now destruct p.
  - cbn [run]. destruct (ps !! idx) as [p|] eqn:Hp.
    + destruct (run_one_shape w ps wd idx text p Hp) as (t & b & wd1 & ->).
      specialize (IH (<[idx := set_translation t b p]> ps) wd1).
      destruct (run w more _ wd1) as [[[ps' wd'] evs]|].
      * destruct IH as (Hvalid & Hevs & Hlen & Hout & Hin).
        rewrite length_insert in Hvalid, Hlen. repeat split.
        -- constructor; [now apply lookup_lt_Some in Hp | exact Hvalid].
        -- cbn. now rewrite Hevs.
        -- exact Hlen.
        -- intros i Hi. cbn [List.map fst] in Hi. apply not_elem_of_cons in Hi as [Hne Hi].
           rewrite (Hout i Hi). now apply list_lookup_insert_ne.
        -- intros i q Hq. destruct (decide (idx = i)) as [<-|Hne].
           ++ assert (q = p) as -> by congruence.
              destruct (Hin idx (set_translation t b p)) as (t' & b' & E).
              { apply list_lookup_insert_eq. now apply lookup_lt_Some in Hp. }
              exists t', b'. now rewrite E.
           ++ apply Hin. now rewrite list_lookup_insert_ne.
      * rewrite length_insert in IH. now apply Exists_cons_tl.
    + rewrite (run_one_none w ps wd idx text Hp). apply Exists_cons_hd.
      now apply lookup_ge_None in Hp.
Qed.

(** The handlers of the signals write what the worker has stored. *)
Lemma run_replay w (jobs : list (nat * str)) : forall (ps : list para) (wd : W) ps' wd' evs,
  run w jobs ps wd = Some (ps', wd', evs) ->
  forall Q : list para,
  length Q = length ps ->
  (forall i q p, Q !! i = Some q -> ps !! i = Some p -> exists t b, q = set_translation t b p) ->
  (forall i, i ∉ List.map fst jobs -> Q !! i = ps' !! i) ->
  fold_left (fun ps ev => on_progress ev ps) evs Q = ps'.
Proof.
  induction jobs as [|[idx text] more IH]; intros ps wd ps' wd' evs.
  - cbn. intros [= <- <- <-] Q _ _ Hout. cbn. apply list_eq. intros i.
    apply Hout, not_elem_of_nil.
  - cbn [run]. destruct (ps !! idx) as [p|] eqn:Hp;
      [|now rewrite (run_one_none w ps wd idx text Hp)].
    destruct (run_one_shape w ps wd idx text p Hp) as (t & b & wd1 & ->).
    destruct (run w more _ wd1) as [[[ps1 wd1'] evs1]|] eqn:Hrun; [|discriminate].
    intros [= <- <- <-] Q Hlen Hfields Hout. cbn [fold_left].
    pose proof (run_frame w more (<[idx := set_translation t b p]> ps) wd1) as Hframe.
    rewrite Hrun in Hframe. destruct Hframe as (_ & _ & _ & Hout1 & _).
    assert (Hq : exists q, Q !! idx = Some q).
    { apply lookup_lt_is_Some. rewrite Hlen. now apply lookup_lt_Some in Hp. }
    destruct Hq as [q Hq]. destruct (Hfields idx q p Hq Hp) as (t0 & b0 & ->).
    unfold on_progress at 2. cbn [p_idx p_text p_is_error]. rewrite Hq, negb_involutive.
    rewrite set_translation_twice.
    apply (IH _ _ _ _ _ Hrun).
    + now rewrite !length_insert.
    + intros i q' p' Hq' Hp'. destruct (decide (idx = i)) as [<-|Hne].
      * rewrite list_lookup_insert_eq in Hq' by now apply lookup_lt_Some in Hq.
        rewrite list_lookup_insert_eq in Hp' by now apply lookup_lt_Some in Hp.
        injection Hq' as <-. injection Hp' as <-. now exists t, b.
      * rewrite list_lookup_insert_ne in Hq', Hp' by exact Hne. eauto.
    + intros i Hi. destruct (decide (idx = i)) as [<-|Hne].
      * rewrite (Hout1 idx Hi).
        rewrite !list_lookup_insert_eq; [reflexivity| |];
          [now apply lookup_lt_Some in Hp | now apply lookup_lt_Some in Hq].
      * rewrite list_lookup_insert_ne by exact Hne. apply Hout.
        cbn [List.map fst]. apply not_elem_of_cons. now split.
Qed.

(** [run] either dies on a fragment whose index is outside the list, or
    ends after one signal for each fragment it was given, in their order,
    having changed nothing but the translation and the flag of those
    fragments; the handlers of the signals, [on_translation_progress] or
    [on_retry_progress], then write what the worker has stored. *)
Theorem run_changes_translations_only (w : TranslationWorker)
    (jobs : list (nat * str)) (ps : list para) (wd : W) :
  match run w jobs ps wd with
  | Some (ps', _, evs) =>
      Forall (fun job => fst job < length ps) jobs
      /\ List.map p_idx evs = List.map fst jobs
      /\ length ps' = length ps
      /\ (forall i, i ∉ List.map fst jobs -> ps' !! i = ps !! i)
      /\ (forall i p, ps !! i = Some p ->
            exists t b, ps' !! i = Some (set_translation t b p))
      /\ fold_left (fun ps ev => on_progress ev ps) evs ps' = ps'
  | None => Exists (fun job => length ps <= fst job) jobs
  end.
Proof.
  pose proof (run_frame w jobs ps wd) as H.
  destruct (run w jobs ps wd) as [[[ps' wd'] evs]|] eqn:Hrun; [|exact H].
  destruct H as (H1 & H2 & H3 & H4 & H5). repeat split; try assumption.
  apply (run_replay w jobs ps wd ps' wd' evs Hrun); [exact H3| |reflexivity].
  intros i q p Hq Hp. destruct (H5 i p Hp) as (t & b & E). exists t, b. congruence.
Qed.

(** ** A backend that fails *)

Lemma run_one_when_backend_fails w (ps : list para) (wd : W) idx text p :
  (forall req wd0, exists msg wd1, backend req wd0 = (Raised msg, wd1)) ->
  ps !! idx = Some p ->
  exists e wd',
    run_one w ps wd idx text
    = Some (<[idx := set_translation (py "ERROR: " ++ e) false p]> ps, wd',
            Progress idx (py "ERROR: " ++ e) true).
Proof.
  intros Hfail Hp. unfold run_one. rewrite Hp.
  destruct (split_prefix_suffix text) as [[prefix core] suffix].
  unfold translate_core. destruct (build_request _ _ _) as [req|msg]; [|eauto].
  destruct (Hfail req wd) as (msg & wd1 & ->). eauto.
Qed.

Lemma run_when_backend_fails w (jobs : list (nat * str)) :
  (forall req wd0, exists msg wd1, backend req wd0 = (Raised msg, wd1)) ->
  forall (ps : list para) (wd : W) ps' wd' evs,
  run w jobs ps wd = Some (ps', wd', evs) ->
  forall i, i ∈ List.map fst jobs ->
  exists p e, ps' !! i = Some p /\ is_translated p = false
              /\ translated_text p = py "ERROR: " ++ e.
Proof.
  intros Hfail. induction jobs as [|[idx text] more IH]; intros ps wd ps' wd' evs Hrun i Hi.
  - now apply elem_of_nil in Hi.
  - cbn [run] in Hrun. destruct (ps !! idx) as [p|] eqn:Hp;
      [|now rewrite (run_one_none w ps wd idx text Hp) in Hrun].
    destruct (run_one_when_backend_fails w ps wd idx text p Hfail Hp) as (e & wd1 & E).
    rewrite E in Hrun.
    destruct (run w more _ wd1) as [[[ps1 wd1'] evs1]|] eqn:Hmore; [|discriminate].
    injection Hrun as <- <- <-.
    destruct (decide (i ∈ List.map fst more)) as [Hin|Hout]; [now apply (IH _ _ _ _ _ Hmore)|].
    cbn [List.map fst] in Hi. apply elem_of_cons in Hi as [->|Hi]; [|contradiction].
    pose proof (run_frame w more (<[idx := set_translation (py "ERROR: " ++ e) false p]> ps) wd1)
      as Hframe.
    rewrite Hmore in Hframe. destruct Hframe as (_ & _ & _ & Hsame & _).
    rewrite (Hsame idx Hout), list_lookup_insert_eq by now apply lookup_lt_Some in Hp.
    now exists (set_translation (py "ERROR: " ++ e) false p), e.
Qed.

Lemma auto_fix_pick_all_clear ps max_attempts (l : list nat) :
  (forall idx, idx ∈ l -> _has_mismatch ps idx = Some false) ->
  forall to_retry selected attempts,
  fold_left (auto_fix_pick ps max_attempts) l (Some (to_retry, selected, attempts))
  = Some (to_retry, selected ∖ list_to_set l, attempts).
Proof.
  induction l as [|idx l IH]; intros Hl to_retry selected attempts.
  - cbn. now rewrite difference_empty_L.
  - cbn [fold_left auto_fix_pick]. rewrite (Hl idx) by apply list_elem_of_here.
    rewrite IH by (intros i Hi; now apply Hl, list_elem_of_further).
    cbn [list_to_set foldr]. now rewrite difference_difference_l_L.
Qed.

Lemma remaining_mismatch_all_clear ps (selected : gset nat) :
  (forall idx, idx ∈ selected -> _has_mismatch ps idx = Some false) ->
  remaining_mismatch ps selected = Some [].
Proof.
  intros H. unfold remaining_mismatch.
  assert (Hl : forall idx, idx ∈ elements selected -> _has_mismatch ps idx = Some false)
    by (intros idx Hi; now apply H, elem_of_elements).
  induction (elements selected) as [|idx l IH]; [reflexivity|].
  cbn [foldr]. rewrite (Hl idx) by apply list_elem_of_here.
  now rewrite IH by (intros i Hi; now apply Hl, list_elem_of_further).
Qed.

(** When every call of the backend fails, a run of [start_translation]
    stores the error text in every selected fragment and marks it as not
    translated, whatever translation it held before; no fragment is retried,
    with the automatic retries on or off, and the message shown at the end
    is the plain completion message. *)
Theorem failed_translations_end_the_run (rounds : nat) (selected_items : list nat)
    (max_attempts : nat) (a : TranslatorApp) :
  (forall req wd0, exists msg wd1, backend req wd0 = (Raised msg, wd1)) ->
  selected_items <> [] ->
  Forall (fun idx => idx < length (paragraphs a)) selected_items ->
  exists a',
    start_translation (S rounds) selected_items max_attempts a = Finished a'
    /\ dispatched a' = dispatched a
    /\ shown a' = shown a ++ [Completed]
    /\ forall idx, idx ∈ selected_items ->
         exists p e, paragraphs a' !! idx = Some p /\ is_translated p = false
                     /\ translated_text p = py "ERROR: " ++ e.
Proof.
  intros Hfail Hne Hvalid. unfold start_translation.
  destruct selected_items as [|idx0 more] eqn:Esel; [contradiction|]. rewrite <- Esel in *.
  clear Esel Hne idx0 more.
  destruct (mapM _ selected_items) as [jobs|] eqn:Hjobs.
  2:{ exfalso. apply eq_None_not_Some in Hjobs. apply Hjobs, mapM_is_Some.
      eapply Forall_impl; [exact Hvalid|]. cbn. intros idx Hidx.
      apply lookup_lt_is_Some in Hidx as [p ->]. now eexists. }
  assert (Hfst : List.map fst jobs = selected_items).
  { apply mapM_Some in Hjobs. clear -Hjobs.
    induction Hjobs as [|idx job l k Hj _ IH]; [reflexivity|].
    cbn. rewrite IH. f_equal. destruct (paragraphs a !! idx); [|discriminate].
    now injection Hj as <-. }
  pose proof (run_frame (settings a) jobs (paragraphs a) (world a)) as Hframe.
  destruct (run (settings a) jobs (paragraphs a) (world a)) as [[[ps wd] evs]|] eqn:Hrun.
  2:{ exfalso. apply Exists_exists in Hframe as ([idx text] & Hin & Hlen).
      rewrite Forall_forall in Hvalid. cbn in Hlen.
      assert (idx ∈ selected_items).
      { rewrite <- Hfst. apply list_elem_of_In, in_map_iff. exists (idx, text).
        split; [reflexivity | now apply list_elem_of_In]. }
      apply Hvalid in H. lia. }
  destruct Hframe as (_ & _ & Hlen & Hsame & Hfields).
  assert (Hreplay : fold_left (fun ps ev => on_progress ev ps) evs ps = ps).
  { apply (run_replay _ _ _ _ _ _ _ Hrun); [exact Hlen| |reflexivity].
    intros i q p Hq Hp. destruct (Hfields i p Hp) as (t & b & E). exists t, b. congruence. }
  rewrite Hreplay.
  assert (Herr : forall idx, idx ∈ selected_items ->
            exists p e, ps !! idx = Some p /\ is_translated p = false
                        /\ translated_text p = py "ERROR: " ++ e).
  { intros idx Hidx. apply (run_when_backend_fails _ _ Hfail _ _ _ _ _ Hrun).
    now rewrite Hfst. }
  assert (Hclear : forall idx, idx ∈ (list_to_set selected_items : gset nat) ->
            _has_mismatch ps idx = Some false).
  { intros idx Hidx. apply elem_of_list_to_set in Hidx.
    destruct (Herr idx Hidx) as (p & e & Hp & Ht & _).
    rewrite (has_mismatch_lookup _ _ _ Hp). unfold para_has_mismatch. now rewrite Ht. }
  unfold on_translation_finished. cbn [auto_fix_checked].
  destruct (auto_fix_checked a).
  - cbn [start_auto_fix_process]. unfold pick_retries.
    cbn [paragraphs max_auto_fix_attempts selected_for_auto_fix auto_fix_attempts].
    rewrite auto_fix_pick_all_clear
      by (intros idx Hidx; now apply Hclear, elem_of_elements).
    unfold finalize, finalize_translation.
    cbn [with_selection paragraphs selected_for_auto_fix].
    rewrite list_to_set_elements_L, difference_diag_L, remaining_mismatch_empty.
    eexists. split; [reflexivity|]. cbn [dispatched shown paragraphs]. now repeat split.
  - unfold finalize, finalize_translation. cbn [paragraphs selected_for_auto_fix].
    rewrite (remaining_mismatch_all_clear _ _ Hclear).
    eexists. split; [reflexivity|]. cbn [dispatched shown paragraphs]. now repeat split.
Qed.

(** ** The checks of the detector *)

Lemma bool_decide_sym {A : Type} `{EqDecision A} (x y : A) :
  bool_decide (x = y) = bool_decide (y = x).
Proof. apply bool_decide_ext. split; congruence. Qed.

Lemma distance_sym a b : distance a b = distance b a.
Proof. unfold distance. lia. Qed.

(** The detector does not tell the original from the translation: each of
    its twelve checks gives the same answer when the two texts change
    places. *)
Theorem mismatch_checks_symmetric (orig trans : str) :
  mismatch_checks orig trans = mismatch_checks trans orig.
Proof.
  unfold mismatch_checks, sets_differ, str_eqb, length_mismatch.
  rewrite (Nat.eqb_sym (count_paragraphs orig)).
  rewrite (bool_decide_sym (first_char_type orig)), (bool_decide_sym (last_char_type orig)).
  rewrite (bool_decide_sym (extract_placeholders orig)), (bool_decide_sym (extract_numbers orig)).
  rewrite (bool_decide_sym (extract_formatting orig)), (bool_decide_sym (extract_urls orig)).
  rewrite (bool_decide_sym (count_brackets_quotes orig)).
  rewrite (bool_decide_sym (extract_special_chars orig)).
  rewrite (distance_sym (count_sentence_starts orig)), (distance_sym (length orig)).
  rewrite (Nat.max_comm (length orig)), (andb_comm (truthy orig)).
  now destruct (has_list_structure orig), (has_list_structure trans).
Qed.

Lemma match_at_not_space bef x xs :
  match_at not_space (Subject bef (x :: xs))
  = if isspace x then None
    else Some (Match (rev bef ++ x :: xs) (length bef) (S (length bef)) ∅).
Proof.
  unfold match_at, not_space. cbn [rmatch]. unfold step_char. cbn [rest].
  unfold class_match. cbn [existsb citem_match]. rewrite orb_false_r.
  destruct (isspace x); reflexivity.
Qed.

Lemma search_not_space : forall rst bef,
  search_go not_space bef rst
  = match lstrip rst with
    | [] => None
    | _ :: _ =>
        Some (Match (rev bef ++ rst)
                (length bef + (length rst - length (lstrip rst)))
                (S (length bef + (length rst - length (lstrip rst)))) ∅)
    end.
Proof.
  induction rst as [|x xs IH]; intros bef; [reflexivity|].
  cbn [search_go]. rewrite match_at_not_space. cbn [lstrip].
  destruct (isspace x) eqn:E.
  - rewrite IH. pose proof (length_lstrip xs) as Hl.
    destruct (lstrip xs) as [|c r]; [reflexivity|].
    cbn [rev length] in *. rewrite <- app_assoc. cbn [app].
    now replace (S (length bef) + (length xs - S (length r)))
      with (length bef + (S (length xs) - S (length r))) by lia.
  - now rewrite Nat.sub_diag, Nat.add_0_r.
Qed.

(** The lookahead of the last character pattern: spaces up to the end. *)
Lemma spaces_loop_to_the_end : forall xs b (c : gmap nat (nat * nat)),
  (forallb isspace xs = true ->
     exists res, star_loop (rmatch (Class false [CSpace])) true (length xs) (Subject b xs) c
                   (fun s' c' => if at_eol s' then accept s' c' else None) = Some res)
  /\ (forallb isspace xs = false ->
        star_loop (rmatch (Class false [CSpace])) true (length xs) (Subject b xs) c
          (fun s' c' => if at_eol s' then accept s' c' else None) = None).
Proof.
  assert (Hcl : forall x, class_match false [CSpace] x = isspace x).
  { intros x. unfold class_match. cbn. now rewrite orb_false_r. }
  induction xs as [|x xs IH]; intros b c.
  - split; [|discriminate]. intros _. now eexists.
  - specialize (IH (x :: b) c). cbn [length star_loop].
    change (rmatch (Class false [CSpace]) (Subject b (x :: xs)) c)
      with (step_char (class_match false [CSpace]) (Subject b (x :: xs)) c).
    unfold step_char. cbn [rest before]. rewrite Hcl. cbn [forallb].
    destruct (isspace x) eqn:E; cbn [andb].
    + cbn [length]. replace (length xs <? S (length xs)) with true
        by (symmetry; apply Nat.ltb_lt; lia).
      split.
      * intros H. apply (proj1 IH) in H as [res ->]. now exists res.
      * intros H. rewrite (proj2 IH H). destruct xs as [|y xs]; [discriminate|reflexivity].
    + split; [discriminate|]. intros _. unfold at_eol. cbn [rest].
      destruct xs; [|reflexivity]. destruct (x =? 10)%N eqn:Ex; [|reflexivity].
      apply N.eqb_eq in Ex as ->. now rewrite space_10 in E.
Qed.

Lemma spaces_to_the_end xs b (c : gmap nat (nat * nat)) :
  (forallb isspace xs = true ->
     exists res, rmatch (Seq spaces Eol) (Subject b xs) c accept = Some res)
  /\ (forallb isspace xs = false ->
        rmatch (Seq spaces Eol) (Subject b xs) c accept = None).
Proof. exact (spaces_loop_to_the_end xs b c). Qed.

Lemma match_at_last_char bef x xs :
  match_at last_char_pattern (Subject bef (x :: xs))
  = if negb (isspace x) && forallb isspace xs
    then Some (Match (rev bef ++ x :: xs) (length bef) (S (length bef)) ∅)
    else None.
Proof.
  unfold match_at, last_char_pattern, not_space.
  change (rmatch (Seq (Class true [CSpace]) (Ahead (Seq spaces Eol))) ?s ?c ?k)
    with (step_char (class_match true [CSpace]) s c
            (fun s' c' => match rmatch (Seq spaces Eol) s' c' accept with
                          | Some (_, c'') => k s' c''
                          | None => None
                          end)).
  unfold step_char. cbn [rest before]. unfold class_match. cbn [existsb citem_match].
  rewrite orb_false_r. destruct (isspace x); [reflexivity|]. cbn [xorb negb andb].
  destruct (spaces_to_the_end xs (x :: bef) ∅) as [Hyes Hno].
  destruct (forallb isspace xs).
  - destruct (Hyes eq_refl) as [[e c] H]. rewrite H.
    apply rmatch_sound in H as (s' & _ & H); [|reflexivity].
    injection H as _ <-. reflexivity.
  - now rewrite (Hno eq_refl).
Qed.

Lemma spaces_or_last (s : list N) :
  forallb isspace s = true
  \/ exists p z sp, s = p ++ z :: sp /\ isspace z = false /\ forallb isspace sp = true.
Proof.
  induction s as [|y s IH] using rev_ind; [now left|].
  destruct (isspace y) eqn:E.
  - destruct IH as [H|(p & z & sp & -> & Hz & Hsp)].
    + left. rewrite forallb_app, H. cbn. now rewrite E.
    + right. exists p, z, (sp ++ [y]). rewrite <- app_assoc. split; [reflexivity|].
      split; [exact Hz|]. rewrite forallb_app, Hsp. cbn. now rewrite E.
  - right. exists s, y, []. now repeat split.
Qed.

Lemma lstrip_spaces sps r : forallb isspace sps = true -> lstrip (sps ++ r) = lstrip r.
Proof.
  induction sps as [|x sps IH]; [reflexivity|]. cbn [forallb app lstrip].
  intros H. apply andb_prop in H as [-> H]. now apply IH.
Qed.

Lemma search_last_char_none : forall rst bef,
  forallb isspace rst = true -> search_go last_char_pattern bef rst = None.
Proof.
  induction rst as [|x xs IH]; intros bef H; [reflexivity|].
  cbn [forallb] in H. apply andb_prop in H as [Hx H].
  cbn [search_go]. rewrite match_at_last_char, Hx. cbn [negb andb]. now apply IH.
Qed.

Lemma search_last_char z sp : isspace z = false -> forallb isspace sp = true ->
  forall p bef,
  search_go last_char_pattern bef (p ++ z :: sp)
  = Some (Match (rev bef ++ p ++ z :: sp) (length bef + length p)
            (S (length bef + length p)) ∅).
Proof.
  intros Hz Hsp. induction p as [|y p IH]; intros bef.
  - cbn [app search_go]. rewrite match_at_last_char, Hz, Hsp. cbn [negb andb length].
    now rewrite Nat.add_0_r.
  - cbn [app search_go]. rewrite match_at_last_char.
    replace (forallb isspace (p ++ z :: sp)) with false.
    2:{ symmetry. rewrite forallb_app. cbn [forallb]. rewrite Hz. apply andb_false_r. }
    rewrite andb_false_r, IH. cbn [rev length]. rewrite <- app_assoc. cbn [app].
    now replace (S (length bef) + length p) with (length bef + S (length p)) by lia.
Qed.

Lemma character_types_spec (text : str) :
  first_char_type text
  = match lstrip text with
    | [] => py "none"
    | c :: _ => if isdigit c then py "digit"
                else if isalpha c then py "alpha" else py "other"
    end
  /\ last_char_type text
     = match rev (rstrip text) with
       | [] => py "none"
       | c :: _ => if elem_of_str c (py ".!?") then py "sentence_end"
                   else if elem_of_str c (py ",;:") then py "punctuation"
                   else if isdigit c then py "digit"
                   else if isalpha c then py "alpha"
                   else py "other"
       end.
Proof.
  split.
  - unfold first_char_type, re_search. rewrite search_not_space.
    destruct (lstrip_suffix text) as [a Ea]. pose proof (length_lstrip text) as Hl.
    destruct (lstrip text) as [|c r] eqn:E; [reflexivity|]. cbn [m_start length].
    clear E Hl. subst text. rewrite length_app. cbn [length].
    replace (0 + (length a + S (length r) - S (length r))) with (length a) by lia.
    rewrite lookup_app_r, Nat.sub_diag by lia. reflexivity.
  - unfold last_char_type, re_search, rstrip. rewrite rev_involutive.
    destruct (spaces_or_last text) as [H|(p & z & sp & -> & Hz & Hsp)].
    + rewrite search_last_char_none by exact H.
      replace (lstrip (rev text)) with (@nil N); [reflexivity|].
      symmetry. rewrite <- (app_nil_r (rev text)). rewrite lstrip_spaces; [reflexivity|].
      apply forallb_forall. intros x Hx. apply in_rev in Hx.
      rewrite forallb_forall in H. now apply H.
    + rewrite (search_last_char z sp Hz Hsp p []). cbn [m_start length].
      rewrite lookup_app_r by lia. rewrite Nat.sub_diag. cbn [lookup].
      rewrite rev_app_distr. cbn [rev]. rewrite <- app_assoc.
      rewrite lstrip_spaces.
      2:{ apply forallb_forall. intros x Hx. apply in_rev in Hx.
          rewrite forallb_forall in Hsp. now apply Hsp. }
      cbn [app lstrip]. rewrite Hz. reflexivity.
Qed.

(** The first and the last character checks of the detector look at one
    character each: the first character of the text that is no space, and
    the last.  A text of spaces only, the empty text too, has the type
    [none]. *)
Theorem character_types (text : str) :
  first_char_type text
  = match lstrip text with
    | [] => py "none"
    | c :: _ => if isdigit c then py "digit"
                else if isalpha c then py "alpha" else py "other"
    end
  /\ last_char_type text
     = match rev (rstrip text) with
       | [] => py "none"
       | c :: _ => if elem_of_str c (py ".!?") then py "sentence_end"
                   else if elem_of_str c (py ",;:") then py "punctuation"
                   else if isdigit c then py "digit"
                   else if isalpha c then py "alpha"
                   else py "other"
       end.
Proof. apply character_types_spec. Qed.

(** ** The numbering that a title repeats *)

(** A greedy repetition of a class reads the characters of the class that
    stand there when what follows accepts the place where they end. *)
Lemma star_class_run neg items (a b : list N) : forall bef (c : gmap nat (nat * nat)) k res,
  forallb (class_match neg items) a = true ->
  match b with [] => True | y :: _ => class_match neg items y = false end ->
  k (Subject (rev a ++ bef) b) c = Some res ->
  star_loop (rmatch (Class neg items)) true (length (a ++ b)) (Subject bef (a ++ b)) c k
  = Some res.
Proof.
  induction a as [|x a IH]; intros bef c k res Ha Hb Hk.
  - cbn [app rev] in *. destruct b as [|y b]; [exact Hk|].
    cbn [length star_loop].
    change (rmatch (Class neg items) (Subject bef (y :: b)) c)
      with (step_char (class_match neg items) (Subject bef (y :: b)) c).
    unfold step_char. cbn [rest]. now rewrite Hb.
  - cbn [forallb] in Ha. apply andb_prop in Ha as [Hx Ha].
    change ((x :: a) ++ b) with (x :: (a ++ b)). cbn [length star_loop].
    change (rmatch (Class neg items) (Subject bef (x :: (a ++ b))) c)
      with (step_char (class_match neg items) (Subject bef (x :: (a ++ b))) c).
    unfold step_char. cbn [rest before length]. rewrite Hx.
    replace (length (a ++ b) <? S (length (a ++ b))) with true
      by (symmetry; apply Nat.ltb_lt; lia).
    rewrite (IH (x :: bef) c k res Ha Hb); [reflexivity|].
    cbn [rev] in Hk. now rewrite <- app_assoc in Hk.
Qed.

Lemma search_bol_none r : forall rst bef, bef <> [] -> search_go (Seq Bol r) bef rst = None.
Proof.
  induction rst as [|x xs IH]; intros bef Hb; cbn [search_go]; unfold match_at;
    cbn [rmatch before]; destruct bef as [|y bef]; try contradiction; [reflexivity|].
  now apply IH.
Qed.

Lemma finditer_bol_none r fuel bef rst : bef <> [] -> finditer_go (Seq Bol r) fuel bef rst = [].
Proof.
  intros Hb. destruct fuel; [reflexivity|]. cbn [finditer_go]. now rewrite search_bol_none.
Qed.

Lemma search_go_unfold r bef rst :
  search_go r bef rst
  = match match_at r (Subject bef rst) with
    | Some m => Some m
    | None => match rst with
              | [] => None
              | x :: xs => search_go r (x :: bef) xs
              end
    end.
Proof. destruct rst; reflexivity. Qed.

(** A pattern that stands at the start of the text is replaced at most
    once: where it matches there. *)
Lemma re_sub_anchored r (text : list N) :
  re_sub (Seq Bol r) [] text
  = match re_match (Seq Bol r) text with
    | Some m => skipn (m_end m) text
    | None => text
    end.
Proof.
  unfold re_sub, finditer, re_match. cbn [finditer_go]. rewrite search_go_unfold.
  destruct (match_at (Seq Bol r) (Subject [] text)) as [m|] eqn:E.
  - assert (Hstart : m_start m = 0).
    { unfold match_at in E. destruct (rmatch _ _ _ _) as [[e c]|]; [|discriminate].
      now injection E as <-. }
    rewrite Hstart. cbn [length]. rewrite Nat.sub_0_r, app_nil_r.
    assert (Hrest : (if 0 <? m_end m
                     then finditer_go (Seq Bol r) (length text)
                            (rev (firstn (m_end m) text)) (skipn (m_end m) text)
                     else match skipn (m_end m) text with
                          | [] => []
                          | x :: xs => finditer_go (Seq Bol r) (length text)
                                         (x :: rev (firstn (m_end m) text)) xs
                          end) = []).
    { destruct text as [|x xs].
      - cbn [length finditer_go]. rewrite skipn_nil. now destruct (0 <? m_end m).
      - destruct (0 <? m_end m) eqn:El.
        + apply finditer_bol_none. destruct (m_end m); [discriminate|].
          cbn [firstn rev]. intros H. apply app_eq_nil in H as [_ H]. discriminate.
        + destruct (skipn (m_end m) (x :: xs)); [reflexivity|].
          now apply finditer_bol_none. }
    rewrite Hrest. cbn [between str_join]. unfold slice. rewrite Hstart. reflexivity.
  - destruct text as [|x xs]; [reflexivity|].
    rewrite search_bol_none by discriminate. reflexivity.
Qed.

Lemma lstrip_split s :
  exists sp, s = sp ++ lstrip s /\ forallb isspace sp = true
             /\ match lstrip s with [] => True | y :: _ => isspace y = false end.
Proof.
  induction s as [|x s (sp & E & Hsp & Hh)]; [now exists []|]. cbn [lstrip].
  destruct (isspace x) eqn:Ex.
  - exists (x :: sp). cbn [app forallb]. rewrite Ex, Hsp, <- E. now repeat split.
  - exists []. cbn [app forallb]. now rewrite Ex.
Qed.

Lemma class_space x : class_match false [CSpace] x = isspace x.
Proof. unfold class_match. cbn. now rewrite orb_false_r. Qed.

Lemma class_digit x : class_match false [CDigit] x = isdecimal x.
Proof. unfold class_match. cbn. now rewrite orb_false_r. Qed.

Lemma forallb_same (p q : N -> bool) (l : list N) :
  (forall x, p x = q x) -> forallb p l = forallb q l.
Proof. intros H. induction l as [|x l IH]; [reflexivity|]. cbn. now rewrite H, IH. Qed.

(** The match of the numbering pattern on a text that opens with spaces,
    digits, a dot and spaces. *)
Lemma numbering_matches ws d0 ds sp tl :
  forallb isspace ws = true -> isdecimal d0 = true -> isspace d0 = false ->
  forallb isdecimal ds = true -> forallb isspace sp = true ->
  match tl with [] => True | y :: _ => isspace y = false end ->
  rmatch numbering_pattern (Subject [] (ws ++ (d0 :: ds) ++ 46%N :: sp ++ tl)) ∅ accept
  = Some (Subject (rev sp ++ 46%N :: rev ds ++ d0 :: rev ws ++ []) tl, ∅).
Proof.
  intros Hws Hd0 Hd0' Hds Hsp Htl.
  unfold numbering_pattern, number_pattern, Plus, spaces. change (ch ".") with 46%N.
  change (rmatch (Seq Bol ?r) (Subject [] ?t) ?c ?k)
    with (star_loop (rmatch (Class false [CSpace])) true (length t) (Subject [] t) c
            (fun s' c' =>
               rmatch (Seq (Seq (Class false [CDigit]) (Star true (Class false [CDigit])))
                         (Seq (Lit 46) (Star true (Class false [CSpace])))) s' c' k)).
  apply star_class_run.
  - now rewrite (forallb_same _ _ _ class_space).
  - cbn [app]. now rewrite class_space.
  - change ((d0 :: ds) ++ 46%N :: sp ++ tl) with (d0 :: (ds ++ (46%N :: sp ++ tl))).
    change (rmatch (Seq (Seq (Class false [CDigit]) (Star true (Class false [CDigit]))) ?r)
              ?s ?c ?k)
      with (step_char (class_match false [CDigit]) s c
              (fun s' c' => star_loop (rmatch (Class false [CDigit])) true
                              (length (rest s')) s' c'
                              (fun s'' c'' => rmatch r s'' c'' k))).
    unfold step_char. cbn [rest before]. rewrite class_digit, Hd0.
    apply star_class_run.
    + now rewrite (forallb_same _ _ _ class_digit).
    + reflexivity.
    + change (rmatch (Seq (Lit 46) (Star true (Class false [CSpace]))) ?s ?c ?k)
        with (step_char (N.eqb 46) s c
                (fun s' c' => star_loop (rmatch (Class false [CSpace])) true
                                (length (rest s')) s' c' k)).
      unfold step_char. cbn [rest before]. rewrite N.eqb_refl.
      apply star_class_run.
      * now rewrite (forallb_same _ _ _ class_space).
      * destruct tl; [exact I|]. now rewrite class_space.
      * reflexivity.
Qed.

(** A title that stands beside its number as a sibling loses the number it
    repeats: [re.sub] removes spaces, digits, a dot and the spaces after it
    at the start of the translated text, once, and nothing anywhere else;
    a text that does not open so is kept as it is. *)
Theorem numbering_removed_once (text : str) :
  (re_match numbering_pattern text = None -> re_sub numbering_pattern [] text = text)
  /\ (forall ws d0 ds tl,
        forallb isspace ws = true -> isdecimal d0 = true -> isspace d0 = false ->
        forallb isdecimal ds = true ->
        text = ws ++ (d0 :: ds) ++ py "." ++ tl ->
        re_sub numbering_pattern [] text = lstrip tl).
Proof.
  assert (Hsub : forall t, re_sub numbering_pattern [] t
                           = match re_match numbering_pattern t with
                             | Some m => skipn (m_end m) t
                             | None => t
                             end) by (intros t; apply re_sub_anchored).
  rewrite Hsub. split.
  - now intros ->.
  - intros ws d0 ds tl Hws Hd0 Hd0' Hds ->.
    destruct (lstrip_split tl) as (sp & Etl & Hsp & Hhead).
    unfold re_match, match_at. rewrite Etl at 1.
    change (py "." ++ sp ++ lstrip tl) with (46%N :: sp ++ lstrip tl).
    rewrite (numbering_matches ws d0 ds sp (lstrip tl)) by assumption.
    cbn [m_end]. unfold pos. cbn [before].
    rewrite Etl at 1.
    replace (ws ++ (d0 :: ds) ++ py "." ++ sp ++ lstrip tl)
      with ((ws ++ (d0 :: ds) ++ 46%N :: sp) ++ lstrip tl)
      by (rewrite <- ?app_assoc; reflexivity).
    replace (length (rev sp ++ 46%N :: rev ds ++ d0 :: rev ws ++ []))
      with (length (ws ++ (d0 :: ds) ++ 46%N :: sp))
      by (repeat (rewrite ?length_app, ?length_rev; cbn [length]); lia).
    apply drop_app_length.
Qed.
(** ** The title of a fragment *)

Lemma find_app {A : Type} (p : A -> bool) (a b : list A) :
  List.find p (a ++ b) = match List.find p a with
                         | Some x => Some x
                         | None => List.find p b
                         end.
Proof. induction a as [|x a IH]; [reflexivity|]. cbn. now destruct (p x). Qed.

Lemma set_string_first_tag p new_text name attrs contents found :
  set_string_first p new_text (Tag name attrs contents) found
  = if negb found && p (Tag name attrs contents)
    then (Tag name attrs [NavigableString PlainText new_text], true)
    else let '(contents', found') := set_string_list p new_text contents found in
         (Tag name attrs contents', found').
Proof. reflexivity. Qed.

Lemma set_string_list_cons p new_text c l found :
  set_string_list p new_text (c :: l) found
  = let '(c', fa) := set_string_first p new_text c found in
    let '(l', fb) := set_string_list p new_text l fa in
    (c' :: l', fb).
Proof. reflexivity. Qed.

Lemma span_of_class_contents cls name attrs contents contents' :
  is_span_of_class cls (Tag name attrs contents)
  = is_span_of_class cls (Tag name attrs contents').
Proof. reflexivity. Qed.

(** Once the span is found, nothing more is changed. *)
Lemma set_string_found cls new_text n :
  set_string_first (is_span_of_class cls) new_text n true = (n, true).
Proof.
  induction n as [k s | name attrs contents IH] using node_induction; [reflexivity|].
  rewrite set_string_first_tag. cbn [negb andb].
  assert (H : set_string_list (is_span_of_class cls) new_text contents true = (contents, true)).
  { induction IH as [|c l Hc _ IHl]; [reflexivity|].
    now rewrite set_string_list_cons, Hc, IHl. }
  now rewrite H.
Qed.

Lemma set_string_list_found cls new_text l :
  set_string_list (is_span_of_class cls) new_text l true = (l, true).
Proof.
  induction l as [|c l IH]; [reflexivity|].
  now rewrite set_string_list_cons, set_string_found, IH.
Qed.

Lemma title_set_list cls new_text (l : list node) :
  Forall (fun c => forall c' found',
            set_string_first (is_span_of_class cls) new_text c false = (c', found') ->
            title_set cls new_text [c] [c']
            /\ found' = match List.find (is_span_of_class cls) (nodes_of [c]) with
                       | Some _ => true
                       | None => false
                       end) l ->
  forall l' found',
  set_string_list (is_span_of_class cls) new_text l false = (l', found') ->
  title_set cls new_text l l'
  /\ found' = match List.find (is_span_of_class cls) (nodes_of l) with
              | Some _ => true
              | None => false
              end.
Proof.
  induction 1 as [|c l Hc _ IH]; intros l' found'.
  - cbn. intros [= <- <-]. now split.
  - rewrite set_string_list_cons.
    destruct (set_string_first _ _ c false) as [c' fa] eqn:Ec.
    destruct (Hc c' fa eq_refl) as [Htc ->]. clear Hc.
    unfold title_set, nodes_of in *. cbn [flat_map] in *. rewrite !app_nil_r in Htc.
    rewrite ?app_nil_r, !find_app.
    destruct (List.find (is_span_of_class cls) (c :: descendants c)) as [sp|] eqn:Ef.
    + rewrite set_string_list_found. intros [= <- <-].
      destruct Htc as (name & attrs & contents & l1 & l2 & -> & Hfind & Hs & Hs').
      split; [|reflexivity].
      exists name, attrs, contents, l1, (l2 ++ flat_map strings_of l).
      split; [reflexivity|]. cbn [flat_map]. rewrite find_app, Hfind.
      split; [reflexivity|]. rewrite Hs, Hs', <- !app_assoc. now split.
    + injection Htc as ->.
      destruct (set_string_list _ _ l false) as [l'' fb] eqn:El.
      destruct (IH l'' fb eq_refl) as [Htl ->]. intros [= <- <-]. split; [|reflexivity].
      destruct (List.find (is_span_of_class cls) (flat_map _ l)) as [sp|] eqn:Efl.
      * destruct Htl as (name & attrs & contents & l1 & l2 & -> & Hfind & Hs & Hs').
        exists name, attrs, contents, (strings_of c ++ l1), l2.
        split; [reflexivity|]. cbn [flat_map]. rewrite find_app, Ef, Hfind.
        split; [reflexivity|]. rewrite Hs, Hs', <- !app_assoc. now split.
      * now rewrite Htl.
Qed.

Lemma title_set_node cls new_text n : forall n' found',
  set_string_first (is_span_of_class cls) new_text n false = (n', found') ->
  title_set cls new_text [n] [n']
  /\ found' = match List.find (is_span_of_class cls) (nodes_of [n]) with
              | Some _ => true
              | None => false
              end.
Proof.
  induction n as [k s | name attrs contents IH] using node_induction; intros n' found'.
  - cbn. intros [= <- <-]. now split.
  - rewrite set_string_first_tag. cbn [negb andb].
    unfold title_set, nodes_of. cbn [flat_map descendants]. rewrite !app_nil_r.
    cbn [List.find].
    destruct (is_span_of_class cls (Tag name attrs contents)) eqn:Ep.
    + intros [= <- <-]. split; [|reflexivity].
      exists name, attrs, contents, [], []. split; [reflexivity|].
      cbn [flat_map descendants app List.find].
      rewrite (span_of_class_contents cls name attrs _ contents), Ep.
      split; [reflexivity|]. cbn [strings_of flat_map]. rewrite !app_nil_r. now split.
    + destruct (set_string_list _ _ contents false) as [contents' fb] eqn:El.
      destruct (title_set_list cls new_text contents IH contents' fb El) as [Htl ->].
      intros [= <- <-]. split; [|reflexivity].
      unfold title_set, nodes_of in Htl.
      destruct (List.find (is_span_of_class cls) (flat_map _ contents)) as [sp|] eqn:Efl.
      * destruct Htl as (nm & at' & cs & l1 & l2 & -> & Hfind & Hs & Hs').
        exists nm, at', cs, l1, l2. split; [reflexivity|].
        cbn [flat_map descendants app List.find].
        rewrite (span_of_class_contents cls name attrs _ contents), Ep, Hfind.
        split; [reflexivity|]. cbn [strings_of]. now split.
      * now rewrite Htl.
Qed.

(** With a title span in the template, the title is the one thing
    [EPUBCreator.run] changes: the first span of the class [calibre1] below
    the element, in document order, keeps its name and its attributes and
    holds the new text as its one string, whatever it held; the strings
    before it and after it stay as they are.  The new text is the
    translated text, without its leading numbering when the template has a
    span of the class [item-number]. *)
Theorem fill_template_with_title (original_elem : node) (translated_text : str) (sp : node) :
  find_span (py "calibre1") original_elem = Some sp ->
  let new_text :=
    match find_span (py "item-number") original_elem with
    | Some _ => re_sub numbering_pattern [] translated_text
    | None => translated_text
    end in
  exists name attrs contents before_it after_it,
    sp = Tag name attrs contents
    /\ find_span (py "calibre1") (fill_template original_elem translated_text)
       = Some (Tag name attrs [NavigableString PlainText new_text])
    /\ strings original_elem = before_it ++ strings_of sp ++ after_it
    /\ strings (fill_template original_elem translated_text)
       = before_it ++ [(PlainText, new_text)] ++ after_it.
Proof.
  intros Hspan new_text. unfold fill_template. rewrite Hspan. fold new_text.
  destruct original_elem as [k s | name attrs contents]; [discriminate|].
  unfold find_span in *. cbn [descendants set_string_below] in *.
  fold (set_string_list (is_span_of_class (py "calibre1")) new_text).
  destruct (set_string_list _ _ contents false) as [contents' fb] eqn:El.
  assert (Hall : Forall (fun c => forall c' found',
            set_string_first (is_span_of_class (py "calibre1")) new_text c false = (c', found') ->
            title_set (py "calibre1") new_text [c] [c']
            /\ found' = match List.find (is_span_of_class (py "calibre1")) (nodes_of [c]) with
                         | Some _ => true
                         | None => false
                         end) contents).
  { apply Forall_forall. intros c _. apply title_set_node. }
  destruct (title_set_list _ _ contents Hall contents' fb El) as [Htl _].
  unfold title_set, nodes_of in Htl. rewrite Hspan in Htl.
  destruct Htl as (nm & at' & cs & l1 & l2 & -> & Hfind & Hs & Hs').
  exists nm, at', cs, l1, l2. cbn [fst descendants strings]. now repeat split.
Qed.

(** ** What a match has read *)

Lemma reads_nil s : reads s [] s.
Proof. now split. Qed.

Lemma reads_app s1 m1 s2 m2 s3 : reads s1 m1 s2 -> reads s2 m2 s3 -> reads s1 (m1 ++ m2) s3.
Proof.
  intros [A1 B1] [A2 B2]. split.
  - rewrite A1, A2. now rewrite app_assoc.
  - rewrite B2, B1, rev_app_distr. now rewrite app_assoc.
Qed.

Lemma reads_extends s mid s' : reads s mid s' -> extends s s'.
Proof. intros H. now exists mid. Qed.

Lemma reads_pos s mid s' : reads s mid s' -> pos s' = pos s + length mid.
Proof. intros [_ H]. unfold pos. rewrite H, length_app, length_rev. lia. Qed.

Lemma step_char_reads p s (c : gmap nat (nat * nat)) k res :
  step_char p s c k = Some res ->
  exists y s', reads s [y] s' /\ p y = true /\ k s' c = Some res.
Proof.
  unfold step_char. destruct (rest s) as [|x xs] eqn:E; [discriminate|].
  destruct (p x) eqn:Ep; [|discriminate]. intros H.
  exists x, (Subject (x :: before s) xs). now repeat split.
Qed.

Lemma star_loop_reads (L : list N -> Prop) (m : subject -> gmap nat (nat * nat) -> _ -> _) g :
  (forall s c k res, m s c k = Some res ->
     exists s' mid, reads s mid s' /\ L mid /\ k s' c = Some res) ->
  forall fuel s c k res, star_loop m g fuel s c k = Some res ->
  exists s' mids, reads s (concat mids) s' /\ Forall L mids /\ k s' c = Some res.
Proof.
  intros Hm. induction fuel as [|fuel IH]; intros s c k res; cbn [star_loop].
  - intros H. exists s, []. split; [apply reads_nil|]. now split.
  - assert (Hagain : forall r0,
      m s c (fun s' c' => if length (rest s') <? length (rest s)
                          then star_loop m g fuel s' c' k else None) = Some r0 ->
      exists s' mids, reads s (concat mids) s' /\ Forall L mids /\ k s' c = Some r0).
    { intros r0 H. apply Hm in H as (s1 & mid & R1 & HL & H).
      destruct (length (rest s1) <? length (rest s)); [|discriminate].
      apply IH in H as (s2 & mids & R2 & HLs & H). exists s2, (mid :: mids).
      split; [now apply (reads_app _ _ s1)|]. split; [now constructor | exact H]. }
    destruct g.
    + destruct (m s c _) as [r0|] eqn:E.
      * intros [= <-]. now apply Hagain.
      * intros H. exists s, []. split; [apply reads_nil|]. now split.
    + destruct (k s c) as [r0|] eqn:E.
      * intros [= <-]. exists s, []. split; [apply reads_nil|]. now split.
      * apply Hagain.
Qed.

(** What a pattern without groups has read is a text of the pattern. *)
Lemma rmatch_reads r : no_groups r = true ->
  forall s c k res, rmatch r s c k = Some res ->
  exists s' mid, reads s mid s' /\ lang r mid /\ k s' c = Some res.
Proof.
  induction r as [| x | | neg items | r1 IH1 r2 IH2 | r1 IH1 r2 IH2 | g r1 IH1
                  | i r1 IH1 | | | r1 IH1 | neg items]; cbn [rmatch lang no_groups];
    intros Hg s c k res H;
    try (apply andb_prop in Hg as [Hg1 Hg2]); try discriminate.
  - exists s, []. now repeat split.
  - apply step_char_reads in H as (y & s' & R & Hy & H). apply N.eqb_eq in Hy as <-.
    now exists s', [x].
  - apply step_char_reads in H as (y & s' & R & Hy & H). apply negb_true_iff in Hy.
    exists s', [y]. split; [exact R|]. split; [now exists y | exact H].
  - apply step_char_reads in H as (y & s' & R & Hy & H).
    exists s', [y]. split; [exact R|]. split; [now exists y | exact H].
  - apply (IH1 Hg1) in H as (s1 & m1 & R1 & L1 & H).
    apply (IH2 Hg2) in H as (s2 & m2 & R2 & L2 & H).
    exists s2, (m1 ++ m2). split; [now apply (reads_app _ _ s1)|].
    split; [now exists m1, m2 | exact H].
  - destruct (rmatch r1 s c k) as [r0|] eqn:E.
    + injection H as <-. apply (IH1 Hg1) in E as (s' & mid & R & L & E).
      exists s', mid. split; [exact R|]. split; [now left | exact E].
    + apply (IH2 Hg2) in H as (s' & mid & R & L & H).
      exists s', mid. split; [exact R|]. split; [now right | exact H].
  - apply (star_loop_reads (lang r1)) in H as (s' & mids & R & L & H);
      [|intros; now apply (IH1 Hg)].
    exists s', (concat mids). split; [exact R|]. split; [now exists mids | exact H].
  - destruct (before s); [|discriminate]. exists s, []. now repeat split.
  - destruct (at_eol s); [|discriminate]. exists s, []. now repeat split.
  - destruct (rmatch r1 s c accept) as [[s1 c1]|] eqn:E; [|discriminate].
    apply (IH1 Hg) in E as (s2 & mid & _ & _ & E). injection E as _ <-.
    exists s, []. now repeat split.
  - destruct (before s) as [|x b]; [discriminate|].
    destruct (class_match neg items x); [|discriminate].
    exists s, []. now repeat split.
Qed.

Lemma seq_group_reads i r1 r2 s c k res :
  no_groups r1 = true ->
  rmatch (Seq (Group i r1) r2) s c k = Some res ->
  exists s' mid, reads s mid s' /\ lang r1 mid
                 /\ rmatch r2 s' (<[i:=(pos s, pos s')]> c) k = Some res.
Proof. intros Hg H. cbn [rmatch] in H. now apply rmatch_reads in H. Qed.

Lemma lang_star_class g neg items w :
  lang (Star g (Class neg items)) w -> forallb (class_match neg items) w = true.
Proof.
  intros (ws & -> & H). induction H as [|w ws (y & -> & Hy) _ IH]; [reflexivity|].
  cbn. now rewrite Hy.
Qed.

Lemma lang_star_dot g w : lang (Star g Dot) w -> forallb (fun y => negb (y =? 10)%N) w = true.
Proof.
  intros (ws & -> & H). induction H as [|w ws (y & -> & Hy) _ IH]; [reflexivity|].
  cbn. now rewrite Hy.
Qed.

Lemma slice_middle (a b c : list N) :
  slice (a ++ b ++ c) (length a) (length a + length b) = b.
Proof.
  unfold slice. rewrite drop_app_length.
  replace (length a + length b - length a) with (length b) by lia.
  apply take_app_length.
Qed.

(** The parts of a match of [split_pattern]: the four groups are texts of
    their patterns, and the text is the four of them. *)
Lemma split_match_parts text m :
  re_match split_pattern text = Some m ->
  exists m1 m2 m3 m4,
    text = m1 ++ m2 ++ m3 ++ m4
    /\ lang enumeration_pattern m1
    /\ lang (Star false Dot) m2
    /\ lang (Opt true (Class false [CChar (ch "."); CChar (ch "?"); CChar (ch "!")])) m3
    /\ lang (Star true (Class false [CSpace])) m4
    /\ groups4 m = (m1, m2, m3, m4).
Proof.
  unfold re_match, match_at.
  destruct (rmatch split_pattern (Subject [] text) ∅ accept) as [[e caps]|] eqn:H;
    [|discriminate].
  intros [= <-]. unfold split_pattern in H.
  change (rmatch (Seq Bol ?r) (Subject [] text) ?c ?k)
    with (rmatch r (Subject [] text) c k) in H.
  apply seq_group_reads in H as (s1 & m1 & R1 & L1 & H); [|reflexivity].
  apply seq_group_reads in H as (s2 & m2 & R2 & L2 & H); [|reflexivity].
  apply seq_group_reads in H as (s3 & m3 & R3 & L3 & H); [|reflexivity].
  pose proof H as H'.
  apply group_spaces_eol_sound in H' as (s4 & _ & Hend & Hres).
  apply seq_group_reads in H as (s4' & m4 & R4 & L4 & H); [|reflexivity].
  cbn [rmatch] in H. destruct (at_eol s4'); [|discriminate].
  unfold accept in H. injection H as <- <-. injection Hres as <- _.
  exists m1, m2, m3, m4.
  assert (Ht : text = m1 ++ m2 ++ m3 ++ m4).
  { destruct R1 as [A1 _], R2 as [A2 _], R3 as [A3 _], R4 as [A4 _].
    cbn [rest] in A1. rewrite A1, A2, A3, A4, Hend. now rewrite app_nil_r. }
  split; [exact Ht|]. repeat (split; [assumption|]).
  apply reads_pos in R1, R2, R3, R4. unfold pos in *. cbn [before length] in *.
  unfold groups4, group. cbn [m_caps m_text whole before rest rev app].
  repeat (rewrite lookup_insert_ne by lia); rewrite lookup_insert_eq.
  rewrite lookup_insert_ne by lia. rewrite lookup_insert_eq.
  repeat (rewrite lookup_insert_ne by lia); rewrite lookup_insert_eq.
  repeat (rewrite lookup_insert_ne by lia); rewrite lookup_insert_eq.
  cbv beta iota zeta delta [default from_option id].
  rewrite R4, R3, R2, R1, Ht. cbn [Nat.add].
  f_equal; [f_equal; [f_equal|]|].
  - apply (slice_middle [] m1 (m2 ++ m3 ++ m4)).
  - apply (slice_middle m1 m2 (m3 ++ m4)).
  - replace (m1 ++ m2 ++ m3 ++ m4) with ((m1 ++ m2) ++ m3 ++ m4) by now rewrite <- app_assoc.
    rewrite <- length_app. apply slice_middle.
  - replace (m1 ++ m2 ++ m3 ++ m4) with (((m1 ++ m2) ++ m3) ++ m4 ++ [])
      by (now rewrite app_nil_r, <- !app_assoc).
    rewrite <- (length_app m1 m2), <- (length_app (m1 ++ m2) m3). apply slice_middle.
Qed.

(** What [split_prefix_suffix] keeps from the backend.  Either it splits
    nothing off, or the prefix is spaces, digits, a dot or a closing
    parenthesis, and spaces; the suffix is at most one of the three
    terminators, and spaces; and the core, which goes to the backend, holds
    no newline: a text of several lines is never split. *)
Theorem split_prefix_suffix_shape (text prefix core suffix : str) :
  split_prefix_suffix text = (prefix, core, suffix) ->
  (prefix = [] /\ core = text /\ suffix = [])
  \/ (exists ws d ds p ws2 punct trail,
        prefix = ws ++ (d :: ds) ++ [p] ++ ws2
        /\ forallb isspace ws = true /\ forallb isdecimal (d :: ds) = true
        /\ (p = ch "." \/ p = ch ")") /\ forallb isspace ws2 = true
        /\ str_in nl core = false
        /\ suffix = punct ++ trail
        /\ (punct = [] \/ punct = py "." \/ punct = py "?" \/ punct = py "!")
        /\ forallb isspace trail = true).
Proof.
  unfold split_prefix_suffix.
  destruct (re_match split_pattern text) as [m|] eqn:H; [|intros [= <- <- <-]; now left].
  apply split_match_parts in H as (m1 & m2 & m3 & m4 & _ & L1 & L2 & L3 & L4 & ->).
  intros [= <- <- <-]. right.
  unfold enumeration_pattern, Plus in L1. cbn [lang] in L1.
  destruct L1 as (ws & w2 & -> & Lws & w3 & w4 & -> & (w5 & ds & -> & (d & -> & Hd) & Lds)
                  & w7 & ws2 & -> & (p & -> & Hp) & Lws2).
  change (exists l, ws = concat l /\ Forall (lang (Class false [CSpace])) l)
    with (lang (Star true (Class false [CSpace])) ws) in Lws.
  change (exists l, ws2 = concat l /\ Forall (lang (Class false [CSpace])) l)
    with (lang (Star true (Class false [CSpace])) ws2) in Lws2.
  change (exists l, ds = concat l /\ Forall (lang (Class false [CDigit])) l)
    with (lang (Star true (Class false [CDigit])) ds) in Lds.
  apply (lang_star_class true) in Lws, Lws2, Lds, L4. apply (lang_star_dot false) in L2.
  rewrite (forallb_same _ _ ws class_space) in Lws.
  rewrite (forallb_same _ _ ws2 class_space) in Lws2.
  rewrite (forallb_same _ _ m4 class_space) in L4.
  rewrite (forallb_same _ _ ds class_digit) in Lds. rewrite class_digit in Hd.
  exists ws, d, ds, p, ws2, m3, m4.
  split; [now rewrite <- !app_assoc|]. split; [exact Lws|].
  split; [cbn [forallb]; now rewrite Hd, Lds|].
  split.
  { unfold class_match in Hp. cbn in Hp. rewrite orb_false_r in Hp.
    apply orb_prop in Hp as [Hp|Hp]; apply N.eqb_eq in Hp; subst p; [now left | now right]. }
  split; [exact Lws2|].
  split.
  { apply str_in_char_forallb. rewrite <- L2. apply forallb_same.
    intros x. now rewrite N.eqb_sym. }
  split; [reflexivity|]. split; [|exact L4].
  unfold Opt in L3. cbn [lang] in L3. destruct L3 as [(y & -> & Hy) | ->]; [|now left].
  right. unfold class_match in Hy. cbn in Hy. rewrite orb_false_r in Hy.
  apply orb_prop in Hy as [Hy|Hy]; [|apply orb_prop in Hy as [Hy|Hy]];
    apply N.eqb_eq in Hy; subst y;
    [now left | right; now left | right; now right].
Qed.

(** ** The text of a filled template *)

Lemma text_pieces_of_strings (ds : list node) :
  flat_map text_piece ds = flat_map piece_of (flat_map as_string ds).
Proof.
  induction ds as [|n ds IH]; [reflexivity|]. cbn [flat_map]. rewrite flat_map_app, <- IH.
  destruct n as [k s|name attrs contents]; [|reflexivity].
  cbn [as_string flat_map]. now rewrite app_nil_r.
Qed.

Lemma get_text_strings n : get_text n = str_join (py " ") (flat_map piece_of (strings n)).
Proof. unfold get_text. now rewrite text_pieces_of_strings, strings_descendants. Qed.

Lemma piece_of_blank ks : nonblank ks = false -> piece_of ks = [].
Proof.
  destruct ks as [k s]. unfold nonblank, piece_of. cbn [fst snd text_piece].
  intros ->. now destruct k.
Qed.

Lemma pieces_of_filled main (T : list N) (l : list (strkind * list N)) : forall j,
  flat_map piece_of
    (replace_nonblank (fun i => Some (if i =? main then T else [])) l j)
  = if (j <=? main) && (main <? j + length (List.filter nonblank l))
    then piece_of (PlainText, T) else [].
Proof.
  induction l as [|ks l IH]; intros j; cbn [replace_nonblank List.filter flat_map].
  - cbn [length]. rewrite Nat.add_0_r.
    destruct (Nat.leb_spec j main), (Nat.ltb_spec main j); try reflexivity; lia.
  - destruct (nonblank ks) eqn:E; cbn [flat_map length]; rewrite IH.
    + destruct (Nat.eqb_spec j main) as [->|Hne].
      * replace (S main <=? main) with false by (symmetry; apply Nat.leb_gt; lia).
        rewrite Nat.leb_refl.
        replace (main <? main + S (length (List.filter nonblank l))) with true
          by (symmetry; apply Nat.ltb_lt; lia).
        cbn [andb]. now rewrite app_nil_r.
      * change (piece_of (PlainText, [])) with (@nil (list N)). cbn [app].
        replace (j + S (length (List.filter nonblank l)))
          with (S j + length (List.filter nonblank l)) by lia.
        destruct (Nat.leb_spec (S j) main), (Nat.leb_spec j main); try reflexivity; lia.
    + now rewrite piece_of_blank.
Qed.

(** The strings of a template filled without a title span, when some
    string of the template is more than spaces. *)
Lemma fill_template_strings (original_elem : node) (translated_text : list N) :
  find_span (py "calibre1") original_elem = None ->
  List.filter nonblank (strings original_elem) <> [] ->
  exists main,
    main < length (List.filter nonblank (strings original_elem))
    /\ strings (fill_template original_elem translated_text)
       = replace_nonblank (fun j => Some (if j =? main then translated_text else []))
                          (strings original_elem) 0.
Proof.
  intros Hspan Hsome. unfold fill_template. rewrite Hspan.
  pose proof (text_nodes_lengths (descendants original_elem)) as Hlens.
  rewrite <- strings_descendants in Hlens.
  set (lens := List.map (fun ks => length (snd ks))
                        (List.filter nonblank (strings original_elem))) in *.
  assert (Hlen : length lens = length (List.filter nonblank (strings original_elem)))
    by apply length_map.
  set (text_nodes := List.filter is_text_node (descendants original_elem)) in *.
  assert (Hrep : forall f, exists n' i',
            replace_text_nodes f original_elem 0 = (n', i')
            /\ (text_nodes <> [] -> strings n' = replace_nonblank f (strings original_elem) 0)).
  { intros f. destruct (replace_text_nodes f original_elem 0) as [n' i'] eqn:E.
    exists n', i'. split; [reflexivity|].
    pose proof (replace_text_nodes_strings f original_elem 0 n' i' E) as (Hs & _ & _).
    intros Hne. destruct original_elem as [k s | name attrs contents].
    - now contradiction Hne.
    - rewrite replace_text_nodes_tag in E.
      destruct (replace_list f contents 0). injection E as <- _. exact Hs. }
  destruct text_nodes as [|x [|y more]] eqn:Etn.
  - exfalso. apply Hsome. destruct (List.filter nonblank (strings original_elem));
      [reflexivity | discriminate].
  - destruct (Hrep (fun i => if i =? 0 then Some translated_text else None))
      as (n' & i' & -> & Hs).
    cbn [fst]. exists 0.
    assert (Hone : length (List.filter nonblank (strings original_elem)) = 1).
    { rewrite <- Hlen, <- Hlens. reflexivity. }
    split; [lia|]. rewrite Hs by discriminate. apply replace_nonblank_ext.
    intros i Hi. replace i with 0 by lia. reflexivity.
  - destruct (Hrep (fun i => Some (if i =? index_of_max (x :: y :: more)
                                   then translated_text else [])))
      as (n' & i' & -> & Hs).
    cbn [fst]. exists (index_of_max (x :: y :: more)). split; [|now apply Hs].
    pose proof (index_of_max_first_longest (x :: y :: more) ltac:(discriminate)) as [Hm _].
    rewrite Hlens, Hlen in Hm. exact Hm.
Qed.

(** A template filled without a title span reads as the translation:
    when the element has a text, [get_text] of the filled template is the
    translated text without the spaces around it, whatever markup and
    however many strings the template holds. *)
Theorem filled_template_reads_as_translation (original_elem : node) (translated_text : str) :
  find_span (py "calibre1") original_elem = None ->
  truthy (get_text original_elem) = true ->
  get_text (fill_template original_elem translated_text) = strip translated_text.
Proof.
  intros Hspan Htext.
  assert (Hsome : List.filter nonblank (strings original_elem) <> []).
  { intros Hnone. rewrite get_text_strings in Htext.
    replace (flat_map piece_of (strings original_elem)) with (@nil (list N)) in Htext;
      [discriminate | clear Htext].
    symmetry. induction (strings original_elem) as [|ks l IH]; [reflexivity|].
    cbn [List.filter] in Hnone. destruct (nonblank ks) eqn:E; [discriminate|].
    cbn [flat_map]. now rewrite piece_of_blank, IH. }
  destruct (fill_template_strings original_elem translated_text Hspan Hsome)
    as (main & Hmain & Hs).
  rewrite get_text_strings, Hs, pieces_of_filled. cbn [Nat.leb Nat.add andb].
  replace (main <? length (List.filter nonblank (strings original_elem))) with true
    by (symmetry; now apply Nat.ltb_lt).
  unfold piece_of. cbn [fst snd text_piece].
  destruct (strip translated_text); reflexivity.
Qed.

(** ** The fragments of a book *)

(** What a walk adds to the fragments are fragments made of the texts of
    the tree, with the name of the item and of the tag. *)
Lemma visit_keeps (P : para -> Prop) href tag_name attrs contents st attrs' st' :
  visit href tag_name attrs contents st = (attrs', st') ->
  (get_text (Tag tag_name attrs contents) <> [] ->
   forall id html,
     P {| para_id := id; original_text := get_text (Tag tag_name attrs contents);
          translated_text := []; is_translated := false; item_href := href;
          element_type := tag_name; original_html := Some html; timestamp := None |}) ->
  Forall P (x_paragraphs st) -> Forall P (x_paragraphs st').
Proof.
  unfold visit. intros H HP Hst.
  destruct (truthy (get_text (Tag tag_name attrs contents))) eqn:Et; cbn [negb] in H;
    [|now injection H as _ <-].
  destruct (bool_decide _); [now injection H as _ <-|].
  destruct (attr_get (py "id") attrs); injection H as _ <-; cbn [x_paragraphs];
    (apply Forall_app; split; [exact Hst|]); constructor; try constructor;
    apply HP; intros E; now rewrite E in Et.
Qed.

Lemma extract_list_keeps (P : para -> Prop) href tag_name contents :
  Forall (fun c => forall st n' st',
            extract_node href tag_name c st = (n', st') ->
            (forall t, t ∈ texts_at tag_name c -> t <> [] -> forall id html,
               P {| para_id := id; original_text := t; translated_text := [];
                    is_translated := false; item_href := href; element_type := tag_name;
                    original_html := Some html; timestamp := None |}) ->
            Forall P (x_paragraphs st) -> Forall P (x_paragraphs st')) contents ->
  forall st l' st',
  extract_list href tag_name contents st = (l', st') ->
  (forall t, t ∈ flat_map (texts_at tag_name) contents -> t <> [] -> forall id html,
     P {| para_id := id; original_text := t; translated_text := [];
          is_translated := false; item_href := href; element_type := tag_name;
          original_html := Some html; timestamp := None |}) ->
  Forall P (x_paragraphs st) -> Forall P (x_paragraphs st').
Proof.
  induction 1 as [|c cs Hc _ IH]; intros st l' st'.
  - now intros [= <- <-].
  - rewrite extract_list_cons.
    destruct (extract_node href tag_name c st) as [c' sa] eqn:Ec.
    destruct (extract_list href tag_name cs sa) as [l'' sb] eqn:El.
    intros [= <- <-] HP Hst. cbn [flat_map] in HP.
    apply (IH _ _ _ El).
    + intros t Ht. apply HP, elem_of_app. now right.
    + apply (Hc _ _ _ Ec); [|exact Hst]. intros t Ht. apply HP, elem_of_app. now left.
Qed.

Lemma extract_node_keeps (P : para -> Prop) href tag_name n :
  forall st n' st',
  extract_node href tag_name n st = (n', st') ->
  (forall t, t ∈ texts_at tag_name n -> t <> [] -> forall id html,
     P {| para_id := id; original_text := t; translated_text := [];
          is_translated := false; item_href := href; element_type := tag_name;
          original_html := Some html; timestamp := None |}) ->
  Forall P (x_paragraphs st) -> Forall P (x_paragraphs st').
Proof.
  induction n as [k s | name attrs contents IH] using node_induction; intros st n' st'.
  - now intros [= <- <-].
  - rewrite extract_node_tag.
    destruct (if str_eqb name tag_name then visit href tag_name attrs contents st
              else (attrs, st)) as [attrs' st1] eqn:Ev.
    destruct (extract_list href tag_name contents st1) as [contents' st2] eqn:El.
    intros [= <- <-] HP Hst. rewrite texts_at_tag in HP.
    apply (extract_list_keeps P _ _ _ IH _ _ _ El).
    + intros t Ht. apply HP, elem_of_app. now right.
    + destruct (str_eqb name tag_name) eqn:En; [|now injection Ev as _ <-].
      apply bool_decide_eq_true in En. subst name.
      apply (visit_keeps P _ _ _ _ _ _ _ Ev); [|exact Hst].
      intros Hne. apply HP; [|exact Hne]. apply elem_of_app. left. apply list_elem_of_here.
Qed.

Lemma extract_tag_keeps (P : para -> Prop) href tag_name soup st soup' st' :
  extract_tag href (soup, st) tag_name = (soup', st') ->
  (forall t, t ∈ List.map get_text (find_all tag_name soup) -> t <> [] -> forall id html,
     P {| para_id := id; original_text := t; translated_text := [];
          is_translated := false; item_href := href; element_type := tag_name;
          original_html := Some html; timestamp := None |}) ->
  Forall P (x_paragraphs st) -> Forall P (x_paragraphs st').
Proof.
  unfold extract_tag. cbn [fst snd]. destruct soup as [k s | name attrs contents].
  - now intros [= <- <-].
  - destruct (extract_list href tag_name contents st) as [contents' st2] eqn:El.
    intros [= <- <-] HP Hst. rewrite find_all_texts in HP.
    apply (extract_list_keeps P _ _ _ (proj2 (Forall_forall _ _)
             (fun c _ => extract_node_keeps P href tag_name c)) _ _ _ El HP Hst).
Qed.

Lemma extract_tags_keeps (P : para -> Prop) href tags : forall soup st soup' st',
  fold_left (extract_tag href) tags (soup, st) = (soup', st') ->
  (forall tag_name t, tag_name ∈ tags ->
     t ∈ List.map get_text (find_all tag_name soup) -> t <> [] -> forall id html,
     P {| para_id := id; original_text := t; translated_text := [];
          is_translated := false; item_href := href; element_type := tag_name;
          original_html := Some html; timestamp := None |}) ->
  Forall P (x_paragraphs st) -> Forall P (x_paragraphs st').
Proof.
  induction tags as [|tag tags IH]; intros soup st soup' st'.
  - now intros [= <- <-].
  - cbn [fold_left].
    destruct (extract_tag href (soup, st) tag) as [soup1 st1] eqn:E1.
    intros H HP Hst. apply (IH _ _ _ _ H).
    + intros tag_name t Htag Ht. apply HP; [now apply list_elem_of_further|].
      apply extract_tag_ok in E1 as (Hshape & _).
      now rewrite <- (find_all_texts_same_shape _ _ _ Hshape).
    + apply (extract_tag_keeps P _ _ _ _ _ _ E1); [|exact Hst].
      intros t Ht. apply HP; [apply list_elem_of_here | exact Ht].
Qed.

(** The clean text of an element has no space at either end. *)
Lemma str_join_stripped (sep : list N) (l : list (list N)) :
  Forall (fun piece => piece <> [] /\ strip piece = piece) l ->
  strip (str_join sep l) = str_join sep l.
Proof.
  intros H. apply strip_fixed. split.
  - destruct H as [|p l [Hp Hs] Hl]; [reflexivity|].
    apply strip_fixed in Hs as [Hs _].
    destruct l as [|q l]; [exact Hs|]. rewrite str_join_cons by discriminate.
    now apply lstrip_app.
  - induction H as [|p l [Hp Hs] Hl IH]; [reflexivity|].
    destruct l as [|q l]; [now apply strip_fixed in Hs|].
    rewrite str_join_cons by discriminate. rewrite app_assoc.
    apply rstrip_app; [exact IH|].
    apply Forall_cons in Hl as [[Hq _] _]. destruct l as [|q' l].
    + exact Hq.
    + rewrite str_join_cons by discriminate. destruct q; [contradiction | discriminate].
Qed.

Lemma get_text_stripped elem : strip (get_text elem) = get_text elem.
Proof.
  unfold get_text. apply str_join_stripped.
  induction (descendants elem) as [|n ds IH]; [constructor|].
  cbn [flat_map]. apply Forall_app. split; [|exact IH].
  destruct n as [[| | |] s | name attrs contents]; cbn [text_piece]; try constructor;
    (destruct (truthy (strip s)) eqn:E; constructor; [|constructor]);
    (split; [intros H; now rewrite H in E | apply strip_strip]).
Qed.

Lemma load_item_keeps book it st it' st' :
  it ∈ book ->
  load_item it st = (it', st') ->
  Forall (fragment_of book) (x_paragraphs st) ->
  Forall (fragment_of book) (x_paragraphs st').
Proof.
  intros Hit. unfold load_item.
  destruct (truthy (item_content it)) eqn:Ec; cbn [negb]; [|now intros [= <- <-]].
  destruct (fold_left _ _ _) as [soup' st2] eqn:Ef. intros [= <- <-].
  apply (extract_tags_keeps _ _ _ _ _ _ _ Ef).
  intros tag_name t Htag Ht Hne id html.
  apply list_elem_of_In, in_map_iff in Ht as (elem & <- & Helem).
  exists it, elem. cbn [item_href element_type original_text translated_text
                        is_translated original_html timestamp].
  repeat split; try assumption; try reflexivity.
  - now apply list_elem_of_In.
  - apply get_text_stripped.
  - now eexists.
Qed.

(** Every fragment [load_epub] returns comes from an element of an
    extracted tag in an item with content, whose name and clean text it
    carries; its text is not empty and has no space at either end, and it
    is not translated. *)
Theorem load_epub_fragments (book : list item) :
  Forall (fragment_of book) (snd (load_epub book)).
Proof.
  unfold load_epub.
  destruct (load_items book (Extraction [] ∅ 0)) as [book' st] eqn:E. cbn [snd].
  assert (H : forall items st0 items' st',
            (forall it, it ∈ items -> it ∈ book) ->
            load_items items st0 = (items', st') ->
            Forall (fragment_of book) (x_paragraphs st0) ->
            Forall (fragment_of book) (x_paragraphs st')).
  { induction items as [|it0 more IH]; intros st0 items' st' Hin.
    - now intros [= <- <-].
    - cbn [load_items].
      destruct (load_item it0 st0) as [it1 st1] eqn:E1.
      destruct (load_items more st1) as [more' st2] eqn:E2.
      intros [= <- <-] Hst. apply (IH _ _ _ (fun it Hi => Hin it (list_elem_of_further _ _ _ Hi)) E2).
      apply (load_item_keeps book it0 st0 it1 st1); [|exact E1|exact Hst].
      apply Hin, list_elem_of_here. }
  apply (H book _ _ _ (fun it Hi => Hi) E). constructor.
Qed.

(** ** The look of an item *)

(** The colour of an item tells the state of its fragment: white when it
    is not translated, red when the detector flags it, green otherwise.  A
    mark on the font, underline, italic or strike-out, stands on red items
    only, and so does a tooltip. *)
Theorem item_visuals_agree (para_data : para) :
  let v := update_item_visuals para_data in
  (foreground v = White <-> is_translated para_data = false)
  /\ (foreground v = Red <-> para_has_mismatch para_data = true)
  /\ (underline v || italic v || strike_out v = true -> foreground v = Red)
  /\ (tool_tip v = [] <-> foreground v <> Red).
Proof.
  unfold update_item_visuals.
  cbn [foreground underline italic strike_out tool_tip].
  unfold para_has_mismatch, mismatch_checks.
  destruct (is_translated para_data); cbn [negb andb orb existsb].
  - set (c1 := negb (count_paragraphs _ =? count_paragraphs _)).
    set (c2 := negb (str_eqb (first_char_type _) (first_char_type _))).
    set (c3 := negb (str_eqb (last_char_type _) (last_char_type _))).
    match goal with |- context [c1 || (c2 || (c3 || ?r))] => set (others := r) end.
    destruct c1, c2, c3, others; cbn [orb];
      repeat split; try discriminate; try reflexivity; try (intros H; now contradiction H);
      try (intros _ H; discriminate H).
  - repeat split; try discriminate; try reflexivity.
Qed.

(** ** The headers of the items *)






(** ** A run without automatic retries *)

Lemma remaining_mismatch_filter ps (selected : gset nat) remaining :
  remaining_mismatch ps selected = Some remaining ->
  remaining = List.filter (fun idx => bool_decide (_has_mismatch ps idx = Some true))
                          (elements selected).
Proof.
  unfold remaining_mismatch. revert remaining.
  induction (elements selected) as [|idx l IH]; intros remaining; cbn [foldr List.filter].
  - now intros [= <-].
  - destruct (_has_mismatch ps idx) as [[|]|];
      destruct (foldr _ (Some []) l) as [r|]; try discriminate; intros [= <-].
    + rewrite bool_decide_eq_true_2 by reflexivity. f_equal. now apply IH.
    + rewrite bool_decide_eq_false_2 by discriminate. now apply IH.
Qed.

(** With the automatic retries off, a run of [start_translation] that ends
    retries nothing, and its last message counts the selected fragments
    that the detector flags at the end: the warning with their number when
    there are some, the plain completion message when there is none. *)
Theorem manual_run_reports_mismatches (rounds : nat) (selected_items : list nat)
    (max_attempts : nat) (a a' : TranslatorApp) :
  auto_fix_checked a = false ->
  selected_items <> [] ->
  start_translation rounds selected_items max_attempts a = Finished a' ->
  let flagged :=
    List.filter (fun idx => bool_decide (_has_mismatch (paragraphs a') idx = Some true))
                (elements (list_to_set selected_items : gset nat)) in
  dispatched a' = dispatched a
  /\ shown a' = shown a ++ [match flagged with
                            | [] => Completed
                            | _ :: _ => CompletedWithWarnings (length flagged)
                            end].
Proof.
  intros Hoff Hne. unfold start_translation.
  destruct selected_items as [|idx0 more] eqn:Esel; [contradiction|]. rewrite <- Esel.
  clear Esel Hne idx0 more.
  destruct (mapM _ selected_items) as [jobs|]; [|discriminate].
  destruct (run _ _ _ _) as [[[ps wd] evs]|]; [|discriminate].
  unfold on_translation_finished. cbn [auto_fix_checked]. rewrite Hoff.
  intros H. apply finalize_shows in H as (remaining & Hrem & Hps & Hd & Hs).
  cbn [paragraphs selected_for_auto_fix dispatched shown] in *.
  apply remaining_mismatch_filter in Hrem. rewrite Hps, <- Hrem. now split.
Qed.

(** ** What the worker keeps and the detector reads *)

Lemma lstrip_app_keeps a b : truthy (lstrip a) = true -> lstrip (a ++ b) = lstrip a ++ b.
Proof.
  induction a as [|x a IH]; [discriminate|]. cbn [app lstrip].
  destruct (isspace x); [exact IH | reflexivity].
Qed.

Lemma truthy_lstrip s : truthy (lstrip s) = existsb (fun c => negb (isspace c)) s.
Proof.
  induction s as [|x s IH]; [reflexivity|]. cbn [lstrip existsb].
  destruct (isspace x); [exact IH | reflexivity].
Qed.

Lemma existsb_rev {A : Type} (q : A -> bool) (l : list A) : existsb q (rev l) = existsb q l.
Proof.
  induction l as [|x l IH]; [reflexivity|]. cbn [rev existsb].
  rewrite existsb_app, IH. cbn. now rewrite orb_false_r, orb_comm.
Qed.

Lemma existsb_lstrip s :
  existsb (fun c => negb (isspace c)) (lstrip s) = existsb (fun c => negb (isspace c)) s.
Proof.
  induction s as [|x s IH]; [reflexivity|]. cbn [lstrip].
  destruct (isspace x) eqn:E; [|reflexivity]. cbn [existsb]. now rewrite E, IH.
Qed.

Lemma truthy_rev {A : Type} (l : list A) :
  match rev l with [] => false | _ :: _ => true end = match l with [] => false | _ :: _ => true end.
Proof.
  destruct l as [|x l]; [reflexivity|]. cbn [rev]. now destruct (rev l).
Qed.

Lemma truthy_strip s : truthy (strip s) = existsb (fun c => negb (isspace c)) s.
Proof.
  unfold strip, rstrip, truthy. rewrite truthy_rev. fold (truthy (lstrip (rev (lstrip s)))).
  now rewrite truthy_lstrip, existsb_rev, existsb_lstrip.
Qed.

(** What the worker keeps of a text settles two checks of the detector,
    whatever the backend returned for the core: with a prefix that is more
    than spaces, the first character of the reassembled text has the type
    of the first character of the original; with a suffix that is more than
    spaces, the last character has the type of the last. *)
Theorem kept_ends_pass_the_character_checks (text prefix core suffix result : str) :
  split_prefix_suffix text = (prefix, core, suffix) ->
  (truthy (strip prefix) = true ->
     first_char_type (prefix ++ result ++ suffix) = first_char_type text)
  /\ (truthy (strip suffix) = true ->
        last_char_type (prefix ++ result ++ suffix) = last_char_type text).
Proof.
  intros Hsplit. pose proof (split_parts_concat _ _ _ _ Hsplit) as <-.
  split; intros Hkeep; rewrite truthy_strip in Hkeep.
  - rewrite (proj1 (character_types_spec (prefix ++ result ++ suffix))).
    rewrite (proj1 (character_types_spec (prefix ++ core ++ suffix))).
    rewrite !lstrip_app_keeps by now rewrite truthy_lstrip.
    assert (Hne : truthy (lstrip prefix) = true) by now rewrite truthy_lstrip.
    now destruct (lstrip prefix).
  - rewrite (proj2 (character_types_spec (prefix ++ result ++ suffix))).
    rewrite (proj2 (character_types_spec (prefix ++ core ++ suffix))).
    unfold rstrip. rewrite !rev_involutive, !app_assoc, !(rev_app_distr _ suffix).
    rewrite !lstrip_app_keeps by now rewrite truthy_lstrip, existsb_rev.
    assert (Hne : truthy (lstrip (rev suffix)) = true)
      by now rewrite truthy_lstrip, existsb_rev.
    now destruct (lstrip (rev suffix)).
Qed.

End Program.

(** * The claims at concrete inputs *)

(** The examples are ASCII texts, for which the Unicode tables do not
    matter; the world of the backends is the unit type. *)

Definition fragment (text translation : str) (translated : bool) : para :=
  {| para_id := py "1"; original_text := text; translated_text := translation;
     is_translated := translated; item_href := py "chapter.xhtml";
     element_type := py "p"; original_html := None; timestamp := None |}.

(** The worker of the program's own prompts, for the LM Studio backend. *)
Definition plain_worker : TranslationWorker :=
  {| llm_instruction := py "Translate to Polish."; context_size := 3;
     llm_choice := LM_Studio; custom_ollama_prompt := None;
     custom_system_prompt := None; custom_user_prompt := None |}.

(** The worker of the program's own prompt, for the Ollama backend. *)
Definition ollama_worker : TranslationWorker :=
  {| llm_instruction := py "Translate to Polish."; context_size := 3;
     llm_choice := Ollama; custom_ollama_prompt := None;
     custom_system_prompt := None; custom_user_prompt := None |}.

(** A backend that answers every call with the same text, one that raises
    on every call, and a [format] that leaves a template as it is. *)
Definition answers (text : str) (req : request) (w : unit) : outcome * unit :=
  (Returned text, w).
Definition raises (msg : str) (req : request) (w : unit) : outcome * unit :=
  (Raised msg, w).
Definition keep_template (template : str) (fields : list (str * str)) : outcome :=
  Returned template.

Definition hello : str := py "12. Hello.".

(** C1, witness: the backend answers [Witaj] for the core of [12. Hello.];
    [12. Witaj.] is stored. *)
Lemma run_one_reassembles_witness :
  run_one ascii_only (answers (py "Witaj")) keep_template plain_worker
          [fragment hello [] false] tt 0 hello
  = Some ([fragment hello (py "12. Witaj.") true], tt,
          Progress 0 (py "12. Witaj.") false).
Proof.
  pose proof (run_one_reassembles ascii_only (answers (py "Witaj")) keep_template
                plain_worker [fragment hello [] false] tt 0 hello
                (fragment hello [] false) (py "12. ") (py "Hello") (py ".")
                eq_refl eq_refl) as H.
  cbv zeta in H. destruct H as (_ & _ & _ & _ & _ & H & _).
  exact (H _ (py "Witaj") tt eq_refl eq_refl ltac:(discriminate)).
Defined.

(** C1, counterexample: the backend returns the empty string for the core
    of [12. Hello.]; what is stored is the error string, which does not
    start with the prefix [12. ] and is not prefix, result and suffix.
    And with the program's own prompt for Ollama, the request for the
    same fragment does not hold the core [Hello]. *)
Lemma run_one_empty_answer :
  split_prefix_suffix ascii_only hello = (py "12. ", py "Hello", py ".")
  /\ run_one ascii_only (answers []) keep_template plain_worker
             [fragment hello [] false] tt 0 hello
     = Some ([fragment hello (py "ERROR: Empty translation received") false], tt,
             Progress 0 (py "ERROR: Empty translation received") true)
  /\ is_prefix (py "12. ") (py "ERROR: Empty translation received") = false
  /\ str_eqb (py "ERROR: Empty translation received") (py "12. " ++ [] ++ py ".") = false
  /\ build_request ascii_only keep_template ollama_worker [] (py "Hello")
     = inl (call_ollama_api
              (py "Translate to Polish." ++ nl ++ nl
               ++ py "Context (ONLY for understanding, DO NOT translate):" ++ nl
               ++ nl ++ py "---" ++ nl
               ++ py "Translate ONLY this (do not write anything else):" ++ nl
               ++ py "{core_text}"))
  /\ str_in (py "Hello")
       (py "Translate to Polish." ++ nl ++ nl
        ++ py "Context (ONLY for understanding, DO NOT translate):" ++ nl
        ++ nl ++ py "---" ++ nl
        ++ py "Translate ONLY this (do not write anything else):" ++ nl
        ++ py "{core_text}") = false.
Proof. repeat split; vm_compute; reflexivity. Qed.

(** C2, witness: [Hello.] translated as [Hello.]. *)
Lemma identical_translation_no_mismatch_witness :
  mismatch_checks ascii_only (py "Hello.") (py "Hello.") = repeat false 12
  /\ _has_mismatch ascii_only [fragment (py "Hello.") (py "Hello.") true] 0 = Some false.
Proof.
  exact (identical_translation_no_mismatch ascii_only
           [fragment (py "Hello.") (py "Hello.") true] 0
           (fragment (py "Hello.") (py "Hello.") true) eq_refl eq_refl eq_refl).
Defined.

(** C3, witness: a fragment that is not marked translated, whose texts
    differ in every respect. *)
Lemma untranslated_never_flagged_witness :
  _has_mismatch ascii_only [fragment (py "1. Chapter (one)") (py "x") false] 0 = Some false.
Proof.
  exact (untranslated_never_flagged ascii_only
           [fragment (py "1. Chapter (one)") (py "x") false] 0
           (fragment (py "1. Chapter (one)") (py "x") false) eq_refl eq_refl).
Defined.

(** C4, witness: the backend raises [boom] on [12. Hello.]. *)
Lemma is_translated_after_attempt_witness :
  exists ps q ev,
    run_one ascii_only (raises (py "boom")) keep_template plain_worker
            [fragment hello [] false] tt 0 hello = Some (ps, tt, ev)
    /\ ps !! 0 = Some q
    /\ is_translated q = false
    /\ translated_text q = py "ERROR: boom".
Proof.
  destruct (is_translated_after_attempt ascii_only (raises (py "boom")) keep_template
              plain_worker [fragment hello [] false] tt 0 hello
              (fragment hello [] false) (py "12. ") (py "Hello") (py ".")
              eq_refl eq_refl)
    as (ps & q & [] & ev & Hrun & Hq & _ & _ & _ & [Hflag Htext] & _).
  exists ps, q, ev. now repeat split.
Defined.

(** C4, counterexample: the backend raises, the error string is stored and
    the fragment is marked untranslated; a character typed after the error
    string in the editor marks the fragment translated, and so does a text
    typed for a fragment no backend was ever called for. *)
Lemma edit_marks_translated :
  run_one ascii_only (raises (py "boom")) keep_template plain_worker
          [fragment hello [] false] tt 0 hello
  = Some ([fragment hello (py "ERROR: boom") false], tt,
          Progress 0 (py "ERROR: boom") true)
  /\ update_translation_from_edit 0 (py "ERROR: boom!") [fragment hello (py "ERROR: boom") false]
     = Some [fragment hello (py "ERROR: boom!") true]
  /\ update_translation_from_edit 0 (py "x") [fragment hello [] false]
     = Some [fragment hello (py "x") true].
Proof. repeat split; vm_compute; reflexivity. Qed.

(** A window with one fragment, [Hello], auto-fix checked, nothing run. *)
Definition one_fragment_app : @TranslatorApp unit :=
  {| paragraphs := [fragment (py "Hello") [] false];
     selected_for_auto_fix := ∅; auto_fix_attempts := ∅;
     max_auto_fix_attempts := 0; auto_fix_checked := true;
     settings := plain_worker; world := tt; dispatched := []; shown := [] |}.

(** C5, the run at the failing input: one fragment, [Hello], is selected;
    at most 3 attempts; the backend answers [123] to every call, which the
    detector flags (a digit for a letter, a number that was not there).
    The controller retries the fragment three times and stops; the
    fragment is still flagged; the summary shown is the one of a run
    without mismatch. *)
Theorem retry_cap_reports_complete :
  exists a,
    start_translation ascii_only (answers (py "123")) keep_template 4 [0] 3 one_fragment_app
    = Finished a
    /\ dispatched a = [0; 0; 0]
    /\ paragraphs a = [fragment (py "Hello") (py "123") true]
    /\ _has_mismatch ascii_only (paragraphs a) 0 = Some true
    /\ shown a = [Completed].
Proof. eexists. split; [vm_compute; reflexivity|]. repeat split. Qed.

(** A document of three paragraphs, two of them with the same text. *)
Definition twice : node :=
  Tag (py "[document]") []
    [ Tag (py "p") [] [NavigableString PlainText (py "Same text")];
      Tag (py "p") [(py "id", py "second")] [NavigableString PlainText (py " Same  text ")];
      Tag (py "p") [] [NavigableString PlainText (py "Same text")] ].
Definition twice_book : list item := [Item (py "chapter.xhtml") (py "<html/>")].

(** C6, witness: two paragraphs of one item with the same clean text give
    one fragment. *)
Lemma load_epub_deduplicates_witness :
  length (List.filter
            (fun p => bool_decide (fragment_key p = (py "chapter.xhtml", py "Same text")))
            (snd (load_epub ascii_only (fun _ => twice) (fun _ => []) (fun _ => py "0")
                            twice_book))) = 1.
Proof.
  apply (proj1 (proj2 (load_epub_deduplicates ascii_only (fun _ => twice) (fun _ => [])
                         (fun _ => py "0") twice_book))
           (Item (py "chapter.xhtml") (py "<html/>")) (py "p")
           (Tag (py "p") [] [NavigableString PlainText (py "Same text")])).
  - apply list_elem_of_here.
  - discriminate.
  - apply list_elem_of_In. vm_compute. tauto.
  - apply list_elem_of_In. vm_compute. tauto.
  - discriminate.
Defined.

(** A document in which a paragraph is followed by a heading with the
    same text. *)
Definition heading_after : node :=
  Tag (py "[document]") []
    [ Tag (py "p") [(py "id", py "first")] [NavigableString PlainText (py "Same")];
      Tag (py "h1") [(py "id", py "second")] [NavigableString PlainText (py "Same")] ].

(** C6, counterexample: of the two elements with the text [Same], the
    paragraph is the first of the document and the heading the second;
    the one fragment extracted is that of the heading, the second
    occurrence, because headings are searched before paragraphs: it is
    the first occurrence that is skipped. *)
Lemma load_epub_keeps_the_heading :
  flat_map (fun n => match n with
                     | Tag name attrs _ =>
                         [(name, attr_get (py "id") attrs, get_text ascii_only n)]
                     | NavigableString _ _ => []
                     end) (descendants heading_after)
  = [ (py "p", Some (py "first"), py "Same"); (py "h1", Some (py "second"), py "Same") ]
  /\ List.map (fun p => (para_id p, element_type p, original_text p, item_href p))
       (snd (load_epub ascii_only (fun _ => heading_after) (fun _ => []) (fun _ => py "0")
                       twice_book))
     = [ (py "second", py "h1", py "Same", py "chapter.xhtml") ].
Proof. split; vm_compute; reflexivity. Qed.

(** A subtitle whose second line ends in a space and whose text starts
    with one. *)
Definition padded_subtitle : str :=
  py "1" ++ nl ++ py "00:00:01,000 --> 00:00:02,000 " ++ nl ++ py " Hello".

(** C7, counterexample: the time stored is not the second line as it
    stands, and the text is not the third. *)
Lemma load_srt_strips_lines :
  str_split nl padded_subtitle
  = [py "1"; py "00:00:01,000 --> 00:00:02,000 "; py " Hello"]
  /\ load_srt ascii_only (py "film.srt") padded_subtitle
     = [ {| para_id := py "1"; original_text := py "Hello"; translated_text := [];
            is_translated := false; item_href := py "film.srt";
            element_type := py "subtitle"; original_html := None;
            timestamp := Some (py "00:00:01,000 --> 00:00:02,000") |} ]
  /\ str_eqb (py "00:00:01,000 --> 00:00:02,000") (py "00:00:01,000 --> 00:00:02,000 ")
     = false.
Proof. repeat split; vm_compute; reflexivity. Qed.

(** A template with three strings that are more than spaces, the last a
    comment and the longest, and one that is a space. *)
Definition mixed_template : node :=
  Tag (py "p") []
    [ NavigableString PlainText (py "ab");
      Tag (py "b") [] [NavigableString PlainText (py "hello")];
      NavigableString PlainText (py " ");
      NavigableString Comment (py "longest!") ].

(** C8, witness: the template has no span at all. *)
Lemma fill_template_without_title_witness :
  skeleton (fill_template ascii_only mixed_template (py "T")) = skeleton mixed_template
  /\ strings (fill_template ascii_only mixed_template (py "T"))
     = [(PlainText, []); (PlainText, []); (PlainText, py " "); (PlainText, py "T")].
Proof.
  split.
  - exact (proj1 (fill_template_without_title ascii_only mixed_template (py "T") eq_refl)).
  - vm_compute. reflexivity.
Defined.

(** C9, the checks at the failing input: [don't] translated as [1 nie].
    The bracket and quote check of the detector, the ninth, does not fire:
    the apostrophe stands between two letters.  The detector flags the
    fragment for other reasons, and the tooltip then lists the bracket and
    quote reason, because its own count keeps the apostrophe. *)
Theorem tooltip_counts_inner_apostrophe :
  mismatch_checks ascii_only (py "don't") (py "1 nie") !! 8 = Some false
  /\ count_brackets_quotes ascii_only (py "don't") = count_brackets_quotes ascii_only (py "1 nie")
  /\ para_has_mismatch ascii_only (fragment (py "don't") (py "1 nie") true) = true
  /\ tooltip_parts ascii_only (fragment (py "don't") (py "1 nie") true)
     = [ py "Different first character type"; py "Mismatched numbers";
         py "Mismatched brackets or quotes" ].
Proof. repeat split; vm_compute; reflexivity. Qed.

(** C10, witness: [Hello.] does not open with an enumeration. *)
Lemma split_prefix_suffix_partition_witness :
  split_prefix_suffix ascii_only (py "Hello.") = ([], py "Hello.", []).
Proof.
  apply (proj2 (proj2 (split_prefix_suffix_partition ascii_only (py "Hello.")))).
  vm_compute. reflexivity.
Defined.

(** The window once the batch for [Hello] has come back with [123]. *)
Definition flagged_app : @TranslatorApp unit :=
  {| paragraphs := [fragment (py "Hello") (py "123") true];
     selected_for_auto_fix := {[0]}; auto_fix_attempts := {[0 := 0]};
     max_auto_fix_attempts := 3; auto_fix_checked := true;
     settings := plain_worker; world := tt; dispatched := []; shown := [] |}.

(** The retry cap at work: three attempts left, three retries. *)
Lemma retries_stop_at_cap_witness :
  exists a',
    start_auto_fix_process ascii_only (answers (py "123")) keep_template 4 flagged_app
    = Finished a'
    /\ dispatched a' = [0; 0; 0]
    /\ shown a' = [Completed]
    /\ _has_mismatch ascii_only (paragraphs a') 0 = Some true.
Proof.
  apply (retries_stop_at_cap ascii_only (answers (py "123")) keep_template 3 flagged_app 0
           (fragment (py "Hello") (py "123") true) [] (py "Hello") []).
  - reflexivity.
  - intros ps world. exists (py "123"), world. split; reflexivity.
  - reflexivity.
  - reflexivity.
  - reflexivity.
  - reflexivity.
  - reflexivity.
Defined.

(** The window at the end of that run, and its summary. *)
Definition exhausted_app : @TranslatorApp unit :=
  {| paragraphs := [fragment (py "Hello") (py "123") true];
     selected_for_auto_fix := ∅; auto_fix_attempts := ∅;
     max_auto_fix_attempts := 3; auto_fix_checked := true;
     settings := plain_worker; world := tt; dispatched := [0; 0; 0];
     shown := [Completed] |}.

Lemma auto_fix_never_warns_witness :
  start_auto_fix_process ascii_only (answers (py "123")) keep_template 4 flagged_app
  = Finished exhausted_app
  /\ shown exhausted_app = shown flagged_app ++ [Completed].
Proof.
  assert (Hrun : start_auto_fix_process ascii_only (answers (py "123")) keep_template 4
                   flagged_app = Finished exhausted_app) by (vm_compute; reflexivity).
  split; [exact Hrun|].
  exact (auto_fix_never_warns ascii_only (answers (py "123")) keep_template 4
           flagged_app exhausted_app eq_refl Hrun).
Defined.

(** The request of the Ollama backend for two different cores. *)
Lemma default_ollama_prompt_ignores_core_witness :
  build_request ascii_only keep_template ollama_worker [] (py "Hello")
  = build_request ascii_only keep_template ollama_worker [] (py "Goodbye").
Proof.
  exact (proj1 (default_ollama_prompt_ignores_core ascii_only keep_template ollama_worker
                  [] (py "Hello") (py "Goodbye") eq_refl eq_refl)).
Defined.

(** The paragraph count check and the leading character check on the
    examples of the specification: a text of two paragraphs against one of
    one paragraph, against itself, and a numbered heading against a word. *)
Theorem paragraph_and_leading_checks :
  mismatch_checks ascii_only (py "A." ++ nl ++ nl ++ py "B.") (py "A.") !! 0 = Some true
  /\ mismatch_checks ascii_only (py "A." ++ nl ++ nl ++ py "B.") (py "A." ++ nl ++ nl ++ py "B.") !! 0
     = Some false
  /\ first_char_type ascii_only (py "1. Chapter") = py "digit"
  /\ first_char_type ascii_only (py "Rozdzial") = py "alpha"
  /\ mismatch_checks ascii_only (py "1. Chapter") (py "Rozdzial") !! 1 = Some true.
Proof. repeat split; vm_compute; reflexivity. Qed.

(** Two subtitles, the second translated into two lines. *)
Definition two_subtitles : list para :=
  [ {| para_id := py "1"; original_text := py "Hello"; translated_text := [];
       is_translated := false; item_href := py "a.srt"; element_type := py "subtitle";
       original_html := None; timestamp := Some (py "00:00:01,000 --> 00:00:02,000") |};
    {| para_id := py "2"; original_text := py "Bye bye"; translated_text := py "Pa" ++ nl ++ py "pa";
       is_translated := true; item_href := py "a.srt"; element_type := py "subtitle";
       original_html := None; timestamp := Some (py "00:00:03,000 --> 00:00:04,000") |} ].

Lemma srt_save_then_load_witness :
  exists written,
    SRTCreator_run two_subtitles = (written, false)
    /\ load_srt ascii_only (py "b.srt") (universal_newlines written)
       = List.map (reloaded (py "b.srt")) two_subtitles.
Proof.
  apply (srt_save_then_load ascii_only (py "b.srt") two_subtitles).
  vm_compute. reflexivity.
Defined.

(** The text of a subtitle file of two blocks, the second with spaces at
    the end of its text. *)
Definition short_subtitles : str :=
  py "1" ++ nl ++ py "00:00:01,000 --> 00:00:02,000" ++ nl ++ py "Hello" ++ nl ++ nl
  ++ py "2" ++ nl ++ py "00:00:03,000 --> 00:00:04,000" ++ nl ++ py "Bye  " ++ nl.

Lemma srt_load_save_load_witness :
  exists written,
    SRTCreator_run (load_srt ascii_only (py "a.srt") short_subtitles) = (written, false)
    /\ load_srt ascii_only (py "a.srt") (universal_newlines written)
       = load_srt ascii_only (py "a.srt") short_subtitles.
Proof.
  apply (srt_load_save_load ascii_only (py "a.srt") short_subtitles).
  - vm_compute. reflexivity.
  - vm_compute. reflexivity.
  - vm_compute. repeat constructor; discriminate.
Defined.

(** A backend that raises on every call: the translation [123] that the
    fragment held is replaced by the error text, and nothing is retried. *)
Lemma failed_translations_end_the_run_witness :
  exists a',
    start_translation ascii_only (raises (py "boom")) keep_template 1 [0] 3 flagged_app
    = Finished a'
    /\ dispatched a' = dispatched flagged_app
    /\ shown a' = shown flagged_app ++ [Completed]
    /\ forall idx, idx ∈ [0] ->
         exists p e, paragraphs a' !! idx = Some p /\ is_translated p = false
                     /\ translated_text p = py "ERROR: " ++ e.
Proof.
  apply (failed_translations_end_the_run ascii_only (raises (py "boom")) keep_template
           0 [0] 3 flagged_app).
  - intros req wd0. exists (py "boom"), wd0. reflexivity.
  - discriminate.
  - repeat constructor.
Defined.

(** A heading whose number stands in a span of its own beside the title. *)
Definition title_span : node :=
  Tag (py "span") [(py "class", py "calibre1")] [NavigableString PlainText (py "Old title")].
Definition titled_template : node :=
  Tag (py "h2") [(py "id", py "trans_1")]
    [ Tag (py "span") [(py "class", py "item-number")] [NavigableString PlainText (py "1.")];
      title_span;
      NavigableString PlainText (py " ") ].

Lemma fill_template_with_title_witness :
  exists name attrs contents before_it after_it,
    title_span = Tag name attrs contents
    /\ find_span ascii_only (py "calibre1")
         (fill_template ascii_only titled_template (py "1. Nowy tytul"))
       = Some (Tag name attrs [NavigableString PlainText (py "Nowy tytul")])
    /\ strings titled_template = before_it ++ strings_of title_span ++ after_it
    /\ strings (fill_template ascii_only titled_template (py "1. Nowy tytul"))
       = before_it ++ [(PlainText, py "Nowy tytul")] ++ after_it.
Proof.
  exact (fill_template_with_title ascii_only titled_template (py "1. Nowy tytul")
           title_span eq_refl).
Defined.

Lemma numbering_removed_once_witness :
  re_sub ascii_only numbering_pattern [] (py " 12. Nowy tytul") = py "Nowy tytul".
Proof.
  apply (proj2 (numbering_removed_once ascii_only (py " 12. Nowy tytul"))
           (py " ") 49%N [50%N] (py " Nowy tytul")); reflexivity.
Defined.

(** The parts of [12. Hello.]: the prefix is digits, a dot and a space, the
    suffix is the dot. *)
Lemma split_prefix_suffix_shape_witness :
  (py "12. " = [] /\ py "Hello" = hello /\ py "." = [])
  \/ (exists ws d ds p ws2 punct trail,
        py "12. " = ws ++ (d :: ds) ++ [p] ++ ws2
        /\ forallb (isspace ascii_only) ws = true
        /\ forallb (isdecimal ascii_only) (d :: ds) = true
        /\ (p = ch "." \/ p = ch ")") /\ forallb (isspace ascii_only) ws2 = true
        /\ str_in nl (py "Hello") = false
        /\ py "." = punct ++ trail
        /\ (punct = [] \/ punct = py "." \/ punct = py "?" \/ punct = py "!")
        /\ forallb (isspace ascii_only) trail = true).
Proof.
  apply (split_prefix_suffix_shape ascii_only hello (py "12. ") (py "Hello") (py ".")).
  vm_compute. reflexivity.
Defined.

Lemma filled_template_reads_as_translation_witness :
  get_text ascii_only (fill_template ascii_only mixed_template (py " Nowy tekst "))
  = py "Nowy tekst".
Proof.
  exact (filled_template_reads_as_translation ascii_only mixed_template (py " Nowy tekst ")
           eq_refl eq_refl).
Defined.

(** The window with the automatic retries off, before and after the batch
    for [Hello] has come back with [123]. *)
Definition manual_app : @TranslatorApp unit :=
  {| paragraphs := [fragment (py "Hello") [] false];
     selected_for_auto_fix := ∅; auto_fix_attempts := ∅;
     max_auto_fix_attempts := 3; auto_fix_checked := false;
     settings := plain_worker; world := tt; dispatched := []; shown := [] |}.
Definition manual_done : @TranslatorApp unit :=
  {| paragraphs := [fragment (py "Hello") (py "123") true];
     selected_for_auto_fix := ∅; auto_fix_attempts := ∅;
     max_auto_fix_attempts := 3; auto_fix_checked := false;
     settings := plain_worker; world := tt; dispatched := [];
     shown := [CompletedWithWarnings 1] |}.

Lemma manual_run_reports_mismatches_witness :
  dispatched manual_done = dispatched manual_app
  /\ shown manual_done = shown manual_app ++ [CompletedWithWarnings 1].
Proof.
  assert (Hrun : start_translation ascii_only (answers (py "123")) keep_template 1 [0] 3
                   manual_app = Finished manual_done) by (vm_compute; reflexivity).
  assert (Hsel : [0] <> @nil nat) by discriminate.
  exact (manual_run_reports_mismatches ascii_only (answers (py "123")) keep_template
           1 [0] 3 manual_app manual_done eq_refl Hsel Hrun).
Defined.

(** The backend answers [Czesc] for the core of [12. Hello.]: the number in
    front and the dot at the end are those of the original. *)
Lemma kept_ends_pass_the_character_checks_witness :
  first_char_type ascii_only (py "12. " ++ py "Czesc" ++ py ".")
  = first_char_type ascii_only hello
  /\ last_char_type ascii_only (py "12. " ++ py "Czesc" ++ py ".")
     = last_char_type ascii_only hello.
Proof.
  assert (Hsplit : split_prefix_suffix ascii_only hello = (py "12. ", py "Hello", py "."))
    by (vm_compute; reflexivity).
  destruct (kept_ends_pass_the_character_checks ascii_only hello (py "12. ") (py "Hello")
              (py ".") (py "Czesc") Hsplit) as [Hfirst Hlast].
  split; [apply Hfirst | apply Hlast]; reflexivity.
Defined.
